(** * LivePulse rate limiter ([core/rate_limit.py]): a shallow embedding

    The development follows the Python module top to bottom: the exception
    and result types, [InMemoryStore], the four strategies, [RateLimiter]
    and [TieredRateLimiter].

    Modelling conventions.
    - Python [float] values (timestamps, windows, token counts) are exact
      rationals [Q]; results about them are stated up to [==].  The rounding
      of the doubles, their infinities and NaN, and the [OverflowError] of
      conversions between [int] and [float] have no counterpart.
    - Python [int] is [Z]; [int(x)] on a float truncates toward zero.
    - A Python [str] is the [string] of its UTF-8 bytes; a [str] with a lone
      surrogate, on which [str.encode()] raises [UnicodeEncodeError], has no
      counterpart.
    - Every call of [time.time()] / [time.monotonic()] is a separate read of
      the clock: a call of the API is run against a [Clock], which gives the
      value either clock shows at the n-th read made during that call.
    - Exceptions are explicit ([Raise]); the state reached when an exception
      propagates is kept, as in Python.
    - Locks ([threading.RLock]) are not modelled: calls are sequential; the
      [async] variants, which run the same checks on an executor, are left
      out with them. *)

From Stdlib Require Import ZArith QArith Qround Lqa Lia String Ascii List Sorted.
From stdpp Require Import gmap strings list fin_maps pretty.

Open Scope Z_scope.

(* ------------------------------------------------------------------ *)
(** ** Numbers *)
(* ------------------------------------------------------------------ *)

(** [a < b] on floats, as a boolean. *)
Definition Qlt_bool (a b : Q) : bool := negb (Qle_bool b a).

(** Python's [int(x)] for a float [x]: truncation toward zero. *)
Definition py_int (x : Q) : Z := Z.quot (Qnum x) (Zpos (Qden x)).

(** Python's [float(n)] for an int [n]. *)
Definition py_float (n : Z) : Q := inject_Z n.

(** Python's [min(a, b)] on floats: [b] when [b < a], otherwise [a]. *)
Definition py_min (a b : Q) : Q := if Qlt_bool b a then b else a.

(* ------------------------------------------------------------------ *)
(** ** hashlib.md5 (RFC 1321), used by [RateLimiter._build_key] *)
(* ------------------------------------------------------------------ *)

Module hashlib.

Definition mask32 (x : Z) : Z := Z.land x 0xffffffff.

Definition rotl32 (x c : Z) : Z :=
  mask32 (Z.lor (Z.shiftl x c) (Z.shiftr x (32 - c))).

Definition not32 (x : Z) : Z := Z.lxor x 0xffffffff.

Definition md5_s : list Z :=
  [7; 12; 17; 22; 7; 12; 17; 22; 7; 12; 17; 22; 7; 12; 17; 22;
   5;  9; 14; 20; 5;  9; 14; 20; 5;  9; 14; 20; 5;  9; 14; 20;
   4; 11; 16; 23; 4; 11; 16; 23; 4; 11; 16; 23; 4; 11; 16; 23;
   6; 10; 15; 21; 6; 10; 15; 21; 6; 10; 15; 21; 6; 10; 15; 21].

Definition md5_K : list Z :=
  [0xd76aa478; 0xe8c7b756; 0x242070db; 0xc1bdceee;
   0xf57c0faf; 0x4787c62a; 0xa8304613; 0xfd469501;
   0x698098d8; 0x8b44f7af; 0xffff5bb1; 0x895cd7be;
   0x6b901122; 0xfd987193; 0xa679438e; 0x49b40821;
   0xf61e2562; 0xc040b340; 0x265e5a51; 0xe9b6c7aa;
   0xd62f105d; 0x02441453; 0xd8a1e681; 0xe7d3fbc8;
   0x21e1cde6; 0xc33707d6; 0xf4d50d87; 0x455a14ed;
   0xa9e3e905; 0xfcefa3f8; 0x676f02d9; 0x8d2a4c8a;
   0xfffa3942; 0x8771f681; 0x6d9d6122; 0xfde5380c;
   0xa4beea44; 0x4bdecfa9; 0xf6bb4b60; 0xbebfbc70;
   0x289b7ec6; 0xeaa127fa; 0xd4ef3085; 0x04881d05;
   0xd9d4d039; 0xe6db99e5; 0x1fa27cf8; 0xc4ac5665;
   0xf4292244; 0x432aff97; 0xab9423a7; 0xfc93a039;
   0x655b59c3; 0x8f0ccc92; 0xffeff47d; 0x85845dd1;
   0x6fa87e4f; 0xfe2ce6e0; 0xa3014314; 0x4e0811a1;
   0xf7537e82; 0xbd3af235; 0x2ad7d2bb; 0xeb86d391].

(** [str.encode()]: the bytes of the key, which a [string] already is. *)
Definition encode (s : string) : list Z :=
  List.map (fun a => Z.of_N (N_of_ascii a)) (list_ascii_of_string s).

(** [n] little-endian bytes of [x]. *)
Fixpoint le_bytes (n : nat) (x : Z) : list Z :=
  match n with
  | O => []
  | S n' => Z.land x 0xff :: le_bytes n' (Z.shiftr x 8)
  end.

Definition pad (msg : list Z) : list Z :=
  let len := Z.of_nat (List.length msg) in
  msg ++ [0x80] ++ List.repeat 0 (Z.to_nat ((55 - len) mod 64))
      ++ le_bytes 8 (8 * len).

(** Little-endian 32-bit words of a byte sequence. *)
Fixpoint words (bs : list Z) : list Z :=
  match bs with
  | b0 :: b1 :: b2 :: b3 :: r =>
      (b0 + Z.shiftl b1 8 + Z.shiftl b2 16 + Z.shiftl b3 24) :: words r
  | _ => []
  end.

Definition md5_step (M : list Z) (st : Z * Z * Z * Z) (i : nat) : Z * Z * Z * Z :=
  let '(A, B, C, D) := st in
  let iz := Z.of_nat i in
  let '(F, g) :=
    if iz <? 16 then (Z.lor (Z.land B C) (Z.land (not32 B) D), iz)
    else if iz <? 32 then (Z.lor (Z.land D B) (Z.land (not32 D) C), (5 * iz + 1) mod 16)
    else if iz <? 48 then (Z.lxor (Z.lxor B C) D, (3 * iz + 5) mod 16)
    else (Z.lxor C (Z.lor B (not32 D)), (7 * iz) mod 16) in
  let F' := mask32 (F + A + List.nth i md5_K 0 + List.nth (Z.to_nat g) M 0) in
  (D, mask32 (B + rotl32 F' (List.nth i md5_s 0)), B, C).

Definition md5_chunk (st : Z * Z * Z * Z) (M : list Z) : Z * Z * Z * Z :=
  let '(a0, b0, c0, d0) := st in
  let '(A, B, C, D) := List.fold_left (md5_step M) (List.seq 0 64) st in
  (mask32 (a0 + A), mask32 (b0 + B), mask32 (c0 + C), mask32 (d0 + D)).

Fixpoint md5_chunks (n : nat) (ws : list Z) (st : Z * Z * Z * Z) : Z * Z * Z * Z :=
  match n with
  | O => st
  | S n' => md5_chunks n' (List.skipn 16 ws) (md5_chunk st (List.firstn 16 ws))
  end.

Definition hex_digit (d : Z) : ascii :=
  List.nth (Z.to_nat d) (list_ascii_of_string "0123456789abcdef") "0"%char.

Definition hex_byte (b : Z) : string :=
  String (hex_digit (Z.shiftr b 4)) (String (hex_digit (Z.land b 0xf)) EmptyString).

(** [hashlib.md5(data).hexdigest()] *)
Definition md5_hexdigest (data : list Z) : string :=
  let ws := words (pad data) in
  let '(a, b, c, d) :=
    md5_chunks (List.length ws / 16) ws
      (0x67452301, 0xefcdab89, 0x98badcfe, 0x10325476) in
  String.concat "" (List.map hex_byte
    (le_bytes 4 a ++ le_bytes 4 b ++ le_bytes 4 c ++ le_bytes 4 d)).

End hashlib.

(* ------------------------------------------------------------------ *)
(** ** Exceptions, results and the execution monad *)
(* ------------------------------------------------------------------ *)

(** The exceptions the module can raise.  [RateLimitExceeded] carries the
    four attributes its constructor stores. *)
Inductive Exn : Type :=
| ZeroDivisionError
| TypeError
| AttributeError
| IndexError
| ValueError
| RateLimitExceeded (key : string) (retry_after : Q) (limit : Z) (strategy : string).

Inductive Py (A : Type) : Type :=
| Ok (a : A)
| Raise (e : Exn).
Arguments Ok {A} a.
Arguments Raise {A} e.

(** Outcome of a single rate-limit check. *)
Record RateLimitResult : Type := mkResult {
  allowed : bool;
  key : string;
  remaining : Z;
  limit : Z;
  reset_at : Q;
  retry_after : Q;
  strategy : string
}.

(** [RateLimitResult.headers]: the standard HTTP rate-limit response
    headers; [str(n)] of an int is its decimal numeral. *)
Definition headers (self : RateLimitResult) : gmap string string :=
  {[ "X-RateLimit-Limit" := pretty (limit self);
     "X-RateLimit-Remaining" := pretty (Z.max 0 (remaining self));
     "X-RateLimit-Reset" := pretty (py_int (reset_at self));
     "Retry-After" :=
       if allowed self then "0" else pretty (py_int (retry_after self)) ]}.

Record _BucketState : Type := mkBucket { tokens : Q; last_refill : Q }.

Record _LeakyState : Type := mkLeaky { queue_size : Z; last_leak : Q }.

(** What a store slot can hold ([dict[str, Any]]): a counter, a deque of
    timestamps, or the state object of one of the bucket strategies. *)
Inductive Value : Type :=
| VInt (n : Z)
| VDeque (log : list Q)
| VBucket (s : _BucketState)
| VLeaky (s : _LeakyState).

(** Python truthiness of a stored value, as used by [x or default]. *)
Definition truthy (v : Value) : bool :=
  match v with
  | VInt n => negb (n =? 0)
  | VDeque log => negb (Nat.eqb (List.length log) 0)
  | VBucket _ => true
  | VLeaky _ => true
  end.

(** The two dictionaries of an [InMemoryStore] object. *)
Record StoreObj : Type := mkStore {
  _data : gmap string Value;
  _ttl : gmap string Q
}.

(** A [logger.warning] record: key, strategy, retry_after. *)
Record LogRecord : Type := mkLog {
  log_key : string; log_strategy : string; log_retry_after : Q
}.

(** The heap: store objects by reference, and the log sink. *)
Record World : Type := mkWorld {
  stores : gmap nat StoreObj;
  next_ref : nat;
  warnings : list LogRecord
}.

(** The clocks as seen during one call: the value shown at the n-th read. *)
Record Clock : Type := mkClock {
  time_time : nat -> Q;
  time_monotonic : nat -> Q
}.

(** A clock that does not advance during the call. *)
Definition frozen (wall mono : Q) : Clock :=
  {| time_time := fun _ => wall; time_monotonic := fun _ => mono |}.

(** Both clocks showing [t] for the whole call. *)
Definition at_time (t : Q) : Clock := frozen t t.

(** Computations: read the clock, count the reads, update the world, and
    return or raise. *)
Definition M (A : Type) : Type := Clock -> nat * World -> Py A * (nat * World).

Definition ret {A} (a : A) : M A := fun _ s => (Ok a, s).

Definition raise {A} (e : Exn) : M A := fun _ s => (Raise e, s).

Definition bind {A B} (m : M A) (k : A -> M B) : M B :=
  fun c s =>
    match m c s with
    | (Ok a, s') => k a c s'
    | (Raise e, s') => (Raise e, s')
    end.

Notation "x <- m ;; k" := (bind m (fun x => k))
  (at level 100, m at next level, right associativity).
Notation "m ;;; k" := (bind m (fun _ => k))
  (at level 100, right associativity).

(** [time.time()] *)
Definition wall_now : M Q :=
  fun c '(n, w) => (Ok (time_time c n), (S n, w)).

(** [time.monotonic()] *)
Definition monotonic_now : M Q :=
  fun c '(n, w) => (Ok (time_monotonic c n), (S n, w)).

Definition empty_store : StoreObj := {| _data := ∅; _ttl := ∅ |}.

(** The store object behind a reference, and the heap with one object
    replaced. *)
Definition store_of (w : World) (ref : nat) : StoreObj :=
  default empty_store (stores w !! ref).

Definition with_store (w : World) (ref : nat) (s : StoreObj) : World :=
  {| stores := <[ref := s]> (stores w);
     next_ref := next_ref w;
     warnings := warnings w |}.

Definition read_store (ref : nat) : M StoreObj :=
  fun _ '(n, w) => (Ok (store_of w ref), (n, w)).

Definition write_store (ref : nat) (s : StoreObj) : M unit :=
  fun _ '(n, w) => (Ok tt, (n, with_store w ref s)).

Definition alloc_store : M nat :=
  fun _ '(n, w) =>
    (Ok (next_ref w),
     (n, {| stores := <[next_ref w := empty_store]> (stores w);
            next_ref := S (next_ref w);
            warnings := warnings w |})).

(** The heap after one more record reached the log sink. *)
Definition logged (w : World) (r : LogRecord) : World :=
  {| stores := stores w; next_ref := next_ref w; warnings := warnings w ++ [r] |}.

(** [logger.warning("Rate limit hit | ...")] *)
Definition logger_warning (r : LogRecord) : M unit :=
  fun _ '(n, w) => (Ok tt, (n, logged w r)).

(** Float true division [a / b]: exact, with a zero divisor as its only
    error. *)
Definition py_div (a b : Q) : M Q :=
  if Qeq_bool b 0 then raise ZeroDivisionError else ret (a / b)%Q.

(** One call of the API against the clock [c], from the world [w]. *)
Definition call {A} (c : Clock) (m : M A) (w : World) : Py A * World :=
  let '(r, (_, w')) := m c (O, w) in (r, w').

(* ------------------------------------------------------------------ *)
(** ** InMemoryStore *)
(* ------------------------------------------------------------------ *)

Module InMemoryStore.

Definition __init__ : M nat := alloc_store.

Definition _is_expired (self : nat) (key : string) : M bool :=
  s <- read_store self ;;
  match _ttl s !! key with
  | None => ret false
  | Some expiry => now <- monotonic_now ;; ret (Qlt_bool expiry now)
  end.

Definition _evict (self : nat) (key : string) : M unit :=
  s <- read_store self ;;
  write_store self {| _data := delete key (_data s); _ttl := delete key (_ttl s) |}.

Definition get (self : nat) (key : string) : M (option Value) :=
  expired <- _is_expired self key ;;
  if expired : bool then _evict self key ;;; ret None
  else s <- read_store self ;; ret (_data s !! key).

Definition set (self : nat) (key : string) (value : Value) (ttl : option Q) : M unit :=
  s <- read_store self ;;
  write_store self {| _data := <[key := value]> (_data s); _ttl := _ttl s |} ;;;
  match ttl with
  | None => ret tt
  | Some t =>
      now <- monotonic_now ;;
      s <- read_store self ;;
      write_store self {| _data := _data s; _ttl := <[key := (now + t)%Q]> (_ttl s) |}
  end.

Definition delete (self : nat) (key : string) : M unit := _evict self key.

Definition incr (self : nat) (key : string) (ttl : option Q) : M Z :=
  expired <- _is_expired self key ;;
  (if expired : bool then _evict self key else ret tt) ;;;
  s <- read_store self ;;
  count <- match _data s !! key with
           | None => ret (0 + 1)
           | Some (VInt n) => ret (n + 1)
           | Some _ => raise TypeError
           end ;;
  set self key (VInt count) (if count =? 1 then ttl else None) ;;;
  ret count.

End InMemoryStore.

(* ------------------------------------------------------------------ *)
(** ** The four strategies *)
(* ------------------------------------------------------------------ *)

(** Every [check] below is [Strategy.check(self, key, limit, window)] of the
    class in question; [store] is [self.store]. *)

Module FixedWindow.

Definition name : string := "fixed_window".

Definition check (store : nat) (key : string) (limit : Z) (window : Q)
  : M RateLimitResult :=
  now <- wall_now ;;
  q <- py_div now window ;;
  let slot := py_int q in
  let store_key := key +:+ ":fw:" +:+ pretty slot in
  count <- InMemoryStore.incr store store_key (Some window) ;;
  let reset_at := (inject_Z (slot + 1) * window)%Q in
  let allowed := count <=? limit in
  ret (mkResult allowed key (Z.max 0 (limit - count)) limit reset_at
         (if allowed then 0%Q else (reset_at - now)%Q) name).

End FixedWindow.

Module SlidingWindowLog.

Definition name : string := "sliding_window_log".

(** [while log and log[0] <= cutoff: log.popleft()] *)
Fixpoint trim (cutoff : Q) (log : list Q) : list Q :=
  match log with
  | [] => []
  | t :: rest => if Qle_bool t cutoff then trim cutoff rest else log
  end.

Definition check (store : nat) (key : string) (limit : Z) (window : Q)
  : M RateLimitResult :=
  now <- wall_now ;;
  let store_key := key +:+ ":swl" in
  let cutoff := (now - window)%Q in
  v <- InMemoryStore.get store store_key ;;
  log <- match v with
         | None => ret []
         | Some (VDeque log) => ret log
         | Some v' => if truthy v' then raise TypeError else ret []
         end ;;
  let log := trim cutoff log in
  let allowed := Z.of_nat (List.length log) <? limit in
  let log := if allowed then log ++ [now] else log in
  InMemoryStore.set store store_key (VDeque log) (Some window) ;;;
  retry_after <- (if allowed then ret 0%Q
                  else match log with
                       | [] => raise IndexError
                       | t0 :: _ => ret (t0 + window - now)%Q
                       end) ;;
  ret (mkResult allowed key (Z.max 0 (limit - Z.of_nat (List.length log))) limit
         (now + window)%Q retry_after name).

End SlidingWindowLog.

Module TokenBucket.

Definition name : string := "token_bucket".

Definition check (store : nat) (key : string) (limit : Z) (window : Q)
  : M RateLimitResult :=
  now <- monotonic_now ;;
  let store_key := key +:+ ":tb" in
  rate <- py_div (inject_Z limit) window ;;
  v <- InMemoryStore.get store store_key ;;
  state <- match v with
           | Some (VBucket s) => ret s
           | Some v' =>
               if truthy v' then raise AttributeError
               else t <- monotonic_now ;; ret (mkBucket (py_float limit) t)
           | None => t <- monotonic_now ;; ret (mkBucket (py_float limit) t)
           end ;;
  let elapsed := (now - last_refill state)%Q in
  let tokens1 := py_min (py_float limit) (tokens state + elapsed * rate)%Q in
  let allowed := Qle_bool 1 tokens1 in
  let tokens2 := if allowed then (tokens1 - 1)%Q else tokens1 in
  InMemoryStore.set store store_key (VBucket (mkBucket tokens2 now))
    (Some (window * 2)%Q) ;;;
  let tokens_needed := if allowed then 0%Q else (1 - tokens2)%Q in
  retry_after <- (if allowed then ret 0%Q else py_div tokens_needed rate) ;;
  wall <- wall_now ;;
  until_full <- py_div (inject_Z limit - tokens2)%Q rate ;;
  ret (mkResult allowed key (py_int tokens2) limit (wall + until_full)%Q
         retry_after name).

End TokenBucket.

Module LeakyBucket.

Definition name : string := "leaky_bucket".

Definition check (store : nat) (key : string) (limit : Z) (window : Q)
  : M RateLimitResult :=
  now <- monotonic_now ;;
  let store_key := key +:+ ":lb" in
  rate <- py_div (inject_Z limit) window ;;
  v <- InMemoryStore.get store store_key ;;
  state <- match v with
           | Some (VLeaky s) => ret s
           | Some v' =>
               if truthy v' then raise AttributeError
               else t <- monotonic_now ;; ret (mkLeaky 0 t)
           | None => t <- monotonic_now ;; ret (mkLeaky 0 t)
           end ;;
  let elapsed := (now - last_leak state)%Q in
  let leaked := py_int (elapsed * rate)%Q in
  let queue1 := Z.max 0 (queue_size state - leaked) in
  let last := if leaked =? 0 then last_leak state else now in
  let allowed := queue1 <? limit in
  let queue2 := if allowed then queue1 + 1 else queue1 in
  InMemoryStore.set store store_key (VLeaky (mkLeaky queue2 last))
    (Some (window * 2)%Q) ;;;
  retry_after <- (if allowed then ret 0%Q else py_div 1 rate) ;;
  wall <- wall_now ;;
  drain <- py_div (inject_Z queue2) rate ;;
  ret (mkResult allowed key (Z.max 0 (limit - queue2)) limit (wall + drain)%Q
         retry_after name).

End LeakyBucket.

(** [StrategyType], and the dispatch done by [_STRATEGY_MAP]. *)
Inductive StrategyType : Type :=
| FIXED_WINDOW
| SLIDING_WINDOW_LOG
| TOKEN_BUCKET
| LEAKY_BUCKET.

Module Strategy.

Definition name (s : StrategyType) : string :=
  match s with
  | FIXED_WINDOW => FixedWindow.name
  | SLIDING_WINDOW_LOG => SlidingWindowLog.name
  | TOKEN_BUCKET => TokenBucket.name
  | LEAKY_BUCKET => LeakyBucket.name
  end.

Definition check (s : StrategyType) (store : nat) (key : string) (limit : Z) (window : Q)
  : M RateLimitResult :=
  match s with
  | FIXED_WINDOW => FixedWindow.check store key limit window
  | SLIDING_WINDOW_LOG => SlidingWindowLog.check store key limit window
  | TOKEN_BUCKET => TokenBucket.check store key limit window
  | LEAKY_BUCKET => LeakyBucket.check store key limit window
  end.

End Strategy.

(* ------------------------------------------------------------------ *)
(** ** RateLimiter *)
(* ------------------------------------------------------------------ *)

Module RateLimiter.

Record t : Type := mk {
  limit : Z;
  window : Q;
  raise_on_limit : bool;
  key_prefix : string;
  _store : nat;
  _strategy : StrategyType
}.

(** [RateLimiter(limit, window, strategy, store, key_prefix, raise_on_limit)];
    [store = None] stands for the omitted argument. *)
Definition __init__ (limit : Z) (window : Q) (strategy : StrategyType)
    (store : option nat) (key_prefix : string) (raise_on_limit : bool) : M t :=
  st <- match store with
        | Some ref => ret ref
        | None => InMemoryStore.__init__
        end ;;
  ret (mk limit window raise_on_limit key_prefix st strategy).

Definition _build_key (self : t) (key : string) : string :=
  let short_hash := String.substring 0 8 (hashlib.md5_hexdigest (hashlib.encode key)) in
  key_prefix self +:+ ":" +:+ short_hash +:+ ":" +:+ key.

Definition check (self : t) (key : string) : M RateLimitResult :=
  result <- Strategy.check (_strategy self) (_store self) (_build_key self key)
              (limit self) (window self) ;;
  (if allowed result then ret tt
   else logger_warning (mkLog key (strategy result) (retry_after result))) ;;;
  ret result.

Definition enforce (self : t) (key : string) : M RateLimitResult :=
  result <- check self key ;;
  if allowed result then ret result
  else raise (RateLimitExceeded key (retry_after result) (limit self) (strategy result)).

(** The body of [for offset in range(3)] in [reset]. *)
Definition reset_slot (self : t) (full_key : string) (offset : Z) : M unit :=
  now <- wall_now ;;
  q <- py_div now (window self) ;;
  let slot := py_int q - offset in
  InMemoryStore.delete (_store self) (full_key +:+ ":fw:" +:+ pretty slot).

Definition reset (self : t) (key : string) : M unit :=
  let full_key := _build_key self key in
  InMemoryStore.delete (_store self) (full_key +:+ ":swl") ;;;
  InMemoryStore.delete (_store self) (full_key +:+ ":tb") ;;;
  InMemoryStore.delete (_store self) (full_key +:+ ":lb") ;;;
  reset_slot self full_key 0 ;;;
  reset_slot self full_key 1 ;;;
  reset_slot self full_key 2.



End RateLimiter.

(* ------------------------------------------------------------------ *)
(** ** TieredRateLimiter *)
(* ------------------------------------------------------------------ *)

Module TieredRateLimiter.

Record t : Type := mk { limiters : list RateLimiter.t }.

Definition __init__ (limiters : list RateLimiter.t) : M t :=
  match limiters with
  | [] => raise ValueError
  | _ => ret (mk limiters)
  end.

(** [[rl.check(key) for rl in self.limiters]] *)
Fixpoint check_each (ls : list RateLimiter.t) (key : string) : M (list RateLimitResult) :=
  match ls with
  | [] => ret []
  | rl :: rest =>
      r <- RateLimiter.check rl key ;;
      rs <- check_each rest key ;;
      ret (r :: rs)
  end.

Definition check (self : t) (key : string) : M (list RateLimitResult) :=
  check_each (limiters self) key.

(** The loop of [enforce]: [results] is the list built so far. *)
Fixpoint enforce_loop (ls : list RateLimiter.t) (key : string)
    (results : list RateLimitResult) : M (list RateLimitResult) :=
  match ls with
  | [] => ret results
  | rl :: rest =>
      r <- RateLimiter.enforce rl key ;;
      enforce_loop rest key (results ++ [r])
  end.

Definition enforce (self : t) (key : string) : M (list RateLimitResult) :=
  enforce_loop (limiters self) key [].

End TieredRateLimiter.

(* ------------------------------------------------------------------ *)
(** ** Views of the heap used in the statements *)
(* ------------------------------------------------------------------ *)

(** The value and the expiry instant stored under [k] in store [ref]. *)
Definition data_at (w : World) (ref : nat) (k : string) : option Value :=
  _data (store_of w ref) !! k.

Definition ttl_at (w : World) (ref : nat) (k : string) : option Q :=
  _ttl (store_of w ref) !! k.

(** [k] carries an expiry instant that lies strictly before [now]. *)
Definition expired_at (w : World) (ref : nat) (k : string) (now : Q) : Prop :=
  exists e, ttl_at w ref k = Some e /\ (e < now)%Q.

(** [k] has no expiry instant, or one that has not passed at [now]. *)
Definition live_at (w : World) (ref : nat) (k : string) (now : Q) : Prop :=
  match ttl_at w ref k with
  | Some e => (now <= e)%Q
  | None => True
  end.

(** The heap after [_evict(k)] on store [ref]. *)
Definition evicted (w : World) (ref : nat) (k : string) : World :=
  with_store w ref
    {| _data := delete k (_data (store_of w ref));
       _ttl := delete k (_ttl (store_of w ref)) |}.

(** The heap after [self._data[k] = v]. *)
Definition with_data (w : World) (ref : nat) (k : string) (v : Value) : World :=
  with_store w ref
    {| _data := <[k := v]> (_data (store_of w ref)); _ttl := _ttl (store_of w ref) |}.

(** The heap after [self._ttl[k] = e]. *)
Definition with_ttl (w : World) (ref : nat) (k : string) (e : Q) : World :=
  with_store w ref
    {| _data := _data (store_of w ref); _ttl := <[k := e]> (_ttl (store_of w ref)) |}.

(** The slot [k] as [get]/[incr] see it at the read counter [n]: the heap
    after the lazy eviction, and the number of clock reads spent. *)
Definition settle (w : World) (ref : nat) (k : string) (c : Clock) (n : nat)
  : nat * World :=
  match ttl_at w ref k with
  | None => (n, w)
  | Some e =>
      if Qlt_bool e (time_monotonic c n) then (S n, evicted w ref k) else (S n, w)
  end.


(** *** Pure transition functions of the strategies *)

(** What [store.get(k) or fresh] yields for a bucket strategy: the stored
    state, or none when the slot is empty or falsy. *)
Definition as_bucket (v : option Value) : option _BucketState :=
  match v with Some (VBucket s) => Some s | _ => None end.

Definition as_leaky (v : option Value) : option _LeakyState :=
  match v with Some (VLeaky s) => Some s | _ => None end.

(** The slot holds nothing that [TokenBucket.check] would choke on. *)
Definition bucket_slot (v : option Value) : Prop :=
  match v with
  | None => True
  | Some (VBucket _) => True
  | Some v' => truthy v' = false
  end.

Definition leaky_slot (v : option Value) : Prop :=
  match v with
  | None => True
  | Some (VLeaky _) => True
  | Some v' => truthy v' = false
  end.

Definition deque_slot (v : option Value) : Prop :=
  match v with
  | None => True
  | Some (VDeque _) => True
  | Some v' => truthy v' = false
  end.

(** The log [SlidingWindowLog.check] starts from. *)
Definition as_log (v : option Value) : list Q :=
  match v with Some (VDeque log) => log | _ => [] end.

(** TokenBucket: tokens after the refill at [now]. *)
Definition tb_refill (limit : Z) (rate now : Q) (s : _BucketState) : Q :=
  py_min (py_float limit) (tokens s + (now - last_refill s) * rate)%Q.

Definition tb_allowed (limit : Z) (rate now : Q) (s : _BucketState) : bool :=
  Qle_bool 1 (tb_refill limit rate now s).

(** TokenBucket: the state written back. *)
Definition tb_next (limit : Z) (rate now : Q) (s : _BucketState) : _BucketState :=
  mkBucket (if tb_allowed limit rate now s
            then (tb_refill limit rate now s - 1)%Q
            else tb_refill limit rate now s) now.

(** LeakyBucket: requests drained at [now]. *)
Definition lb_leaked (rate now : Q) (s : _LeakyState) : Z :=
  py_int ((now - last_leak s) * rate)%Q.

Definition lb_drained (rate now : Q) (s : _LeakyState) : Z :=
  Z.max 0 (queue_size s - lb_leaked rate now s).

Definition lb_allowed (limit : Z) (rate now : Q) (s : _LeakyState) : bool :=
  lb_drained rate now s <? limit.

(** LeakyBucket: the state written back. *)
Definition lb_next (limit : Z) (rate now : Q) (s : _LeakyState) : _LeakyState :=
  mkLeaky (if lb_allowed limit rate now s
           then lb_drained rate now s + 1 else lb_drained rate now s)
          (if lb_leaked rate now s =? 0 then last_leak s else now).

(** SlidingWindowLog: admission and the log written back. *)
Definition swl_allowed (limit : Z) (window now : Q) (log : list Q) : bool :=
  Z.of_nat (List.length (SlidingWindowLog.trim (now - window)%Q log)) <? limit.

Definition swl_next (limit : Z) (window now : Q) (log : list Q) : list Q :=
  if swl_allowed limit window now log
  then SlidingWindowLog.trim (now - window)%Q log ++ [now]
  else SlidingWindowLog.trim (now - window)%Q log.

(** A heap with no store objects. *)
Definition empty_world : World := {| stores := ∅; next_ref := O; warnings := [] |}.

(** *** Sequences of calls and their clocks *)

(** The same operation called once per clock, in order; the first
    exception ends the run. *)
Fixpoint run_calls {A} (m : M A) (clocks : list Clock) (w : World)
  : Py (list A) * World :=
  match clocks with
  | [] => (Ok [], w)
  | c :: rest =>
      match call c m w with
      | (Ok a, w1) =>
          match run_calls m rest w1 with
          | (Ok l, w2) => (Ok (a :: l), w2)
          | (Raise e, w2) => (Raise e, w2)
          end
      | (Raise e, w1) => (Raise e, w1)
      end
  end.

(** Every monotonic reading of [c1] is at most every one of [c2]: the call
    run against [c1] is over before the one run against [c2] starts. *)
Definition follows (c1 c2 : Clock) : Prop :=
  forall i j, (time_monotonic c1 i <= time_monotonic c2 j)%Q.

(** The monotonic clocks of successive calls never run backwards. *)
Definition clocks_ordered (clocks : list Clock) : Prop :=
  StronglySorted follows clocks.

(** The monotonic clock moves by at most [d] while one call runs. *)
Definition drift_within (d : Q) (c : Clock) : Prop :=
  forall i j, (time_monotonic c j - time_monotonic c i <= d)%Q.


(** *** Concrete inputs used by the examples *)

(** A clock whose monotonic reading advances by [step] at each of the
    first eight reads of a call (no call reads the clock more often). *)
Definition ticking (wall mono step : Q) : Clock :=
  {| time_time := fun _ => wall;
     time_monotonic :=
       fun n => (mono + inject_Z (Z.of_nat (Nat.min n 8)) * step)%Q |}.

(** One microsecond. *)
Definition usec : Q := 1 # 1000000.

(** *** Fixed-window slots *)



(** The counter of one slot: [v = 0] when nothing is stored, otherwise the
    stored count, which expires no earlier than [hi]. *)
Definition fw_slot_state (w : World) (store : nat) (k : string) (hi : Q) (v : Z) : Prop :=
  (v = 0 /\ data_at w store k = None /\ ttl_at w store k = None) \/
  (1 <= v /\ data_at w store k = Some (VInt v) /\
   exists e, ttl_at w store k = Some e /\ (hi <= e)%Q).


(** *** Spans *)




(** *** Tiered runs *)

(** The same operation called once per clock, keeping every outcome: an
    exception ends its own call, not the run. *)
Fixpoint run_outcomes {A} (m : M A) (clocks : list Clock) (w : World)
  : list (Py A) * World :=
  match clocks with
  | [] => ([], w)
  | c :: rest =>
      let '(r, w1) := call c m w in
      let '(rs, w2) := run_outcomes m rest w1 in
      (r :: rs, w2)
  end.

(** The monotonic clock does not run backwards while one call runs. *)
Definition steady (c : Clock) : Prop :=
  forall i j, (i <= j)%nat -> (time_monotonic c i <= time_monotonic c j)%Q.

(** Every monotonic reading, in every call, lies in [[b, b + d)]. *)
Definition mono_span_from (b d : Q) (clocks : list Clock) : Prop :=
  Forall (fun c => forall i,
            (b <= time_monotonic c i /\ time_monotonic c i < b + d)%Q) clocks.

(** The state of the two demo tiers between calls: the token bucket of
    tier 1 holds [m] whole tokens plus what was refilled since [t0], and no
    fixed-window counter of tier 2 exceeds [B]. *)
Definition demo_state (w : World) (s1 s2 : nat) (K : string) (t0 hi : Q) (m B : Z)
  : Prop :=
  (exists s e,
      data_at w s1 (K +:+ ":tb") = Some (VBucket s) /\
      (tokens s == inject_Z m + (last_refill s - t0) * (inject_Z 3 / 5))%Q /\
      ttl_at w s1 (K +:+ ":tb") = Some e /\ (hi <= e)%Q) /\
  (forall slot : Z, exists v,
      0 <= v <= B /\ fw_slot_state w s2 (K +:+ ":fw:" +:+ pretty slot) hi v).

(** Inputs of the examples. *)
Definition burst_clocks : list Clock := [at_time 0; at_time 0; at_time 1].


Definition demo_clocks : list Clock :=
  [at_time 0; at_time (1 # 10); at_time (2 # 10); at_time (3 # 10);
   at_time (4 # 10); at_time (5 # 10); at_time (6 # 10)].

(** A store holding the log [[1; 2]] for ["k"], expiring at 100. *)
Definition logged_world : World :=
  with_ttl (with_data empty_world O "k:swl" (VDeque [1; 2]%Q)) O "k:swl" 100.

(** A store holding the counter 1 under ["c"], expiring at 60. *)
Definition counter_world : World :=
  with_ttl (with_data empty_world O "c" (VInt 1)) O "c" 60.

(** A fixed-window limiter of limit 1, and the heap after its first check
    of ["k"] at t = 0. *)
Definition strict_limiter : RateLimiter.t :=
  RateLimiter.mk 1 60 false "rl" O FIXED_WINDOW.

Definition spent_world : World :=
  snd (call (at_time 0) (RateLimiter.check strict_limiter "k") empty_world).

(** *** Strings and invariants *)

(** The last character of a string (NUL for the empty string). *)
Fixpoint last_char (s : string) : ascii :=
  match s with
  | EmptyString => Ascii.zero
  | String a r => match r with EmptyString => a | _ => last_char r end
  end.

(** ['0'] to ['9']. *)
Definition is_digit (a : ascii) : bool :=
  (48 <=? N_of_ascii a)%N && (N_of_ascii a <=? 57)%N.

(** [suf] ends [s]. *)
Fixpoint has_suffix (suf s : string) : bool :=
  if String.eqb s suf then true
  else match s with
       | EmptyString => false
       | String _ r => has_suffix suf r
       end.

(** [m] maintains [P], whatever the clock and whether it returns or
    raises. *)
Definition preserves {A} (P : World -> Prop) (m : M A) : Prop :=
  forall c n w, P w -> P (snd (snd (m c (n, w)))).
(* ------------------------------------------------------------------ *)
(** ** Further notions: frames, namespacing, guarded calls *)
(* ------------------------------------------------------------------ *)

(** [w'] agrees with [w] on every slot outside [keys]. *)
Definition same_outside (keys : nat -> string -> Prop) (w w' : World) : Prop :=
  forall ref k, ~ keys ref k ->
    data_at w' ref k = data_at w ref k /\ ttl_at w' ref k = ttl_at w ref k.

(** [m] may change the slot [k] of the store [self], and no other slot of
    any store, whether it returns or raises. *)
Definition touches_only {A} (self : nat) (k : string) (m : M A) : Prop :=
  forall c w, same_outside (fun ref k' => ref = self /\ k' = k) w (snd (call c m w)).

(** [P] survives every update of the slot [k] of the store [ref]. *)
Definition slot_closed (P : World -> Prop) (ref : nat) (k : string) : Prop :=
  (forall w v, P w -> P (with_data w ref k v)) /\
  (forall w e, P w -> P (with_ttl w ref k e)) /\
  (forall w, P w -> P (evicted w ref k)).

(** No [':'] occurs in the string. *)
Fixpoint no_colon (s : string) : bool :=
  match s with
  | EmptyString => true
  | String a r => negb (Ascii.eqb a ":") && no_colon r
  end.

(** The slots of the store in which a strategy keeps its state for the
    namespaced key [K]. *)
Definition own_slot (st : StrategyType) (K k : string) : Prop :=
  match st with
  | FIXED_WINDOW => exists slot : Z, k = K +:+ ":fw:" +:+ pretty slot
  | SLIDING_WINDOW_LOG => k = K +:+ ":swl"
  | TOKEN_BUCKET => k = K +:+ ":tb"
  | LEAKY_BUCKET => k = K +:+ ":lb"
  end.

(** [P] survives a record reaching the log sink. *)
Definition log_closed (P : World -> Prop) : Prop :=
  forall w r, P w -> P (logged w r).

(** The state the limiter [rl] keeps for [key] is the same in [w] and
    [w']: every slot of its strategy under the namespaced key holds the
    same value and the same expiry instant. *)
Definition same_state (rl : RateLimiter.t) (key : string) (w w' : World) : Prop :=
  forall k, own_slot (RateLimiter._strategy rl) (RateLimiter._build_key rl key) k ->
    data_at w' (RateLimiter._store rl) k = data_at w (RateLimiter._store rl) k /\
    ttl_at w' (RateLimiter._store rl) k = ttl_at w (RateLimiter._store rl) k.




(** The wall clock does not run backwards from one call to the next. *)
Definition wall_ordered (clocks : list Clock) : Prop :=
  StronglySorted (fun c1 c2 => (time_time c1 0 <= time_time c2 0)%Q) clocks.

(** A log as the sliding window keeps it: ascending, at most [lim]
    entries, none later than [now]. *)
Definition log_ok (lim : Z) (now : Q) (log : list Q) : Prop :=
  StronglySorted Qle log /\ Z.of_nat (List.length log) <= lim /\
  Forall (fun t => (t <= now)%Q) log.

(** Two heaps hold the same values and expiry instants in the slots
    [keys] of the store [ref]. *)
Definition agree_on (ref : nat) (keys : string -> Prop) (w1 w2 : World) : Prop :=
  forall k, keys k ->
    data_at w1 ref k = data_at w2 ref k /\ ttl_at w1 ref k = ttl_at w2 ref k.

(** [m] looks at nothing but the slots [keys] of the store [ref]: run from
    two heaps that agree on them, it gives the same outcome after the same
    number of clock reads, and leaves heaps that agree on them. *)
Definition determined_by {A} (ref : nat) (keys : string -> Prop) (m : M A) : Prop :=
  forall c n w1 w2, agree_on ref keys w1 w2 ->
    fst (m c (n, w1)) = fst (m c (n, w2)) /\
    fst (snd (m c (n, w1))) = fst (snd (m c (n, w2))) /\
    agree_on ref keys (snd (snd (m c (n, w1)))) (snd (snd (m c (n, w2)))).


(* ------------------------------------------------------------------ *)
(** ** Further notions: outcomes, loaded logs, served slots *)
(* ------------------------------------------------------------------ *)

(** [m] raises nothing but exceptions that satisfy [P]. *)
Definition raises_only {A} (P : Exn -> Prop) (m : M A) : Prop :=
  forall c s e s', m c s = (Raise e, s') -> P e.

(** Whatever [m] returns satisfies [P]. *)
Definition returns_only {A} (P : A -> Prop) (m : M A) : Prop :=
  forall c s a s', m c s = (Ok a, s') -> P a.

(** The exceptions that the arithmetic and the store operations of a
    strategy raise. *)
Definition strategy_error (e : Exn) : Prop :=
  match e with
  | ZeroDivisionError | TypeError | AttributeError | IndexError => True
  | ValueError | RateLimitExceeded _ _ _ _ => False
  end.

(** What every result of strategy [st] for the namespaced key [K] and the
    limit [lim] looks like. *)
Definition result_shape (st : StrategyType) (K : string) (lim : Z)
    (r : RateLimitResult) : Prop :=
  key r = K /\ limit r = lim /\ strategy r = Strategy.name st /\
  (allowed r = true -> retry_after r = 0%Q) /\
  (allowed r = false ->
   remaining r <= 0 /\ (st <> TOKEN_BUCKET -> remaining r = 0)).







(** The monotonic clock shows one reading for the whole call. *)
Definition stands_still (c : Clock) : Prop :=
  forall i, (time_monotonic c i == time_monotonic c 0)%Q.

(** *** Further inputs of the examples *)

(** A store holding the counter 0 under ["c"], expiring at 60. *)
Definition zero_world : World :=
  with_ttl (with_data empty_world O "c" (VInt 0)) O "c" 60.


(** Seven calls, two seconds apart. *)
Definition spaced_clocks : list Clock :=
  [at_time 0; at_time 2; at_time 4; at_time 6; at_time 8; at_time 10; at_time 12].

(** The monotonic clock reads 0 when the call starts and 1/64 s from the
    second read on: the call was held up for some 16 ms in between. *)
Definition stalled_clock : Clock :=
  {| time_time := fun _ => 0%Q;
     time_monotonic := fun n => match n with O => 0%Q | S _ => (1 # 64)%Q end |}.



(* ================================================================== *)
(** * Properties *)
(* ================================================================== *)

(** ** Running the store operations *)
Lemma Qlt_bool_true a b : Qlt_bool a b = true <-> (a < b)%Q.
Proof.
  unfold Qlt_bool. rewrite negb_true_iff.
  split; intros H.
  - apply Qnot_le_lt. intros Hle. apply Qle_bool_iff in Hle. congruence.
  - destruct (Qle_bool b a) eqn:E; [|reflexivity].
    apply Qle_bool_iff in E. exfalso. apply (Qlt_not_le _ _ H E).
Qed.

Lemma Qlt_bool_false a b : Qlt_bool a b = false <-> (b <= a)%Q.
Proof.
  unfold Qlt_bool. rewrite negb_false_iff. apply Qle_bool_iff.
Qed.

Lemma store_of_with_store w ref s : store_of (with_store w ref s) ref = s.
Proof. unfold store_of, with_store; simpl. by rewrite lookup_insert_eq. Qed.

Lemma store_of_with_store_ne w ref ref' s :
  ref <> ref' -> store_of (with_store w ref s) ref' = store_of w ref'.
Proof. intros H. unfold store_of, with_store; simpl. by rewrite lookup_insert_ne. Qed.

Lemma is_expired_run self k c n w :
  InMemoryStore._is_expired self k c (n, w) =
    match ttl_at w self k with
    | None => (Ok false, (n, w))
    | Some e => (Ok (Qlt_bool e (time_monotonic c n)), (S n, w))
    end.
Proof.
  unfold InMemoryStore._is_expired, bind, read_store, ttl_at. simpl.
  destruct (_ttl (store_of w self) !! k); reflexivity.
Qed.

Lemma evict_run self k c n w :
  InMemoryStore._evict self k c (n, w) = (Ok tt, (n, evicted w self k)).
Proof. reflexivity. Qed.

Lemma set_run self k v ttl c n w :
  InMemoryStore.set self k v ttl c (n, w) =
    match ttl with
    | None => (Ok tt, (n, with_data w self k v))
    | Some t => (Ok tt, (S n, with_ttl (with_data w self k v) self k
                                 (time_monotonic c n + t)%Q))
    end.
Proof. destruct ttl; reflexivity. Qed.

Lemma get_run self k c n w :
  InMemoryStore.get self k c (n, w) =
    match ttl_at w self k with
    | None => (Ok (data_at w self k), (n, w))
    | Some e =>
        if Qlt_bool e (time_monotonic c n)
        then (Ok None, (S n, evicted w self k))
        else (Ok (data_at w self k), (S n, w))
    end.
Proof.
  unfold InMemoryStore.get, bind. rewrite is_expired_run.
  destruct (ttl_at w self k); [|reflexivity].
  destruct (Qlt_bool _ _); reflexivity.
Qed.

Lemma data_at_evicted w ref k ref' k' :
  data_at (evicted w ref k) ref' k' =
    if decide (ref = ref' /\ k = k') then None else data_at w ref' k'.
Proof.
  unfold data_at, evicted.
  destruct (decide (ref = ref')) as [<-|Hr].
  - rewrite store_of_with_store. simpl.
    destruct (decide (k = k')) as [<-|Hk].
    + rewrite lookup_delete_eq. by rewrite decide_True.
    + rewrite lookup_delete_ne by done. rewrite decide_False; [done|tauto].
  - rewrite store_of_with_store_ne by done. rewrite decide_False; [done|tauto].
Qed.

Lemma ttl_at_evicted w ref k ref' k' :
  ttl_at (evicted w ref k) ref' k' =
    if decide (ref = ref' /\ k = k') then None else ttl_at w ref' k'.
Proof.
  unfold ttl_at, evicted.
  destruct (decide (ref = ref')) as [<-|Hr].
  - rewrite store_of_with_store. simpl.
    destruct (decide (k = k')) as [<-|Hk].
    + rewrite lookup_delete_eq. by rewrite decide_True.
    + rewrite lookup_delete_ne by done. rewrite decide_False; [done|tauto].
  - rewrite store_of_with_store_ne by done. rewrite decide_False; [done|tauto].
Qed.

Lemma data_at_with_data w ref k v ref' k' :
  data_at (with_data w ref k v) ref' k' =
    if decide (ref = ref' /\ k = k') then Some v else data_at w ref' k'.
Proof.
  unfold data_at, with_data.
  destruct (decide (ref = ref')) as [<-|Hr].
  - rewrite store_of_with_store. simpl.
    destruct (decide (k = k')) as [<-|Hk].
    + rewrite lookup_insert_eq. by rewrite decide_True.
    + rewrite lookup_insert_ne by done. rewrite decide_False; [done|tauto].
  - rewrite store_of_with_store_ne by done. rewrite decide_False; [done|tauto].
Qed.

Lemma ttl_at_with_data w ref k v ref' k' :
  ttl_at (with_data w ref k v) ref' k' = ttl_at w ref' k'.
Proof.
  unfold ttl_at, with_data.
  destruct (decide (ref = ref')) as [<-|Hr].
  - by rewrite store_of_with_store.
  - by rewrite store_of_with_store_ne.
Qed.

Lemma data_at_with_ttl w ref k e ref' k' :
  data_at (with_ttl w ref k e) ref' k' = data_at w ref' k'.
Proof.
  unfold data_at, with_ttl.
  destruct (decide (ref = ref')) as [<-|Hr].
  - by rewrite store_of_with_store.
  - by rewrite store_of_with_store_ne.
Qed.

Lemma ttl_at_with_ttl w ref k e ref' k' :
  ttl_at (with_ttl w ref k e) ref' k' =
    if decide (ref = ref' /\ k = k') then Some e else ttl_at w ref' k'.
Proof.
  unfold ttl_at, with_ttl.
  destruct (decide (ref = ref')) as [<-|Hr].
  - rewrite store_of_with_store. simpl.
    destruct (decide (k = k')) as [<-|Hk].
    + rewrite lookup_insert_eq. by rewrite decide_True.
    + rewrite lookup_insert_ne by done. rewrite decide_False; [done|tauto].
  - rewrite store_of_with_store_ne by done. rewrite decide_False; [done|tauto].
Qed.

Lemma get_settle self k c n w :
  InMemoryStore.get self k c (n, w) =
    (Ok (data_at (snd (settle w self k c n)) self k), settle w self k c n).
Proof.
  rewrite get_run. unfold settle.
  destruct (ttl_at w self k); [|reflexivity].
  destruct (Qlt_bool _ _); [|reflexivity].
  simpl. rewrite data_at_evicted. by rewrite decide_True.
Qed.

Lemma incr_run self k ttl c n w :
  InMemoryStore.incr self k ttl c (n, w) =
    let '(n1, w1) := settle w self k c n in
    match data_at w1 self k with
    | None =>
        InMemoryStore.set self k (VInt 1) ttl ;;; ret 1
    | Some (VInt v) =>
        InMemoryStore.set self k (VInt (v + 1)) (if v + 1 =? 1 then ttl else None) ;;; ret (v + 1)
    | Some _ => raise TypeError
    end c (n1, w1).
Proof.
  unfold InMemoryStore.incr, bind at 1 2. rewrite is_expired_run. unfold settle.
  destruct (ttl_at w self k) as [e|].
  - destruct (Qlt_bool e _); simpl.
    + unfold bind at 1. simpl. unfold data_at.
      destruct (_ !! k) as [[]|]; reflexivity.
    + unfold bind at 1. simpl. unfold data_at.
      destruct (_ !! k) as [[]|]; reflexivity.
  - unfold bind at 1. simpl. unfold data_at.
    destruct (_ !! k) as [[]|]; reflexivity.
Qed.

Lemma py_div_run a b c s :
  ~ (b == 0)%Q -> py_div a b c s = (Ok (a / b)%Q, s).
Proof.
  intros Hb. unfold py_div.
  destruct (Qeq_bool b 0) eqn:E; [|reflexivity].
  apply Qeq_bool_iff in E. contradiction.
Qed.

Lemma py_div_zero a b c s :
  (b == 0)%Q -> py_div a b c s = (Raise ZeroDivisionError, s).
Proof.
  intros Hb. unfold py_div.
  apply Qeq_bool_iff in Hb. by rewrite Hb.
Qed.

Lemma fw_key_inj key (a b : Z) :
  key +:+ ":fw:" +:+ pretty a = key +:+ ":fw:" +:+ pretty b -> a = b.
Proof.
  intros H. apply String.app_inj in H. apply String.app_inj in H.
  by apply pretty_Z_inj in H.
Qed.

Lemma fw_check_run store key limit window c n w :
  ~ (window == 0)%Q ->
  FixedWindow.check store key limit window c (n, w) =
    let now := time_time c n in
    let slot := py_int (now / window) in
    match InMemoryStore.incr store (key +:+ ":fw:" +:+ pretty slot) (Some window) c (S n, w) with
    | (Ok count, s') =>
        (Ok (mkResult (count <=? limit) key (Z.max 0 (limit - count)) limit
               (inject_Z (slot + 1) * window)%Q
               (if count <=? limit then 0%Q
                else (inject_Z (slot + 1) * window - now)%Q)
               FixedWindow.name), s')
    | (Raise e, s') => (Raise e, s')
    end.
Proof.
  intros Hw. unfold FixedWindow.check, bind at 1. simpl.
  unfold bind at 1. rewrite py_div_run by done.
  unfold bind at 1.
  destruct (InMemoryStore.incr _ _ _ c (S n, w)) as [[count|e] s']; reflexivity.
Qed.

Lemma data_at_alloc w k c n w' ref :
  alloc_store c (n, w) = (Ok ref, (n, w')) -> data_at w' ref k = None.
Proof.
  unfold alloc_store. intros [= <- <-].
  unfold data_at, store_of. simpl. by rewrite lookup_insert_eq.
Qed.

Lemma ttl_at_alloc w k c n w' ref :
  alloc_store c (n, w) = (Ok ref, (n, w')) -> ttl_at w' ref k = None.
Proof.
  unfold alloc_store. intros [= <- <-].
  unfold ttl_at, store_of. simpl. by rewrite lookup_insert_eq.
Qed.

Lemma data_at_logged w r ref k : data_at (logged w r) ref k = data_at w ref k.
Proof. reflexivity. Qed.

Lemma ttl_at_logged w r ref k : ttl_at (logged w r) ref k = ttl_at w ref k.
Proof. reflexivity. Qed.

Lemma incr_fresh self k t c n w :
  data_at w self k = None -> ttl_at w self k = None ->
  InMemoryStore.incr self k (Some t) c (n, w) =
    (Ok 1, (S n, with_ttl (with_data w self k (VInt 1)) self k
                   (time_monotonic c n + t)%Q)).
Proof.
  intros Hd Ht. rewrite incr_run. unfold settle. by rewrite Ht, Hd.
Qed.

Lemma incr_live self k ttl c n w v e :
  data_at w self k = Some (VInt v) -> v <> 0 ->
  ttl_at w self k = Some e -> (time_monotonic c n <= e)%Q ->
  InMemoryStore.incr self k ttl c (n, w) =
    (Ok (v + 1), (S n, with_data w self k (VInt (v + 1)))).
Proof.
  intros Hd Hv Ht Hle. rewrite incr_run. unfold settle.
  apply Qlt_bool_false in Hle. rewrite Ht, Hle, Hd.
  assert (Hne : (v + 1 =? 1) = false) by (apply Z.eqb_neq; lia).
  by rewrite Hne.
Qed.

Ltac slot_simpl :=
  repeat first
    [ rewrite data_at_with_ttl | rewrite data_at_with_data | rewrite data_at_evicted
    | rewrite ttl_at_with_ttl | rewrite ttl_at_with_data | rewrite ttl_at_evicted
    | rewrite data_at_logged | rewrite ttl_at_logged
    | rewrite decide_True by (split; reflexivity) ].


Lemma tb_check_run store key limit window c n w :
  ~ (window == 0)%Q -> ~ (inject_Z limit / window == 0)%Q ->
  let sk := key +:+ ":tb" in
  let now := time_monotonic c n in
  let rate := (inject_Z limit / window)%Q in
  let '(n1, w1) := settle w store sk c (S n) in
  bucket_slot (data_at w1 store sk) ->
  let '(s, n2) := match as_bucket (data_at w1 store sk) with
                  | Some s => (s, n1)
                  | None => (mkBucket (py_float limit) (time_monotonic c n1), S n1)
                  end in
  let s' := tb_next limit rate now s in
  TokenBucket.check store key limit window c (n, w) =
    (Ok (mkResult (tb_allowed limit rate now s) key (py_int (tokens s')) limit
           (time_time c (S n2) + (inject_Z limit - tokens s') / rate)%Q
           (if tb_allowed limit rate now s then 0%Q else ((1 - tokens s') / rate)%Q)
           TokenBucket.name),
     (S (S n2), with_ttl (with_data w1 store sk (VBucket s')) store sk
                  (time_monotonic c n2 + window * 2)%Q)).
Proof.
  intros Hw Hr sk now rate.
  destruct (settle w store sk c (S n)) as [n1 w1] eqn:Es.
  intros Hslot.
  unfold TokenBucket.check, bind at 1. simpl.
  unfold bind at 1. rewrite py_div_run by done.
  unfold bind at 1. rewrite get_settle. fold sk. rewrite Es. simpl snd.
  unfold bucket_slot, as_bucket in *.
  destruct (data_at w1 store sk) as [[z|l|s|s]|] eqn:Ed;
    try (rewrite Hslot); unfold bind at 1; simpl;
    unfold bind at 1 2; rewrite set_run; simpl;
    unfold tb_allowed, tb_next, tb_allowed, tb_refill; fold rate; fold now; simpl;
    destruct (Qle_bool 1 _) eqn:Ea; simpl;
    unfold bind; simpl; repeat (rewrite py_div_run by done; simpl); reflexivity.
Qed.

Lemma lb_check_run store key limit window c n w :
  ~ (window == 0)%Q -> ~ (inject_Z limit / window == 0)%Q ->
  let sk := key +:+ ":lb" in
  let now := time_monotonic c n in
  let rate := (inject_Z limit / window)%Q in
  let '(n1, w1) := settle w store sk c (S n) in
  leaky_slot (data_at w1 store sk) ->
  let '(s, n2) := match as_leaky (data_at w1 store sk) with
                  | Some s => (s, n1)
                  | None => (mkLeaky 0 (time_monotonic c n1), S n1)
                  end in
  let s' := lb_next limit rate now s in
  LeakyBucket.check store key limit window c (n, w) =
    (Ok (mkResult (lb_allowed limit rate now s) key
           (Z.max 0 (limit - queue_size s')) limit
           (time_time c (S n2) + inject_Z (queue_size s') / rate)%Q
           (if lb_allowed limit rate now s then 0%Q else (1 / rate)%Q)
           LeakyBucket.name),
     (S (S n2), with_ttl (with_data w1 store sk (VLeaky s')) store sk
                  (time_monotonic c n2 + window * 2)%Q)).
Proof.
  intros Hw Hr sk now rate.
  destruct (settle w store sk c (S n)) as [n1 w1] eqn:Es.
  intros Hslot.
  unfold LeakyBucket.check, bind at 1. simpl.
  unfold bind at 1. rewrite py_div_run by done.
  unfold bind at 1. rewrite get_settle. fold sk. rewrite Es. simpl snd.
  unfold leaky_slot, as_leaky in *.
  destruct (data_at w1 store sk) as [[z|l|s|s]|] eqn:Ed;
    try (rewrite Hslot); unfold bind at 1; simpl;
    unfold bind at 1 2; rewrite set_run; simpl;
    unfold lb_allowed, lb_next, lb_allowed, lb_drained, lb_leaked;
    fold rate; fold now; simpl;
    destruct (_ <? limit) eqn:Ea; simpl;
    unfold bind; simpl; repeat (rewrite py_div_run by done; simpl); reflexivity.
Qed.

Lemma swl_check_run store key limit window c n w :
  let sk := key +:+ ":swl" in
  let now := time_time c n in
  let '(n1, w1) := settle w store sk c (S n) in
  deque_slot (data_at w1 store sk) ->
  let log := as_log (data_at w1 store sk) in
  let log' := swl_next limit window now log in
  let w2 := with_ttl (with_data w1 store sk (VDeque log')) store sk
              (time_monotonic c n1 + window)%Q in
  SlidingWindowLog.check store key limit window c (n, w) =
    if swl_allowed limit window now log
    then (Ok (mkResult true key (Z.max 0 (limit - Z.of_nat (List.length log'))) limit
                (now + window)%Q 0%Q SlidingWindowLog.name), (S n1, w2))
    else match log' with
         | [] => (Raise IndexError, (S n1, w2))
         | t0 :: _ =>
             (Ok (mkResult false key (Z.max 0 (limit - Z.of_nat (List.length log'))) limit
                    (now + window)%Q (t0 + window - now)%Q SlidingWindowLog.name),
              (S n1, w2))
         end.
Proof.
  intros sk now.
  destruct (settle w store sk c (S n)) as [n1 w1] eqn:Es.
  intros Hslot log log' w2.
  unfold SlidingWindowLog.check, bind at 1. simpl.
  unfold bind at 1. rewrite get_settle. fold sk. rewrite Es. simpl snd.
  unfold deque_slot in Hslot. subst log' w2 log.
  unfold swl_next, swl_allowed, as_log. fold now.
  destruct (data_at w1 store sk) as [[z|l|s|s]|] eqn:Ed;
    try (rewrite Hslot); try discriminate Hslot; unfold bind at 1; simpl;
    unfold bind at 1 2; rewrite set_run; simpl.
  all: destruct (_ <? limit) eqn:Ea; simpl; try reflexivity.
  all: match goal with |- context [SlidingWindowLog.trim ?a ?b] =>
         destruct (SlidingWindowLog.trim a b) end; reflexivity.
Qed.

Lemma settle_data w ref k c n :
  data_at (snd (settle w ref k c n)) ref k = None \/
  snd (settle w ref k c n) = w.
Proof.
  unfold settle. destruct (ttl_at w ref k); [|by right].
  destruct (Qlt_bool _ _); [left|by right].
  simpl. rewrite data_at_evicted. by rewrite decide_True.
Qed.


Lemma rate_nonzero (limit : Z) (window : Q) :
  0 < limit -> (0 < window)%Q -> ~ (inject_Z limit / window == 0)%Q.
Proof.
  intros Hl Hw H.
  assert (0 < inject_Z limit)%Q by (unfold Qlt; simpl; lia).
  assert (0 < inject_Z limit / window)%Q.
  { apply Qlt_shift_div_l; [exact Hw|]. lra. }
  lra.
Qed.

Lemma window_nonzero (window : Q) : (0 < window)%Q -> ~ (window == 0)%Q.
Proof. intros H E. lra. Qed.

Lemma rl_check_run self key c n w :
  RateLimiter.check self key c (n, w) =
    match Strategy.check (RateLimiter._strategy self) (RateLimiter._store self)
            (RateLimiter._build_key self key) (RateLimiter.limit self)
            (RateLimiter.window self) c (n, w) with
    | (Ok r, (n', w')) =>
        (Ok r, (n', if allowed r then w'
                    else logged w' (mkLog key (strategy r) (retry_after r))))
    | (Raise e, s') => (Raise e, s')
    end.
Proof.
  unfold RateLimiter.check, bind.
  destruct (Strategy.check _ _ _ _ _ c (n, w)) as [[r|e] [n' w']]; [|reflexivity].
  destruct (allowed r); reflexivity.
Qed.

Lemma rl_enforce_run self key c s :
  RateLimiter.enforce self key c s =
    match RateLimiter.check self key c s with
    | (Ok r, s') =>
        (if allowed r then Ok r
         else Raise (RateLimitExceeded key (retry_after r) (RateLimiter.limit self)
                       (strategy r)), s')
    | (Raise e, s') => (Raise e, s')
    end.
Proof.
  unfold RateLimiter.enforce, bind.
  destruct (RateLimiter.check self key c s) as [[r|e] s']; [|reflexivity].
  destruct (allowed r); reflexivity.
Qed.



Lemma init_run limit window strategy store key_prefix raise_on_limit c n w :
  RateLimiter.__init__ limit window strategy store key_prefix raise_on_limit c (n, w) =
    match store with
    | Some ref =>
        (Ok (RateLimiter.mk limit window raise_on_limit key_prefix ref strategy), (n, w))
    | None =>
        (Ok (RateLimiter.mk limit window raise_on_limit key_prefix (next_ref w) strategy),
         (n, {| stores := <[next_ref w := empty_store]> (stores w);
                next_ref := S (next_ref w);
                warnings := warnings w |}))
    end.
Proof. destruct store; reflexivity. Qed.

Lemma check_window_zero rl key c n w :
  (RateLimiter.window rl == 0)%Q ->
  RateLimiter._strategy rl <> SLIDING_WINDOW_LOG ->
  RateLimiter.check rl key c (n, w) = (Raise ZeroDivisionError, (S n, w)).
Proof.
  intros Hw Hs. rewrite rl_check_run.
  destruct (RateLimiter._strategy rl); try contradiction; simpl.
  - unfold FixedWindow.check, bind. simpl. by rewrite py_div_zero.
  - unfold TokenBucket.check, bind. simpl. by rewrite py_div_zero.
  - unfold LeakyBucket.check, bind. simpl. by rewrite py_div_zero.
Qed.


(** ** Sliding window log *)

Lemma settle_live w ref k c n :
  live_at w ref k (time_monotonic c n) -> snd (settle w ref k c n) = w.
Proof.
  unfold live_at, settle. destruct (ttl_at w ref k) as [e|]; [|done].
  intros Hle. apply Qlt_bool_false in Hle. by rewrite Hle.
Qed.

Lemma settle_cases w ref k c n :
  (snd (settle w ref k c n) = w) \/
  (snd (settle w ref k c n) = evicted w ref k /\
   expired_at w ref k (time_monotonic c n)).
Proof.
  unfold settle, expired_at. destruct (ttl_at w ref k) as [e|]; [|by left].
  destruct (Qlt_bool e _) eqn:E; [|by left].
  right. split; [done|]. exists e. split; [done|]. by apply Qlt_bool_true.
Qed.




Lemma swl_denied_nonempty limit window now log :
  0 < limit -> swl_allowed limit window now log = false ->
  exists t0 rest, swl_next limit window now log = t0 :: rest /\
                  SlidingWindowLog.trim (now - window)%Q log = t0 :: rest.
Proof.
  intros Hl Ha. unfold swl_next. rewrite Ha.
  unfold swl_allowed in Ha. apply Z.ltb_ge in Ha.
  destruct (SlidingWindowLog.trim _ _) as [|t0 rest]; [simpl in Ha; lia|eauto].
Qed.


(** The outcome of a check when the slot is absent or has expired: the
    log starts empty and the request is admitted. *)
Lemma swl_check_on_empty store key limit window c n w :
  0 < limit ->
  data_at (snd (settle w store (key +:+ ":swl") c (S n))) store (key +:+ ":swl") = None ->
  exists r s',
    SlidingWindowLog.check store key limit window c (n, w) = (Ok r, s') /\
    allowed r = true /\ remaining r = limit - 1.
Proof.
  intros Hl Hd.
  pose proof (swl_check_run store key limit window c n w) as Hrun. cbv zeta in Hrun.
  destruct (settle w store (key +:+ ":swl") c (S n)) as [n1 w1].
  simpl in Hd. rewrite Hd in Hrun. simpl as_log in Hrun. specialize (Hrun I).
  assert (Ha : swl_allowed limit window (time_time c n) [] = true).
  { unfold swl_allowed. simpl. apply Z.ltb_lt. lia. }
  rewrite Ha in Hrun. unfold swl_next in Hrun. rewrite Ha in Hrun. simpl in Hrun.
  eexists _, _. split; [exact Hrun|]. simpl. split; [done|lia].
Qed.


(** ** Bucket arithmetic *)

Lemma py_min_le_l a b : (py_min a b <= a)%Q.
Proof.
  unfold py_min. destruct (Qlt_bool b a) eqn:E; [|lra].
  apply Qlt_bool_true in E. lra.
Qed.


Lemma py_min_glb a b x : (x <= a)%Q -> (x <= b)%Q -> (x <= py_min a b)%Q.
Proof. intros. unfold py_min. destruct (Qlt_bool b a); assumption. Qed.

Lemma inject_Z_pos (z : Z) : 0 < z -> (0 < inject_Z z)%Q.
Proof. intros. unfold Qlt. simpl. lia. Qed.

Lemma inject_Z_nonneg (z : Z) : 0 <= z -> (0 <= inject_Z z)%Q.
Proof. intros. unfold Qle. simpl. lia. Qed.

Lemma rate_pos (limit : Z) (window : Q) :
  0 < limit -> (0 < window)%Q -> (0 < inject_Z limit / window)%Q.
Proof.
  intros Hl Hw. pose proof (inject_Z_pos _ Hl).
  apply Qlt_shift_div_l; [exact Hw|]. lra.
Qed.

Lemma rate_window (limit : Z) (window : Q) :
  (0 < window)%Q -> (inject_Z limit / window * window == inject_Z limit)%Q.
Proof. intros Hw. field. lra. Qed.

(** [int(x)] never moves away from zero and stays within one of [x]. *)
Lemma py_int_nonneg x : (0 <= x)%Q -> 0 <= py_int x.
Proof.
  intros Hx. unfold py_int. apply Z.quot_pos; [|lia].
  unfold Qle in Hx. simpl in Hx. lia.
Qed.

Lemma py_int_le x : (0 <= x)%Q -> (inject_Z (py_int x) <= x)%Q.
Proof.
  intros Hx. unfold py_int, Qle in *. simpl in *.
  assert (0 <= Qnum x) by lia.
  rewrite Z.quot_div_nonneg by lia.
  pose proof (Z.mul_div_le (Qnum x) (Z.pos (Qden x)) ltac:(lia)). lia.
Qed.

Lemma py_int_lt_succ x : (x < inject_Z (py_int x + 1))%Q.
Proof.
  unfold py_int, Qlt. simpl.
  pose proof (Z.quot_rem' (Qnum x) (Z.pos (Qden x))) as Hqr.
  pose proof (Z.rem_bound_pos_neg (Qnum x) (Z.pos (Qden x))) as Hneg.
  pose proof (Z.rem_bound_pos_pos (Qnum x) (Z.pos (Qden x))) as Hpos.
  destruct (Z_lt_le_dec (Qnum x) 0).
  - assert (Z.rem (Qnum x) (Z.pos (Qden x)) <= 0) by (apply Z.rem_nonpos; lia). nia.
  - assert (0 <= Z.rem (Qnum x) (Z.pos (Qden x)) < Z.pos (Qden x))
      by (apply Z.rem_bound_pos; lia). nia.
Qed.

Lemma py_int_ge (L : Z) x : 0 <= L -> (- inject_Z L <= x)%Q -> - L <= py_int x.
Proof.
  intros HL Hx. unfold py_int.
  destruct (Z_lt_le_dec (Qnum x) 0) as [Hneg|Hnn].
  - unfold Qle in Hx. simpl in Hx.
    assert (Hq : - L * Z.pos (Qden x) <= Qnum x) by lia.
    pose proof (Z.quot_le_mono _ _ (Z.pos (Qden x)) ltac:(lia) Hq) as Hm.
    rewrite Z.quot_mul in Hm by lia. exact Hm.
  - pose proof (Z.quot_pos (Qnum x) (Z.pos (Qden x)) Hnn ltac:(lia)). lia.
Qed.

(** *** Token bucket *)

Lemma tb_next_bounds limit rate now s :
  0 < limit ->
  (0 <= tokens s + (now - last_refill s) * rate)%Q ->
  (0 <= tokens (tb_next limit rate now s))%Q /\
  (tokens (tb_next limit rate now s) <= inject_Z limit)%Q /\
  last_refill (tb_next limit rate now s) = now.
Proof.
  intros Hl Hx. unfold tb_next, tb_allowed. simpl.
  pose proof (inject_Z_pos _ Hl) as HL.
  pose proof (py_min_le_l (py_float limit) (tokens s + (now - last_refill s) * rate)) as Hle.
  assert (Hge : (0 <= tb_refill limit rate now s)%Q).
  { unfold tb_refill. apply py_min_glb; [unfold py_float; lra|exact Hx]. }
  fold (tb_refill limit rate now s) in Hle. unfold py_float in Hle.
  destruct (Qle_bool 1 (tb_refill limit rate now s)) eqn:E; simpl.
  - apply Qle_bool_iff in E. repeat split; lra.
  - repeat split; lra.
Qed.

(** *** Leaky bucket *)

Lemma lb_next_bounds limit rate now s :
  0 < limit ->
  lb_drained rate now s <= limit ->
  0 <= queue_size (lb_next limit rate now s) <= limit /\
  1 <= queue_size (lb_next limit rate now s).
Proof.
  intros Hl Hd. unfold lb_next, lb_allowed. simpl.
  assert (0 <= lb_drained rate now s) by (unfold lb_drained; lia).
  destruct (lb_drained rate now s <? limit) eqn:E.
  - apply Z.ltb_lt in E. lia.
  - apply Z.ltb_ge in E. lia.
Qed.

(** ** One call of a bucket strategy, on the slot *)

Lemma drift_scaled (limit : Z) (window a b : Q) :
  0 < limit -> (0 < window)%Q -> (b - a <= window)%Q ->
  (- inject_Z limit <= (a - b) * (inject_Z limit / window))%Q.
Proof.
  intros Hl Hw Hd.
  pose proof (rate_pos _ _ Hl Hw) as Hr.
  pose proof (rate_window limit window Hw) as Hrw.
  assert (H1 : ((b - a) * (inject_Z limit / window)
                <= window * (inject_Z limit / window))%Q).
  { apply Qmult_le_compat_r; lra. }
  assert (H2 : ((a - b) * (inject_Z limit / window)
                == - ((b - a) * (inject_Z limit / window)))%Q) by ring.
  rewrite H2. rewrite Qmult_comm in Hrw. lra.
Qed.

Lemma elapsed_scaled_nonneg (rate a b : Q) :
  (0 < rate)%Q -> (a <= b)%Q -> (0 <= (b - a) * rate)%Q.
Proof. intros Hr Hab. apply Qmult_le_0_compat; lra. Qed.

(** A [TokenBucket.check] call: the slot was empty, or held a state with
    [tokens >= 0] last refilled no later than this call's readings. *)
Lemma tb_call_inv store key limit window c w :
  0 < limit -> (0 < window)%Q -> drift_within window c ->
  (data_at w store (key +:+ ":tb") = None \/
   exists s, data_at w store (key +:+ ":tb") = Some (VBucket s) /\
             (0 <= tokens s)%Q /\
             forall i, (last_refill s <= time_monotonic c i)%Q) ->
  exists r w' s',
    call c (TokenBucket.check store key limit window) w = (Ok r, w') /\
    data_at w' store (key +:+ ":tb") = Some (VBucket s') /\
    (0 <= tokens s')%Q /\ (tokens s' <= inject_Z limit)%Q /\
    last_refill s' = time_monotonic c 0.
Proof.
  intros Hl Hw Hdrift Hslot.
  pose proof (window_nonzero _ Hw) as Hw0.
  pose proof (rate_nonzero _ _ Hl Hw) as Hr0.
  pose proof (rate_pos _ _ Hl Hw) as Hr.
  pose proof (tb_check_run store key limit window c O w Hw0 Hr0) as Hrun.
  cbv zeta in Hrun.
  assert (Hfresh : forall i,
    (0 <= tokens (mkBucket (py_float limit) (time_monotonic c i))
          + (time_monotonic c 0 - last_refill (mkBucket (py_float limit) (time_monotonic c i)))
            * (inject_Z limit / window))%Q).
  { intros i. simpl. unfold py_float.
    pose proof (drift_scaled limit window (time_monotonic c 0) (time_monotonic c i)
                  Hl Hw (Hdrift _ _)). lra. }
  destruct (settle_cases w store (key +:+ ":tb") c 1) as [Hs | [Hs _]];
    destruct (settle w store (key +:+ ":tb") c 1) as [n1 w1];
    simpl in Hs; subst w1.
  - destruct Hslot as [Hd | (s & Hd & Ht & Hlast)]; rewrite Hd in Hrun;
      simpl in Hrun; specialize (Hrun I).
    + destruct (tb_next_bounds limit (inject_Z limit / window)
                  (time_monotonic c 0) _ Hl (Hfresh n1)) as (H1 & H2 & H3).
      eexists _, _, _. split; [unfold call; rewrite Hrun; reflexivity|].
      split; [by slot_simpl|]. auto.
    + assert (Hx : (0 <= tokens s + (time_monotonic c 0 - last_refill s)
                                    * (inject_Z limit / window))%Q).
      { pose proof (elapsed_scaled_nonneg _ _ _ Hr (Hlast O)). lra. }
      destruct (tb_next_bounds limit (inject_Z limit / window)
                  (time_monotonic c 0) _ Hl Hx) as (H1 & H2 & H3).
      eexists _, _, _. split; [unfold call; rewrite Hrun; reflexivity|].
      split; [by slot_simpl|]. auto.
  - rewrite data_at_evicted, decide_True in Hrun by done.
    simpl in Hrun. specialize (Hrun I).
    destruct (tb_next_bounds limit (inject_Z limit / window)
                (time_monotonic c 0) _ Hl (Hfresh n1)) as (H1 & H2 & H3).
    eexists _, _, _. split; [unfold call; rewrite Hrun; reflexivity|].
    split; [by slot_simpl|]. auto.
Qed.

(** A [LeakyBucket.check] call: the slot was empty, or held a queue of at
    most [limit] last drained no later than this call's readings. *)
Lemma lb_call_inv store key limit window c w :
  0 < limit -> (0 < window)%Q -> drift_within window c ->
  (data_at w store (key +:+ ":lb") = None \/
   exists s, data_at w store (key +:+ ":lb") = Some (VLeaky s) /\
             queue_size s <= limit /\
             forall i, (last_leak s <= time_monotonic c i)%Q) ->
  exists r w' s',
    call c (LeakyBucket.check store key limit window) w = (Ok r, w') /\
    data_at w' store (key +:+ ":lb") = Some (VLeaky s') /\
    1 <= queue_size s' <= limit /\
    ((exists i, last_leak s' = time_monotonic c i) \/
     (exists s, data_at w store (key +:+ ":lb") = Some (VLeaky s) /\
                last_leak s' = last_leak s)).
Proof.
  intros Hl Hw Hdrift Hslot.
  pose proof (window_nonzero _ Hw) as Hw0.
  pose proof (rate_nonzero _ _ Hl Hw) as Hr0.
  pose proof (rate_pos _ _ Hl Hw) as Hr.
  pose proof (lb_check_run store key limit window c O w Hw0 Hr0) as Hrun.
  cbv zeta in Hrun.
  assert (Hfresh : forall i,
    lb_drained (inject_Z limit / window) (time_monotonic c 0)
      (mkLeaky 0 (time_monotonic c i)) <= limit).
  { intros i. unfold lb_drained, lb_leaked. simpl.
    pose proof (py_int_ge limit _ ltac:(lia)
      (drift_scaled limit window (time_monotonic c 0) (time_monotonic c i)
         Hl Hw (Hdrift _ _))). lia. }
  assert (Hlast' : forall s0 : _LeakyState, forall i,
    (exists j, last_leak (lb_next limit (inject_Z limit / window)
                 (time_monotonic c 0) (mkLeaky (queue_size s0) (time_monotonic c i)))
               = time_monotonic c j)).
  { intros s0 i. unfold lb_next. simpl. destruct (_ =? 0); eauto. }
  destruct (settle_cases w store (key +:+ ":lb") c 1) as [Hs | [Hs _]];
    destruct (settle w store (key +:+ ":lb") c 1) as [n1 w1];
    simpl in Hs; subst w1.
  - destruct Hslot as [Hd | (s & Hd & Hq & Hlast)]; rewrite Hd in Hrun;
      simpl in Hrun; specialize (Hrun I).
    + destruct (lb_next_bounds limit (inject_Z limit / window)
                  (time_monotonic c 0) _ Hl (Hfresh n1)) as (H1 & H2).
      eexists _, _, _. split; [unfold call; rewrite Hrun; reflexivity|].
      split; [by slot_simpl|]. split; [lia|].
      left. apply (Hlast' (mkLeaky 0 0%Q) n1).
    + assert (Hx : lb_drained (inject_Z limit / window) (time_monotonic c 0) s <= limit).
      { unfold lb_drained, lb_leaked.
        pose proof (py_int_nonneg _ (elapsed_scaled_nonneg _ _ _ Hr (Hlast O))). lia. }
      destruct (lb_next_bounds limit (inject_Z limit / window)
                  (time_monotonic c 0) _ Hl Hx) as (H1 & H2).
      eexists _, _, _. split; [unfold call; rewrite Hrun; reflexivity|].
      split; [by slot_simpl|]. split; [lia|].
      unfold lb_next. simpl. destruct (_ =? 0); [right; eauto|left; eauto].
  - rewrite data_at_evicted, decide_True in Hrun by done.
    simpl in Hrun. specialize (Hrun I).
    destruct (lb_next_bounds limit (inject_Z limit / window)
                (time_monotonic c 0) _ Hl (Hfresh n1)) as (H1 & H2).
    eexists _, _, _. split; [unfold call; rewrite Hrun; reflexivity|].
    split; [by slot_simpl|]. split; [lia|].
    left. apply (Hlast' (mkLeaky 0 0%Q) n1).
Qed.

(** ** Runs of a bucket strategy on one key *)

Lemma follows_before c rest t :
  Forall (follows c) rest -> (exists i, t = time_monotonic c i) ->
  Forall (fun c' => forall j, (t <= time_monotonic c' j)%Q) rest.
Proof.
  intros Hf [i ->]. eapply Forall_impl; [exact Hf|].
  intros c' Hc' j. apply Hc'.
Qed.

Lemma tb_run_inv store key limit window clocks :
  0 < limit -> (0 < window)%Q ->
  clocks_ordered clocks -> Forall (drift_within window) clocks ->
  forall w,
    (data_at w store (key +:+ ":tb") = None \/
     exists s, data_at w store (key +:+ ":tb") = Some (VBucket s) /\
               (0 <= tokens s)%Q /\ (tokens s <= inject_Z limit)%Q /\
               Forall (fun c => forall i, (last_refill s <= time_monotonic c i)%Q) clocks) ->
    exists rs w',
      run_calls (TokenBucket.check store key limit window) clocks w = (Ok rs, w') /\
      List.length rs = List.length clocks /\
      (data_at w' store (key +:+ ":tb") = None /\ clocks = [] \/
       exists s', data_at w' store (key +:+ ":tb") = Some (VBucket s') /\
                  (0 <= tokens s')%Q /\ (tokens s' <= inject_Z limit)%Q).
Proof.
  intros Hl Hw Hord. induction Hord as [|c rest Hrest IH Hfol]; intros Hdrift w Hslot.
  - exists [], w. split; [done|]. split; [done|].
    destruct Hslot as [Hd | (s & Hd & H0 & H1 & _)]; [left; done|right; eauto].
  - apply Forall_cons in Hdrift. destruct Hdrift as [Hdc Hdrest].
    assert (Hpre : data_at w store (key +:+ ":tb") = None \/
       exists s, data_at w store (key +:+ ":tb") = Some (VBucket s) /\
                 (0 <= tokens s)%Q /\
                 forall i, (last_refill s <= time_monotonic c i)%Q).
    { destruct Hslot as [Hd | (s & Hd & H0 & H1 & Hall)]; [by left|right].
      exists s. apply Forall_cons in Hall. tauto. }
    destruct (tb_call_inv store key limit window c w Hl Hw Hdc Hpre)
      as (r & w1 & s1 & Hcall & Hd1 & H0 & H1 & Hlast).
    destruct (IH Hdrest w1) as (rs & w' & Hrun & Hlen & Hfin).
    { right. exists s1. repeat split; [done..|].
      apply follows_before with c; [exact Hfol|]. eauto. }
    exists (r :: rs), w'. split; [simpl; by rewrite Hcall, Hrun|].
    split; [simpl; by rewrite Hlen|].
    right. destruct Hfin as [[Hd' ->] | Hfin]; [|exact Hfin].
    simpl in Hrun. injection Hrun as _ <-. eauto.
Qed.

Lemma lb_run_inv store key limit window clocks :
  0 < limit -> (0 < window)%Q ->
  clocks_ordered clocks -> Forall (drift_within window) clocks ->
  forall w,
    (data_at w store (key +:+ ":lb") = None \/
     exists s, data_at w store (key +:+ ":lb") = Some (VLeaky s) /\
               0 <= queue_size s <= limit /\
               Forall (fun c => forall i, (last_leak s <= time_monotonic c i)%Q) clocks) ->
    exists rs w',
      run_calls (LeakyBucket.check store key limit window) clocks w = (Ok rs, w') /\
      List.length rs = List.length clocks /\
      (data_at w' store (key +:+ ":lb") = None /\ clocks = [] \/
       exists s', data_at w' store (key +:+ ":lb") = Some (VLeaky s') /\
                  0 <= queue_size s' <= limit).
Proof.
  intros Hl Hw Hord. induction Hord as [|c rest Hrest IH Hfol]; intros Hdrift w Hslot.
  - exists [], w. split; [done|]. split; [done|].
    destruct Hslot as [Hd | (s & Hd & H0 & _)]; [left; done|right; eauto].
  - apply Forall_cons in Hdrift. destruct Hdrift as [Hdc Hdrest].
    assert (Hpre : data_at w store (key +:+ ":lb") = None \/
       exists s, data_at w store (key +:+ ":lb") = Some (VLeaky s) /\
                 queue_size s <= limit /\
                 forall i, (last_leak s <= time_monotonic c i)%Q).
    { destruct Hslot as [Hd | (s & Hd & H0 & Hall)]; [by left|right].
      exists s. apply Forall_cons in Hall. split; [done|]. split; [lia|tauto]. }
    destruct (lb_call_inv store key limit window c w Hl Hw Hdc Hpre)
      as (r & w1 & s1 & Hcall & Hd1 & Hq & Hlast).
    destruct (IH Hdrest w1) as (rs & w' & Hrun & Hlen & Hfin).
    { right. exists s1. split; [done|]. split; [lia|].
      destruct Hlast as [Hi | (s & Hd & ->)].
      - apply follows_before with c; [exact Hfol|exact Hi].
      - destruct Hslot as [Hd0 | (s0 & Hd0 & _ & Hall)]; [congruence|].
        rewrite Hd in Hd0. injection Hd0 as <-.
        apply Forall_cons in Hall. tauto. }
    exists (r :: rs), w'. split; [simpl; by rewrite Hcall, Hrun|].
    split; [simpl; by rewrite Hlen|].
    right. destruct Hfin as [[Hd' ->] | Hfin]; [|exact Hfin].
    simpl in Hrun. injection Hrun as _ <-. exists s1. split; [done|lia].
Qed.

(** With [limit > 0] and [window > 0], on a key with no stored
    state, run any number of checks (at least one) whose monotonic clocks
    never run backwards from one call to the next and move by at most
    [window] while one call runs; however long the pauses between the
    calls, all the checks return, and the state stored after the last one
    satisfies [0 <= tokens <= limit] for the token bucket and
    [0 <= queue_size <= limit] for the leaky bucket.  Every prefix of a run
    is a run, so the bounds hold after every check. *)
Lemma bucket_state_bounds (store : nat) (key : string) (limit : Z)
    (window : Q) (clocks : list Clock) (w : World) :
  0 < limit -> (0 < window)%Q ->
  clocks <> [] ->
  clocks_ordered clocks ->
  Forall (drift_within window) clocks ->
  (data_at w store (key +:+ ":tb") = None ->
   exists rs w' s,
     run_calls (TokenBucket.check store key limit window) clocks w = (Ok rs, w') /\
     data_at w' store (key +:+ ":tb") = Some (VBucket s) /\
     (0 <= tokens s)%Q /\ (tokens s <= inject_Z limit)%Q) /\
  (data_at w store (key +:+ ":lb") = None ->
   exists rs w' s,
     run_calls (LeakyBucket.check store key limit window) clocks w = (Ok rs, w') /\
     data_at w' store (key +:+ ":lb") = Some (VLeaky s) /\
     0 <= queue_size s <= limit).
Proof.
  intros Hl Hw Hne Hord Hdrift. split; intros Hd.
  - destruct (tb_run_inv store key limit window clocks Hl Hw Hord Hdrift w (or_introl Hd))
      as (rs & w' & Hrun & _ & [[_ ?] | (s & Hs)]); [contradiction|].
    exists rs, w', s. tauto.
  - destruct (lb_run_inv store key limit window clocks Hl Hw Hord Hdrift w (or_introl Hd))
      as (rs & w' & Hrun & _ & [[_ ?] | (s & Hs)]); [contradiction|].
    exists rs, w', s. tauto.
Qed.

(** ** Runs of the fixed window on one key *)
















(** ** Runs of the sliding window log on one key *)








(** ** Runs of the token bucket on one key *)

Lemma inject_Z_lt_inv (x y : Z) : (inject_Z x < inject_Z y)%Q -> x < y.
Proof. unfold Qlt. simpl. lia. Qed.

Lemma inject_Z_le (x y : Z) : x <= y -> (inject_Z x <= inject_Z y)%Q.
Proof. unfold Qle. simpl. lia. Qed.





(** ** Runs of the leaky bucket on one key *)





(** ** Tiered enforcement *)

Lemma enforce_loop_cons rl rest key acc c s :
  TieredRateLimiter.enforce_loop (rl :: rest) key acc c s =
    match RateLimiter.enforce rl key c s with
    | (Ok r, s') => TieredRateLimiter.enforce_loop rest key (acc ++ [r]) c s'
    | (Raise e, s') => (Raise e, s')
    end.
Proof. reflexivity. Qed.

Lemma enforce_loop_app ls1 ls2 key : forall acc c s,
  TieredRateLimiter.enforce_loop (ls1 ++ ls2) key acc c s =
    match TieredRateLimiter.enforce_loop ls1 key acc c s with
    | (Ok rs, s1) => TieredRateLimiter.enforce_loop ls2 key rs c s1
    | (Raise e, s1) => (Raise e, s1)
    end.
Proof.
  induction ls1 as [|rl rest IH]; intros acc c s; [reflexivity|].
  rewrite <- List.app_comm_cons, !enforce_loop_cons.
  destruct (RateLimiter.enforce rl key c s) as [[r|e] s']; [|reflexivity].
  apply IH.
Qed.

(** The first denying tier ends [enforce]: the error is that tier's, and
    the state is the one its own check left. *)
Lemma enforce_short_circuit ls1 rl ls2 key c s rs s1 r s2 :
  TieredRateLimiter.enforce_loop ls1 key [] c s = (Ok rs, s1) ->
  RateLimiter.check rl key c s1 = (Ok r, s2) ->
  allowed r = false ->
  TieredRateLimiter.enforce (TieredRateLimiter.mk (ls1 ++ rl :: ls2)) key c s =
    (Raise (RateLimitExceeded key (retry_after r) (RateLimiter.limit rl) (strategy r)),
     s2).
Proof.
  intros H1 Hc Ha. unfold TieredRateLimiter.enforce. simpl.
  rewrite enforce_loop_app, H1, enforce_loop_cons, rl_enforce_run, Hc, Ha.
  reflexivity.
Qed.

(** *** The fixed-window tier, at any point of a call *)

Lemma fw_check_counts store key limit window c n w hi B :
  (0 < window)%Q ->
  (forall i, (time_monotonic c i < hi)%Q /\ (hi <= time_monotonic c i + window)%Q) ->
  (forall slot : Z, exists v,
      0 <= v <= B /\ fw_slot_state w store (key +:+ ":fw:" +:+ pretty slot) hi v) ->
  exists r n' w',
    FixedWindow.check store key limit window c (n, w) = (Ok r, (n', w')) /\
    (B + 1 <= limit -> allowed r = true) /\
    strategy r = FixedWindow.name /\
    (forall slot : Z, exists v,
        0 <= v <= B + 1 /\
        fw_slot_state w' store (key +:+ ":fw:" +:+ pretty slot) hi v) /\
    (forall ref k, ref <> store ->
       data_at w' ref k = data_at w ref k /\ ttl_at w' ref k = ttl_at w ref k).
Proof.
  intros Hw Hspan Hinv.
  pose proof (window_nonzero _ Hw) as Hw0.
  rewrite fw_check_run by exact Hw0. cbv zeta.
  set (sl := py_int (time_time c n / window)).
  set (sk := key +:+ ":fw:" +:+ pretty sl).
  destruct (Hinv sl) as (v & Hv & Hst). fold sk in Hst.
  assert (Hother : forall w' : World,
    (forall k, k <> sk ->
       data_at w' store k = data_at w store k /\ ttl_at w' store k = ttl_at w store k) ->
    forall slot : Z, slot <> sl -> exists v0,
        0 <= v0 <= B + 1 /\
        fw_slot_state w' store (key +:+ ":fw:" +:+ pretty slot) hi v0).
  { intros w' Hframe slot Hne. destruct (Hinv slot) as (v0 & Hv0 & Hst0).
    exists v0. split; [lia|].
    destruct (Hframe (key +:+ ":fw:" +:+ pretty slot)) as [Hfd Hft].
    { intros Heq. apply fw_key_inj in Heq. contradiction. }
    unfold fw_slot_state. rewrite Hfd, Hft. exact Hst0. }
  destruct Hst as [(-> & Hd & Ht) | (Hv1 & Hd & e & Ht & He)].
  - rewrite incr_fresh by assumption.
    eexists _, _, _. split; [reflexivity|]. simpl.
    split; [intros; apply Z.leb_le; lia|]. split; [reflexivity|]. split.
    + intros slot. destruct (decide (slot = sl)) as [->|Hne].
      * exists 1. split; [lia|]. right. fold sk. split; [lia|].
        split; [by slot_simpl|]. eexists. split; [by slot_simpl|]. apply Hspan.
      * apply Hother; [|exact Hne]. intros k Hk. slot_simpl.
        rewrite !decide_False by (intros [_ ?]; congruence). done.
    + intros ref k Hne. slot_simpl.
      rewrite !decide_False by (intros [? _]; congruence). done.
  - rewrite (incr_live _ _ _ _ _ _ v e); [|done|lia|done|].
    2:{ destruct (Hspan (S n)). lra. }
    eexists _, _, _. split; [reflexivity|]. simpl.
    split; [intros; apply Z.leb_le; lia|]. split; [reflexivity|]. split.
    + intros slot. destruct (decide (slot = sl)) as [->|Hne].
      * exists (v + 1). split; [lia|]. right. fold sk. split; [lia|].
        split; [by slot_simpl|]. exists e. split; [by slot_simpl|done].
      * apply Hother; [|exact Hne]. intros k Hk. slot_simpl.
        rewrite !decide_False by (intros [_ ?]; congruence). done.
    + intros ref k Hne. slot_simpl.
      rewrite !decide_False by (intros [? _]; congruence). done.
Qed.

(** *** The token-bucket tier, tracked exactly *)

Lemma py_min_eq_r a x : (x <= a)%Q -> (py_min a x == x)%Q.
Proof.
  intros Hx. unfold py_min. destruct (Qlt_bool x a) eqn:E; [reflexivity|].
  apply Qlt_bool_false in E. lra.
Qed.

Lemma tb_exact limit rate now t0 s (m : Z) :
  (tokens s == inject_Z m + (last_refill s - t0) * rate)%Q ->
  (-1 < (now - t0) * rate)%Q -> ((now - t0) * rate < 1)%Q ->
  0 <= m <= limit ->
  (m = limit -> ((now - t0) * rate <= 0)%Q) ->
  (m = 1 -> (0 <= (now - t0) * rate)%Q) ->
  tb_allowed limit rate now s = (1 <=? m) /\
  (tokens (tb_next limit rate now s)
   == inject_Z (m - (if 1 <=? m then 1 else 0))
      + (last_refill (tb_next limit rate now s) - t0) * rate)%Q.
Proof.
  intros Htok Hlo Hhi Hm Hcap Hone.
  set (d := ((now - t0) * rate)%Q) in *.
  assert (Hx : (tokens s + (now - last_refill s) * rate == inject_Z m + d)%Q).
  { rewrite Htok. unfold d. ring. }
  assert (HmL : (inject_Z m + d <= inject_Z limit)%Q).
  { destruct (decide (m = limit)) as [->|Hne]; [specialize (Hcap eq_refl); lra|].
    assert (Hm1 : m + 1 <= limit) by lia.
    apply inject_Z_le in Hm1. rewrite inject_Z_plus in Hm1.
    change (inject_Z 1) with 1%Q in Hm1. lra. }
  assert (Href : (tb_refill limit rate now s == inject_Z m + d)%Q).
  { unfold tb_refill. rewrite py_min_eq_r; [exact Hx|]. unfold py_float. lra. }
  assert (Hall : tb_allowed limit rate now s = (1 <=? m)).
  { unfold tb_allowed. destruct (1 <=? m) eqn:E.
    - apply Z.leb_le in E. apply Qle_bool_iff. rewrite Href.
      destruct (decide (m = 1)) as [->|Hne].
      + specialize (Hone eq_refl). change (inject_Z 1) with 1%Q. lra.
      + assert (Hm2 : 2 <= m) by lia. apply inject_Z_le in Hm2.
        change (inject_Z 2) with 2%Q in Hm2. lra.
    - apply Z.leb_gt in E. assert (m = 0) by lia. subst m.
      destruct (Qle_bool 1 (tb_refill limit rate now s)) eqn:E2; [|reflexivity].
      apply Qle_bool_iff in E2. rewrite Href in E2.
      change (inject_Z 0) with 0%Q in E2. lra. }
  split; [exact Hall|].
  unfold tb_next. rewrite Hall. simpl. fold d.
  destruct (1 <=? m).
  - rewrite Href. unfold Z.sub. rewrite inject_Z_plus.
    change (inject_Z (- (1))) with (-1)%Q. ring.
  - rewrite Href. rewrite Z.sub_0_r. reflexivity.
Qed.

Lemma tb_tier_run store K c w s n1 (m : Z) t0 b :
  (forall i, (b <= time_monotonic c i /\ time_monotonic c i < b + (5 # 3))%Q) ->
  (tokens s == inject_Z m + (last_refill s - t0) * (inject_Z 3 / 5))%Q ->
  (-1 < (time_monotonic c 0 - t0) * (inject_Z 3 / 5))%Q ->
  ((time_monotonic c 0 - t0) * (inject_Z 3 / 5) < 1)%Q ->
  0 <= m <= 3 ->
  (m = 3 -> ((time_monotonic c 0 - t0) * (inject_Z 3 / 5) <= 0)%Q) ->
  (m = 1 -> (0 <= (time_monotonic c 0 - t0) * (inject_Z 3 / 5))%Q) ->
  forall r w',
    r = mkResult (tb_allowed 3 (inject_Z 3 / 5) (time_monotonic c 0) s) K
          (py_int (tokens (tb_next 3 (inject_Z 3 / 5) (time_monotonic c 0) s))) 3
          (time_time c (S n1)
           + (inject_Z 3 - tokens (tb_next 3 (inject_Z 3 / 5) (time_monotonic c 0) s))
             / (inject_Z 3 / 5))%Q
          (if tb_allowed 3 (inject_Z 3 / 5) (time_monotonic c 0) s then 0%Q
           else ((1 - tokens (tb_next 3 (inject_Z 3 / 5) (time_monotonic c 0) s))
                 / (inject_Z 3 / 5))%Q)
          TokenBucket.name ->
    w' = with_ttl (with_data w store (K +:+ ":tb")
                     (VBucket (tb_next 3 (inject_Z 3 / 5) (time_monotonic c 0) s)))
           store (K +:+ ":tb") (time_monotonic c n1 + 5 * 2)%Q ->
    allowed r = (1 <=? m) /\ strategy r = TokenBucket.name /\ limit r = 3 /\
    (exists s' e,
        data_at w' store (K +:+ ":tb") = Some (VBucket s') /\
        (tokens s' == inject_Z (m - (if 1 <=? m then 1 else 0))
                      + (last_refill s' - t0) * (inject_Z 3 / 5))%Q /\
        ttl_at w' store (K +:+ ":tb") = Some e /\ (b + (5 # 3) <= e)%Q) /\
    (forall ref k, ref <> store ->
       data_at w' ref k = data_at w ref k /\ ttl_at w' ref k = ttl_at w ref k).
Proof.
  intros Hspan Htok Hlo Hhi Hm Hcap Hone r w' -> ->.
  destruct (tb_exact 3 (inject_Z 3 / 5) (time_monotonic c 0) t0 s m
              Htok Hlo Hhi Hm Hcap Hone) as [Hall Htok'].
  simpl. split; [exact Hall|]. split; [reflexivity|]. split; [reflexivity|]. split.
  - eexists _, _. split; [by slot_simpl|]. split; [exact Htok'|].
    split; [by slot_simpl|]. destruct (Hspan n1) as [? _]. lra.
  - intros ref k Hne. slot_simpl.
    rewrite !decide_False by (intros [? _]; congruence). done.
Qed.

Lemma three_fifths_nonzero : ~ (inject_Z 3 / 5 == 0)%Q.
Proof. discriminate. Qed.

Lemma five_nonzero : ~ (5 == 0)%Q.
Proof. discriminate. Qed.

(** Tier 1 on a stored bucket. *)
Lemma tb_tier_stored store K c w (m : Z) t0 b :
  (forall i, (b <= time_monotonic c i /\ time_monotonic c i < b + (5 # 3))%Q) ->
  (exists s e,
      data_at w store (K +:+ ":tb") = Some (VBucket s) /\
      (tokens s == inject_Z m + (last_refill s - t0) * (inject_Z 3 / 5))%Q /\
      ttl_at w store (K +:+ ":tb") = Some e /\ (b + (5 # 3) <= e)%Q) ->
  (-1 < (time_monotonic c 0 - t0) * (inject_Z 3 / 5))%Q ->
  ((time_monotonic c 0 - t0) * (inject_Z 3 / 5) < 1)%Q ->
  0 <= m <= 3 ->
  (m = 3 -> ((time_monotonic c 0 - t0) * (inject_Z 3 / 5) <= 0)%Q) ->
  (m = 1 -> (0 <= (time_monotonic c 0 - t0) * (inject_Z 3 / 5))%Q) ->
  exists r n' w',
    TokenBucket.check store K 3 5 c (O, w) = (Ok r, (n', w')) /\
    allowed r = (1 <=? m) /\ strategy r = TokenBucket.name /\ limit r = 3 /\
    (exists s' e,
        data_at w' store (K +:+ ":tb") = Some (VBucket s') /\
        (tokens s' == inject_Z (m - (if 1 <=? m then 1 else 0))
                      + (last_refill s' - t0) * (inject_Z 3 / 5))%Q /\
        ttl_at w' store (K +:+ ":tb") = Some e /\ (b + (5 # 3) <= e)%Q) /\
    (forall ref k, ref <> store ->
       data_at w' ref k = data_at w ref k /\ ttl_at w' ref k = ttl_at w ref k).
Proof.
  intros Hspan (s & e & Hd & Htok & Ht & He) Hlo Hhi Hm Hcap Hone.
  pose proof (tb_check_run store K 3 5 c O w five_nonzero three_fifths_nonzero) as Hrun.
  cbv zeta in Hrun.
  assert (Hlive : live_at w store (K +:+ ":tb") (time_monotonic c 1)).
  { unfold live_at. rewrite Ht. destruct (Hspan 1%nat) as [_ ?]. lra. }
  pose proof (settle_live _ _ _ _ _ Hlive) as Hs.
  destruct (settle w store (K +:+ ":tb") c 1) as [n1 w1]. simpl in Hs. subst w1.
  rewrite Hd in Hrun. simpl in Hrun. specialize (Hrun I).
  eexists _, _, _. split; [exact Hrun|].
  eapply (tb_tier_run store K c w s n1 m t0 b); eauto.
Qed.

(** Tier 1 on an empty slot: the bucket is created full and stamped at the
    next clock read. *)
Lemma tb_tier_fresh store K c w b :
  (forall i, (b <= time_monotonic c i /\ time_monotonic c i < b + (5 # 3))%Q) ->
  steady c ->
  data_at w store (K +:+ ":tb") = None -> ttl_at w store (K +:+ ":tb") = None ->
  exists r n' w',
    TokenBucket.check store K 3 5 c (O, w) = (Ok r, (n', w')) /\
    allowed r = true /\ strategy r = TokenBucket.name /\ limit r = 3 /\
    (exists s' e,
        data_at w' store (K +:+ ":tb") = Some (VBucket s') /\
        (tokens s' == inject_Z 2
                      + (last_refill s' - time_monotonic c 1) * (inject_Z 3 / 5))%Q /\
        ttl_at w' store (K +:+ ":tb") = Some e /\ (b + (5 # 3) <= e)%Q) /\
    (forall ref k, ref <> store ->
       data_at w' ref k = data_at w ref k /\ ttl_at w' ref k = ttl_at w ref k).
Proof.
  intros Hspan Hsteady Hd Ht.
  pose proof (tb_check_run store K 3 5 c O w five_nonzero three_fifths_nonzero) as Hrun.
  cbv zeta in Hrun. unfold settle in Hrun. rewrite Ht, Hd in Hrun.
  simpl in Hrun. specialize (Hrun I).
  eexists _, _, _. split; [exact Hrun|].
  assert (Hle : (time_monotonic c 0 <= time_monotonic c 1)%Q) by (apply Hsteady; lia).
  destruct (Hspan O) as [H0 _]. destruct (Hspan 1%nat) as [_ H1].
  assert (E : (inject_Z 3 / 5 == 3 # 5)%Q) by reflexivity.
  eapply (tb_tier_run store K c w (mkBucket (py_float 3) (time_monotonic c 1)) 2 3
            (time_monotonic c 1) b); eauto.
  - simpl. unfold py_float. ring.
  - rewrite E. lra.
  - rewrite E. lra.
  - lia.
  - intros _. rewrite E. lra.
  - discriminate.
Qed.

(** *** One [enforce] call of the two demo tiers *)

Lemma demo_compose s1 s2 key c w t0 b (m' B : Z) r n1 w1 :
  let rl1 := RateLimiter.mk 3 5 false "rl" s1 TOKEN_BUCKET in
  let rl2 := RateLimiter.mk 6 10 false "rl" s2 FIXED_WINDOW in
  let K := RateLimiter._build_key rl1 key in
  s1 <> s2 ->
  (forall i, (b <= time_monotonic c i /\ time_monotonic c i < b + (5 # 3))%Q) ->
  TokenBucket.check s1 K 3 5 c (O, w) = (Ok r, (n1, w1)) ->
  strategy r = TokenBucket.name ->
  (exists s' e,
      data_at w1 s1 (K +:+ ":tb") = Some (VBucket s') /\
      (tokens s' == inject_Z m' + (last_refill s' - t0) * (inject_Z 3 / 5))%Q /\
      ttl_at w1 s1 (K +:+ ":tb") = Some e /\ (b + (5 # 3) <= e)%Q) ->
  (forall ref k, ref <> s1 ->
     data_at w1 ref k = data_at w ref k /\ ttl_at w1 ref k = ttl_at w ref k) ->
  (forall slot : Z, exists v,
      0 <= v <= B /\
      fw_slot_state w s2 (K +:+ ":fw:" +:+ pretty slot) (b + (5 # 3))%Q v) ->
  B + 1 <= 6 ->
  if allowed r
  then exists r2 w',
         call c (TieredRateLimiter.enforce (TieredRateLimiter.mk [rl1; rl2]) key) w
           = (Ok [r; r2], w') /\
         demo_state w' s1 s2 K t0 (b + (5 # 3))%Q m' (B + 1)
  else exists ra w',
         call c (TieredRateLimiter.enforce (TieredRateLimiter.mk [rl1; rl2]) key) w
           = (Raise (RateLimitExceeded key ra 3 TokenBucket.name), w') /\
         demo_state w' s1 s2 K t0 (b + (5 # 3))%Q m' B.
Proof.
  intros rl1 rl2 K Hne Hspan Hrun Hname Htb Hframe Hfw HB.
  assert (Hfw1 : forall slot : Z, exists v,
             0 <= v <= B /\
             fw_slot_state w1 s2 (K +:+ ":fw:" +:+ pretty slot) (b + (5 # 3))%Q v).
  { intros slot. destruct (Hfw slot) as (v & Hv & Hst). exists v. split; [exact Hv|].
    destruct (Hframe s2 (K +:+ ":fw:" +:+ pretty slot)) as [Hfd Hft]; [congruence|].
    unfold fw_slot_state. rewrite Hfd, Hft. exact Hst. }
  unfold call, TieredRateLimiter.enforce. simpl TieredRateLimiter.limiters.
  rewrite enforce_loop_cons, rl_enforce_run, rl_check_run.
  simpl RateLimiter._strategy. simpl RateLimiter._store.
  simpl RateLimiter.limit. simpl RateLimiter.window.
  simpl Strategy.check. fold K. rewrite Hrun.
  destruct (allowed r) eqn:Ea.
  - assert (Hspan10 : forall i, (time_monotonic c i < b + (5 # 3))%Q /\
                                (b + (5 # 3) <= time_monotonic c i + 10)%Q).
    { intros i. destruct (Hspan i). split; lra. }
    destruct (fw_check_counts s2 K 6 10 c n1 w1 (b + (5 # 3))%Q B
                ltac:(reflexivity) Hspan10 Hfw1)
      as (r2 & n2 & w2 & Hrun2 & Hall2 & _ & Hfw2 & Hframe2).
    rewrite enforce_loop_cons, rl_enforce_run, rl_check_run.
    simpl RateLimiter._strategy. simpl RateLimiter._store.
    simpl RateLimiter.limit. simpl RateLimiter.window.
    simpl Strategy.check. change (RateLimiter._build_key rl2 key) with K.
    rewrite Hrun2, (Hall2 HB). simpl.
    exists r2, w2. split; [reflexivity|]. split; [|exact Hfw2].
    destruct Htb as (s' & e & Hd & Htok & Ht & He). exists s', e.
    destruct (Hframe2 s1 (K +:+ ":tb")) as [Hfd Hft]; [congruence|].
    rewrite Hfd, Hft. auto.
  - simpl. rewrite Hname. eexists _, _. split; [reflexivity|]. split.
    + destruct Htb as (s' & e & Hd & Htok & Ht & He). exists s', e.
      slot_simpl. auto.
    + intros slot. destruct (Hfw1 slot) as (v & Hv & Hst). exists v.
      split; [exact Hv|]. unfold fw_slot_state. slot_simpl. exact Hst.
Qed.

Lemma demo_delta c t0 b :
  (forall i, (b <= time_monotonic c i /\ time_monotonic c i < b + (5 # 3))%Q) ->
  (b <= t0)%Q -> (t0 <= time_monotonic c 0)%Q ->
  (0 <= (time_monotonic c 0 - t0) * (inject_Z 3 / 5))%Q /\
  ((time_monotonic c 0 - t0) * (inject_Z 3 / 5) < 1)%Q.
Proof.
  intros Hspan Hb Ht. destruct (Hspan O) as [_ H].
  assert (E : (inject_Z 3 / 5 == 3 # 5)%Q) by reflexivity.
  rewrite E. split; lra.
Qed.

Lemma demo_step_allow s1 s2 key c w t0 b (m B : Z) :
  let rl1 := RateLimiter.mk 3 5 false "rl" s1 TOKEN_BUCKET in
  let rl2 := RateLimiter.mk 6 10 false "rl" s2 FIXED_WINDOW in
  let K := RateLimiter._build_key rl1 key in
  s1 <> s2 ->
  (forall i, (b <= time_monotonic c i /\ time_monotonic c i < b + (5 # 3))%Q) ->
  (b <= t0)%Q -> (t0 <= time_monotonic c 0)%Q ->
  demo_state w s1 s2 K t0 (b + (5 # 3))%Q m B ->
  1 <= m <= 2 -> B + 1 <= 6 ->
  exists r1 r2 w',
    call c (TieredRateLimiter.enforce (TieredRateLimiter.mk [rl1; rl2]) key) w
      = (Ok [r1; r2], w') /\
    demo_state w' s1 s2 K t0 (b + (5 # 3))%Q (m - 1) (B + 1).
Proof.
  intros rl1 rl2 K Hne Hspan Hb Ht [Htb Hfw] Hm HB.
  destruct (demo_delta c t0 b Hspan Hb Ht) as [Hd0 Hd1].
  destruct (tb_tier_stored s1 K c w m t0 b Hspan Htb ltac:(lra) Hd1 ltac:(lia)
              ltac:(intros; lia) ltac:(intros; exact Hd0))
    as (r & n1 & w1 & Hrun & Hall & Hname & _ & Htb' & Hframe).
  pose proof (demo_compose s1 s2 key c w t0 b _ B r n1 w1 Hne Hspan Hrun Hname
                Htb' Hframe Hfw HB) as Hc.
  assert (E : (1 <=? m) = true) by (apply Z.leb_le; lia).
  rewrite Hall, E in Hc. destruct Hc as (r2 & w' & Hcall & Hst).
  exists r, r2, w'. split; [exact Hcall|exact Hst].
Qed.

Lemma demo_step_deny s1 s2 key c w t0 b (B : Z) :
  let rl1 := RateLimiter.mk 3 5 false "rl" s1 TOKEN_BUCKET in
  let rl2 := RateLimiter.mk 6 10 false "rl" s2 FIXED_WINDOW in
  let K := RateLimiter._build_key rl1 key in
  s1 <> s2 ->
  (forall i, (b <= time_monotonic c i /\ time_monotonic c i < b + (5 # 3))%Q) ->
  (b <= t0)%Q -> (t0 <= time_monotonic c 0)%Q ->
  demo_state w s1 s2 K t0 (b + (5 # 3))%Q 0 B ->
  B + 1 <= 6 ->
  exists ra w',
    call c (TieredRateLimiter.enforce (TieredRateLimiter.mk [rl1; rl2]) key) w
      = (Raise (RateLimitExceeded key ra 3 TokenBucket.name), w') /\
    demo_state w' s1 s2 K t0 (b + (5 # 3))%Q 0 B.
Proof.
  intros rl1 rl2 K Hne Hspan Hb Ht [Htb Hfw] HB.
  destruct (demo_delta c t0 b Hspan Hb Ht) as [Hd0 Hd1].
  destruct (tb_tier_stored s1 K c w 0 t0 b Hspan Htb ltac:(lra) Hd1 ltac:(lia)
              ltac:(intros; lia) ltac:(intros; exact Hd0))
    as (r & n1 & w1 & Hrun & Hall & Hname & _ & Htb' & Hframe).
  pose proof (demo_compose s1 s2 key c w t0 b _ B r n1 w1 Hne Hspan Hrun Hname
                Htb' Hframe Hfw HB) as Hc.
  rewrite Hall in Hc. simpl in Hc. exact Hc.
Qed.

Lemma demo_step_first s1 s2 key c w b :
  let rl1 := RateLimiter.mk 3 5 false "rl" s1 TOKEN_BUCKET in
  let rl2 := RateLimiter.mk 6 10 false "rl" s2 FIXED_WINDOW in
  let K := RateLimiter._build_key rl1 key in
  s1 <> s2 ->
  (forall i, (b <= time_monotonic c i /\ time_monotonic c i < b + (5 # 3))%Q) ->
  steady c ->
  (forall k, data_at w s1 k = None /\ ttl_at w s1 k = None) ->
  (forall k, data_at w s2 k = None /\ ttl_at w s2 k = None) ->
  exists r1 r2 w',
    call c (TieredRateLimiter.enforce (TieredRateLimiter.mk [rl1; rl2]) key) w
      = (Ok [r1; r2], w') /\
    demo_state w' s1 s2 K (time_monotonic c 1) (b + (5 # 3))%Q 2 1.
Proof.
  intros rl1 rl2 K Hne Hspan Hsteady He1 He2.
  destruct (He1 (K +:+ ":tb")) as [Hd Ht].
  destruct (tb_tier_fresh s1 K c w b Hspan Hsteady Hd Ht)
    as (r & n1 & w1 & Hrun & Hall & Hname & _ & Htb' & Hframe).
  assert (Hfw : forall slot : Z, exists v,
            0 <= v <= 0 /\
            fw_slot_state w s2 (K +:+ ":fw:" +:+ pretty slot) (b + (5 # 3))%Q v).
  { intros slot. exists 0. split; [lia|]. left. destruct (He2 (K +:+ ":fw:" +:+ pretty slot)).
    auto. }
  pose proof (demo_compose s1 s2 key c w (time_monotonic c 1) b 2 0 r n1 w1 Hne Hspan
                Hrun Hname Htb' Hframe Hfw ltac:(lia)) as Hc.
  rewrite Hall in Hc. destruct Hc as (r2 & w' & Hcall & Hst).
  exists r, r2, w'. split; [exact Hcall|exact Hst].
Qed.

(** *** The run of the two demo tiers *)

(** Seven [enforce] calls on the two demo tiers, each on a store of its
    own, made within 5/3 s of monotonic time (less than one token takes to
    accrue) on a clock that does not run backwards: the first three
    return and the others raise the token-bucket tier's error. *)
Lemma demo_run key w c0 c1 c2 c3 c4 c5 c6 c7 b :
  clocks_ordered [c1; c2; c3; c4; c5; c6; c7] ->
  steady c1 ->
  mono_span_from b (5 # 3) [c1; c2; c3; c4; c5; c6; c7] ->
  exists rl1 rl2 tiers wa wb w0,
    call c0 (RateLimiter.__init__ 3 5 TOKEN_BUCKET None "rl" false) w = (Ok rl1, wa) /\
    call c0 (RateLimiter.__init__ 6 10 FIXED_WINDOW None "rl" false) wa = (Ok rl2, wb) /\
    call c0 (TieredRateLimiter.__init__ [rl1; rl2]) wb = (Ok tiers, w0) /\
    exists a1 a2 a3 ra4 ra5 ra6 ra7 w',
      run_outcomes (TieredRateLimiter.enforce tiers key)
        [c1; c2; c3; c4; c5; c6; c7] w0 =
        ([Ok a1; Ok a2; Ok a3;
          Raise (RateLimitExceeded key ra4 3 "token_bucket");
          Raise (RateLimitExceeded key ra5 3 "token_bucket");
          Raise (RateLimitExceeded key ra6 3 "token_bucket");
          Raise (RateLimitExceeded key ra7 3 "token_bucket")], w').
Proof.
  intros Hord Hsteady Hspan.
  set (s1 := next_ref w). set (s2 := S (next_ref w)).
  set (wa := {| stores := <[s1 := empty_store]> (stores w);
                next_ref := S (next_ref w); warnings := warnings w |}).
  set (wb := {| stores := <[s2 := empty_store]> (stores wa);
                next_ref := S (next_ref wa); warnings := warnings wa |}).
  exists (RateLimiter.mk 3 5 false "rl" s1 TOKEN_BUCKET),
         (RateLimiter.mk 6 10 false "rl" s2 FIXED_WINDOW),
         (TieredRateLimiter.mk [RateLimiter.mk 3 5 false "rl" s1 TOKEN_BUCKET;
                                RateLimiter.mk 6 10 false "rl" s2 FIXED_WINDOW]),
         wa, wb, wb.
  split; [reflexivity|]. split; [reflexivity|]. split; [reflexivity|].
  assert (Hne : s1 <> s2) by (unfold s1, s2; lia).
  assert (He1 : forall k, data_at wb s1 k = None /\ ttl_at wb s1 k = None).
  { intros k. unfold data_at, ttl_at, store_of, wb, wa. simpl.
    rewrite lookup_insert_ne by (unfold s1, s2; lia).
    rewrite lookup_insert_eq. done. }
  assert (He2 : forall k, data_at wb s2 k = None /\ ttl_at wb s2 k = None).
  { intros k. unfold data_at, ttl_at, store_of, wb. simpl.
    rewrite lookup_insert_eq. done. }
  unfold mono_span_from in Hspan.
  repeat (apply Forall_cons in Hspan; destruct Hspan as [? Hspan]).
  unfold clocks_ordered in Hord. apply StronglySorted_inv in Hord.
  destruct Hord as [_ Hfol].
  repeat (apply Forall_cons in Hfol; destruct Hfol as [? Hfol]).
  set (t0 := time_monotonic c1 1).
  assert (Hb0 : (b <= t0)%Q) by (destruct (H 1%nat); done).
  destruct (demo_step_first s1 s2 key c1 wb b Hne H Hsteady He1 He2)
    as (a1 & a1' & w1 & Hc1 & Hst1).
  fold t0 in Hst1.
  destruct (demo_step_allow s1 s2 key c2 w1 t0 b 2 1 Hne H0 Hb0 (H6 _ _) Hst1
              ltac:(lia) ltac:(lia)) as (a2 & a2' & w2 & Hc2 & Hst2).
  destruct (demo_step_allow s1 s2 key c3 w2 t0 b 1 2 Hne H1 Hb0 (H7 _ _) Hst2
              ltac:(lia) ltac:(lia)) as (a3 & a3' & w3 & Hc3 & Hst3).
  destruct (demo_step_deny s1 s2 key c4 w3 t0 b 3 Hne H2 Hb0 (H8 _ _) Hst3
              ltac:(lia)) as (ra4 & w4 & Hc4 & Hst4).
  destruct (demo_step_deny s1 s2 key c5 w4 t0 b 3 Hne H3 Hb0 (H9 _ _) Hst4
              ltac:(lia)) as (ra5 & w5 & Hc5 & Hst5).
  destruct (demo_step_deny s1 s2 key c6 w5 t0 b 3 Hne H4 Hb0 (H10 _ _) Hst5
              ltac:(lia)) as (ra6 & w6 & Hc6 & Hst6).
  destruct (demo_step_deny s1 s2 key c7 w6 t0 b 3 Hne H5 Hb0 (H11 _ _) Hst6
              ltac:(lia)) as (ra7 & w7 & Hc7 & Hst7).
  exists [a1; a1'], [a2; a2'], [a3; a3'], ra4, ra5, ra6, ra7, w7.
  cbn [run_outcomes].
  rewrite Hc1, Hc2, Hc3, Hc4, Hc5, Hc6, Hc7. reflexivity.
Qed.

Lemma stands_still_steady c : stands_still c -> steady c.
Proof. intros H i j _. rewrite (H i), (H j). apply Qle_refl. Qed.

Lemma mono_span_from_wider b d d' clocks :
  (d <= d')%Q -> mono_span_from b d clocks -> mono_span_from b d' clocks.
Proof.
  intros Hd H. eapply Forall_impl; [exact H|]. simpl.
  intros c Hc i. destruct (Hc i). split; lra.
Qed.

(** ** [reset] followed by [check] *)

Lemma py_int_proper x y : (x == y)%Q -> py_int x = py_int y.
Proof.
  unfold Qeq, py_int. intros E.
  rewrite <- (Z.quot_mul_cancel_r (Qnum x) (Z.pos (Qden x)) (Z.pos (Qden y))) by lia.
  rewrite <- (Z.quot_mul_cancel_r (Qnum y) (Z.pos (Qden y)) (Z.pos (Qden x))) by lia.
  rewrite E. f_equal. lia.
Qed.

Lemma py_int_inject (z : Z) : py_int (inject_Z z) = z.
Proof. unfold py_int. simpl. apply Z.quot_1_r. Qed.

Lemma py_int_between (z : Z) x :
  0 <= z -> (inject_Z z <= x)%Q -> (x < inject_Z (z + 1))%Q -> py_int x = z.
Proof.
  intros Hz Hlo Hhi.
  assert (Hx : (0 <= x)%Q) by (pose proof (inject_Z_nonneg _ Hz); lra).
  pose proof (py_int_le x Hx) as H1. pose proof (py_int_lt_succ x) as H2.
  assert (Ha : (inject_Z (py_int x) < inject_Z (z + 1))%Q) by lra.
  assert (Hb : (inject_Z z < inject_Z (py_int x + 1))%Q) by lra.
  apply inject_Z_lt_inv in Ha, Hb. lia.
Qed.

(** After [reset], none of the keys the next check can touch holds
    anything. *)
Lemma reset_run rl key c w :
  ~ (RateLimiter.window rl == 0)%Q ->
  let K := RateLimiter._build_key rl key in
  let store := RateLimiter._store rl in
  let slot := py_int (time_time c 0 / RateLimiter.window rl) in
  exists w',
    call c (RateLimiter.reset rl key) w = (Ok tt, w') /\
    (forall k,
        k = K +:+ ":swl" \/ k = K +:+ ":tb" \/ k = K +:+ ":lb" \/
        k = K +:+ ":fw:" +:+ pretty slot ->
        data_at w' store k = None /\ ttl_at w' store k = None).
Proof.
  intros Hw K store slot.
  exists (evicted (evicted (evicted (evicted (evicted (evicted w
            store (K +:+ ":swl")) store (K +:+ ":tb")) store (K +:+ ":lb"))
            store (K +:+ ":fw:" +:+ pretty (slot - 0)))
            store (K +:+ ":fw:" +:+
                   pretty (py_int (time_time c 1 / RateLimiter.window rl) - 1)))
            store (K +:+ ":fw:" +:+
                   pretty (py_int (time_time c 2 / RateLimiter.window rl) - 2))).
  split.
  - unfold call, RateLimiter.reset, RateLimiter.reset_slot, InMemoryStore.delete.
    fold K. fold store.
    repeat (unfold bind at 1; rewrite ?evict_run; simpl wall_now;
            rewrite ?py_div_run by exact Hw).
    reflexivity.
  - rewrite Z.sub_0_r. intros k Hk. slot_simpl.
    repeat case_decide; try done; exfalso;
      destruct Hk as [-> | [-> | [-> | ->]]];
      match goal with
      | H : ~ (_ /\ ?a = ?a) |- _ => apply H; split; reflexivity
      end.
Qed.

(** The first check on an empty slot when the clock stands still during
    the call: admitted, with [limit - 1] left, for each strategy. *)
Lemma fresh_check_frozen st store K limit window wall mono w :
  1 <= limit -> (0 < window)%Q ->
  let slot := py_int (wall / window) in
  (forall k,
      k = K +:+ ":swl" \/ k = K +:+ ":tb" \/ k = K +:+ ":lb" \/
      k = K +:+ ":fw:" +:+ pretty slot ->
      data_at w store k = None /\ ttl_at w store k = None) ->
  exists r s',
    Strategy.check st store K limit window (frozen wall mono) (O, w) = (Ok r, s') /\
    allowed r = true /\ remaining r = limit - 1.
Proof.
  intros Hl Hw slot Hfresh.
  pose proof (window_nonzero _ Hw) as Hw0.
  assert (Hl0 : 0 < limit) by lia.
  pose proof (rate_nonzero _ _ Hl0 Hw) as Hr0.
  destruct st; simpl Strategy.check.
  - destruct (Hfresh (K +:+ ":fw:" +:+ pretty slot)) as [Hd Ht]; [tauto|].
    rewrite fw_check_run by exact Hw0. cbv zeta. simpl time_time. fold slot.
    rewrite incr_fresh by assumption.
    eexists _, _. split; [reflexivity|]. simpl.
    split; [apply Z.leb_le; lia|lia].
  - destruct (Hfresh (K +:+ ":swl")) as [Hd Ht]; [tauto|].
    apply swl_check_on_empty; [lia|]. unfold settle. by rewrite Ht.
  - destruct (Hfresh (K +:+ ":tb")) as [Hd Ht]; [tauto|].
    pose proof (tb_check_run store K limit window (frozen wall mono) O w Hw0 Hr0) as Hrun.
    cbv zeta in Hrun. unfold settle in Hrun. rewrite Ht, Hd in Hrun.
    simpl in Hrun. specialize (Hrun I).
    eexists _, _. split; [exact Hrun|]. simpl.
    set (rate := (inject_Z limit / window)%Q).
    assert (Href : (tb_refill limit rate mono (mkBucket (py_float limit) mono)
                    == inject_Z limit)%Q).
    { unfold tb_refill. simpl. rewrite py_min_eq_r; unfold py_float.
      - ring.
      - assert (((mono - mono) * rate == 0)%Q) by ring. lra. }
    assert (Hone : (1 <= inject_Z limit)%Q).
    { change 1%Q with (inject_Z 1). apply inject_Z_le. lia. }
    assert (Hall : tb_allowed limit rate mono (mkBucket (py_float limit) mono) = true).
    { unfold tb_allowed. apply Qle_bool_iff. rewrite Href. exact Hone. }
    split; [exact Hall|].
    unfold tb_next. rewrite Hall. simpl.
    rewrite (py_int_proper _ (inject_Z (limit - 1))); [apply py_int_inject|].
    rewrite Href. unfold Z.sub. rewrite inject_Z_plus. reflexivity.
  - destruct (Hfresh (K +:+ ":lb")) as [Hd Ht]; [tauto|].
    pose proof (lb_check_run store K limit window (frozen wall mono) O w Hw0 Hr0) as Hrun.
    cbv zeta in Hrun. unfold settle in Hrun. rewrite Ht, Hd in Hrun.
    simpl in Hrun. specialize (Hrun I).
    eexists _, _. split; [exact Hrun|]. simpl.
    set (rate := (inject_Z limit / window)%Q).
    assert (Hleak : lb_leaked rate mono (mkLeaky 0 mono) = 0).
    { unfold lb_leaked. simpl.
      rewrite (py_int_proper _ (inject_Z 0)); [apply py_int_inject|]. ring. }
    assert (Hdr : lb_drained rate mono (mkLeaky 0 mono) = 0).
    { unfold lb_drained. rewrite Hleak. reflexivity. }
    assert (Hall : lb_allowed limit rate mono (mkLeaky 0 mono) = true).
    { unfold lb_allowed. rewrite Hdr. apply Z.ltb_lt. lia. }
    split; [exact Hall|].
    unfold lb_next. rewrite Hall, Hdr. simpl. lia.
Qed.

(** [reset] then [check] with a clock that stands still: what C8 asks
    for holds for the four strategies. *)
Lemma reset_then_check_frozen rl key wall mono w :
  1 <= RateLimiter.limit rl -> (0 < RateLimiter.window rl)%Q ->
  exists w1 r w2,
    call (frozen wall mono) (RateLimiter.reset rl key) w = (Ok tt, w1) /\
    call (frozen wall mono) (RateLimiter.check rl key) w1 = (Ok r, w2) /\
    allowed r = true /\ remaining r = RateLimiter.limit rl - 1.
Proof.
  intros Hl Hw.
  destruct (reset_run rl key (frozen wall mono) w (window_nonzero _ Hw))
    as (w1 & Hreset & Hfresh).
  destruct (fresh_check_frozen (RateLimiter._strategy rl) (RateLimiter._store rl)
              (RateLimiter._build_key rl key) (RateLimiter.limit rl)
              (RateLimiter.window rl) wall mono w1 Hl Hw Hfresh)
    as (r & [n' s'] & Hrun & Ha & Hrem).
  exists w1, r. eexists. split; [exact Hreset|].
  unfold call. rewrite rl_check_run, Hrun, Ha. auto.
Qed.

(** The first token-bucket check on an empty slot when the monotonic clock
    moves between the read of [now] and the stamp of the new bucket (by
    less than the time one token takes to accrue): one token too few. *)
Lemma tb_fresh_check_drift store K limit window c w :
  1 <= limit -> (0 < window)%Q ->
  data_at w store (K +:+ ":tb") = None -> ttl_at w store (K +:+ ":tb") = None ->
  (time_monotonic c 0 < time_monotonic c 1)%Q ->
  ((time_monotonic c 1 - time_monotonic c 0) * (inject_Z limit / window) < 1)%Q ->
  exists r s',
    TokenBucket.check store K limit window c (O, w) = (Ok r, s') /\
    allowed r = (2 <=? limit) /\
    remaining r = Z.max 0 (limit - 2).
Proof.
  intros Hl Hw Hd Ht Hadv Hsmall.
  pose proof (window_nonzero _ Hw) as Hw0.
  assert (Hl0 : 0 < limit) by lia.
  pose proof (rate_nonzero _ _ Hl0 Hw) as Hr0.
  pose proof (rate_pos _ _ Hl0 Hw) as Hr.
  pose proof (tb_check_run store K limit window c O w Hw0 Hr0) as Hrun.
  cbv zeta in Hrun. unfold settle in Hrun. rewrite Ht, Hd in Hrun.
  simpl in Hrun. specialize (Hrun I).
  eexists _, _. split; [exact Hrun|]. simpl.
  set (rate := (inject_Z limit / window)%Q) in *.
  set (now := time_monotonic c 0) in *. set (t' := time_monotonic c 1) in *.
  set (eps := ((t' - now) * rate)%Q) in *.
  assert (Heps : (0 < eps)%Q).
  { unfold eps. apply Qmult_lt_0_compat; lra. }
  assert (Href : (tb_refill limit rate now (mkBucket (py_float limit) t')
                  == inject_Z limit - eps)%Q).
  { unfold tb_refill. simpl. unfold py_float.
    assert (E : (inject_Z limit + (now - t') * rate == inject_Z limit - eps)%Q)
      by (unfold eps; ring).
    rewrite py_min_eq_r; [exact E|]. lra. }
  assert (Hall : tb_allowed limit rate now (mkBucket (py_float limit) t')
                 = (2 <=? limit)).
  { unfold tb_allowed. destruct (2 <=? limit) eqn:E.
    - apply Z.leb_le in E. apply Qle_bool_iff. rewrite Href.
      apply inject_Z_le in E. change (inject_Z 2) with 2%Q in E. lra.
    - apply Z.leb_gt in E. assert (limit = 1) by lia. subst limit.
      destruct (Qle_bool 1 _) eqn:E2; [|reflexivity].
      apply Qle_bool_iff in E2. rewrite Href in E2.
      change (inject_Z 1) with 1%Q in E2. lra. }
  split; [exact Hall|].
  unfold tb_next. rewrite Hall.
  destruct (2 <=? limit) eqn:E; simpl.
  - apply Z.leb_le in E. rewrite Z.max_r by lia.
    apply py_int_between; [lia| |].
    + rewrite Href. unfold Z.sub. rewrite inject_Z_plus.
      change (inject_Z (- (2))) with (-2)%Q. lra.
    + rewrite Href. replace (limit - 2 + 1) with (limit + -1) by lia.
      rewrite inject_Z_plus. change (inject_Z (-1)) with (-1)%Q. lra.
  - apply Z.leb_gt in E. assert (limit = 1) by lia. subst limit.
    apply py_int_between; [lia| |].
    + rewrite Href. change (inject_Z 1) with 1%Q.
      change (inject_Z (Z.max 0 (1 - 2))) with 0%Q. lra.
    + rewrite Href. change (inject_Z 1) with 1%Q.
      change (inject_Z (Z.max 0 (1 - 2) + 1)) with 1%Q. lra.
Qed.

(** [reset] then [check] on a token-bucket limiter with a clock that moves
    during the check: limit 1 denies, any larger limit reports
    [limit - 2] left. *)
Lemma reset_then_check_token_bucket_drift rl key c0 c w :
  RateLimiter._strategy rl = TOKEN_BUCKET ->
  1 <= RateLimiter.limit rl -> (0 < RateLimiter.window rl)%Q ->
  (time_monotonic c 0 < time_monotonic c 1)%Q ->
  ((time_monotonic c 1 - time_monotonic c 0)
   * (inject_Z (RateLimiter.limit rl) / RateLimiter.window rl) < 1)%Q ->
  exists w1 r w2,
    call c0 (RateLimiter.reset rl key) w = (Ok tt, w1) /\
    call c (RateLimiter.check rl key) w1 = (Ok r, w2) /\
    allowed r = (2 <=? RateLimiter.limit rl) /\
    remaining r = Z.max 0 (RateLimiter.limit rl - 2).
Proof.
  intros Hst Hl Hw Hadv Hsmall.
  destruct (reset_run rl key c0 w (window_nonzero _ Hw)) as (w1 & Hreset & Hfresh).
  destruct (Hfresh (RateLimiter._build_key rl key +:+ ":tb")) as [Hd Ht]; [tauto|].
  destruct (tb_fresh_check_drift (RateLimiter._store rl) (RateLimiter._build_key rl key)
              (RateLimiter.limit rl) (RateLimiter.window rl) c w1 Hl Hw Hd Ht Hadv Hsmall)
    as (r & [n' s'] & Hrun & Ha & Hrem).
  exists w1, r. eexists. split; [exact Hreset|].
  unfold call. rewrite rl_check_run, Hst. simpl Strategy.check. rewrite Hrun.
  split; [reflexivity|]. auto.
Qed.

(** ** Strings, store keys and invariants of computations *)

Lemma string_length_app (a b : string) :
  String.length (a +:+ b) = (String.length a + String.length b)%nat.
Proof. induction a as [|x r IH]; simpl; [done|]. by rewrite IH. Qed.

Lemma last_char_app (a b : string) :
  b <> EmptyString -> last_char (a +:+ b) = last_char b.
Proof.
  intros Hb. induction a as [|x r IH]; [done|].
  simpl. destruct (r +:+ b) eqn:E; [|exact IH].
  destruct r; simpl in E; [contradiction|discriminate].
Qed.

Lemma has_suffix_cons suf x r :
  has_suffix suf (String x r) =
    if String.eqb (String x r) suf then true else has_suffix suf r.
Proof. reflexivity. Qed.

Lemma has_suffix_app (suf k s : string) :
  (String.length suf <= String.length s)%nat ->
  has_suffix suf (k +:+ s) = has_suffix suf s.
Proof.
  intros Hlen. induction k as [|x r IH]; [done|].
  change (String x r +:+ s) with (String x (r +:+ s)). rewrite has_suffix_cons.
  destruct (String.eqb (String x (r +:+ s)) suf) eqn:E; [|exact IH].
  apply String.eqb_eq in E. apply (f_equal String.length) in E.
  simpl in E. rewrite string_length_app in E. lia.
Qed.

Lemma has_suffix_self (suf k : string) : has_suffix suf (k +:+ suf) = true.
Proof.
  rewrite has_suffix_app by lia. destruct suf; [done|].
  rewrite has_suffix_cons. by rewrite String.eqb_refl.
Qed.

Lemma pretty_N_char_digit x : is_digit (pretty_N_char x) = true.
Proof. unfold pretty_N_char. by repeat case_match. Qed.

Lemma pretty_N_go_last x : forall s,
  s <> EmptyString -> last_char (pretty_N_go x s) = last_char s.
Proof.
  induction (N.lt_wf_0 x) as [x _ IH]; intros s Hs.
  assert (x = 0 \/ 0 < x)%N as [->|Hx] by lia; [by rewrite pretty_N_go_0|].
  rewrite pretty_N_go_step by done.
  rewrite IH; [|by apply N.div_lt|discriminate].
  simpl. by destruct s.
Qed.

Lemma pretty_N_last_digit (x : N) : is_digit (last_char (pretty x)) = true.
Proof.
  unfold pretty, pretty_N. case_decide; [done|].
  rewrite pretty_N_go_step by lia.
  rewrite pretty_N_go_last by discriminate. simpl. apply pretty_N_char_digit.
Qed.

Lemma pretty_N_nonempty (x : N) : pretty x <> EmptyString.
Proof.
  intros E. pose proof (pretty_N_last_digit x) as H. rewrite E in H. discriminate.
Qed.

Lemma pretty_Z_last_digit (z : Z) : is_digit (last_char (pretty z)) = true.
Proof.
  unfold pretty, pretty_Z. destruct z as [|p|p]; [done|apply pretty_N_last_digit|].
  rewrite last_char_app by apply pretty_N_nonempty. apply pretty_N_last_digit.
Qed.

Lemma pretty_Z_nonempty (z : Z) : pretty z <> EmptyString.
Proof.
  intros E. pose proof (pretty_Z_last_digit z) as H. rewrite E in H. discriminate.
Qed.

Lemma fw_key_last_digit key (slot : Z) :
  is_digit (last_char (key +:+ ":fw:" +:+ pretty slot)) = true.
Proof.
  rewrite last_char_app.
  - rewrite last_char_app by apply pretty_Z_nonempty. apply pretty_Z_last_digit.
  - discriminate.
Qed.

(** A key of one strategy is not a key of another. *)
Lemma fw_key_not_suffixed key (slot : Z) k suf :
  suf <> EmptyString -> is_digit (last_char suf) = false ->
  key +:+ ":fw:" +:+ pretty slot <> k +:+ suf.
Proof.
  intros Hne Hd E. pose proof (fw_key_last_digit key slot) as H.
  rewrite E, last_char_app in H by exact Hne. congruence.
Qed.

Lemma suffix_clash (suf1 suf2 k1 k2 : string) :
  (String.length suf1 <= String.length suf2)%nat ->
  has_suffix suf1 suf2 = false ->
  k1 +:+ suf1 <> k2 +:+ suf2.
Proof.
  intros Hlen Hno E. pose proof (has_suffix_self suf1 k1) as H.
  rewrite E, has_suffix_app in H by exact Hlen. congruence.
Qed.

Lemma preserves_ret {A} P (a : A) : preserves P (ret a).
Proof. intros c n w H. exact H. Qed.

Lemma preserves_raise {A} P e : preserves P (@raise A e).
Proof. intros c n w H. exact H. Qed.

Lemma preserves_bind {A B} P (m : M A) (k : A -> M B) :
  preserves P m -> (forall a, preserves P (k a)) -> preserves P (bind m k).
Proof.
  intros Hm Hk c n w H. unfold bind. specialize (Hm c n w H).
  destruct (m c (n, w)) as [[a|e] [n' w']]; simpl in *; [|exact Hm].
  apply Hk. exact Hm.
Qed.

Lemma preserves_wall_now P : preserves P wall_now.
Proof. intros c n w H. exact H. Qed.

Lemma preserves_monotonic_now P : preserves P monotonic_now.
Proof. intros c n w H. exact H. Qed.

Lemma preserves_py_div P a b : preserves P (py_div a b).
Proof. intros c n w H. unfold py_div. destruct (Qeq_bool b 0); exact H. Qed.

Lemma preserves_read_store P ref : preserves P (read_store ref).
Proof. intros c n w H. exact H. Qed.

(** ** Frames of the store operations *)

Lemma preserves_slot_is_expired P ref k : preserves P (InMemoryStore._is_expired ref k).
Proof.
  intros c n w H. rewrite is_expired_run. destruct (ttl_at w ref k); exact H.
Qed.

Lemma preserves_slot_evict P ref k :
  slot_closed P ref k -> preserves P (InMemoryStore._evict ref k).
Proof. intros (_ & _ & He) c n w H. rewrite evict_run. simpl. auto. Qed.

Lemma preserves_slot_get P ref k :
  slot_closed P ref k -> preserves P (InMemoryStore.get ref k).
Proof.
  intros (_ & _ & He) c n w H. rewrite get_run.
  destruct (ttl_at w ref k); [destruct (Qlt_bool _ _)|]; simpl; auto.
Qed.

Lemma preserves_slot_set P ref k v ttl :
  slot_closed P ref k -> preserves P (InMemoryStore.set ref k v ttl).
Proof.
  intros (Hd & Ht & _) c n w H. rewrite set_run. destruct ttl; simpl; auto.
Qed.

Lemma preserves_slot_incr P ref k ttl :
  slot_closed P ref k -> preserves P (InMemoryStore.incr ref k ttl).
Proof.
  intros Hc. unfold InMemoryStore.incr.
  apply preserves_bind; [apply preserves_slot_is_expired|]. intros ex.
  apply preserves_bind.
  { destruct ex; [by apply preserves_slot_evict | apply preserves_ret]. }
  intros _. apply preserves_bind; [apply preserves_read_store|]. intros s.
  apply preserves_bind.
  { destruct (_data s !! k) as [[]|]; first [apply preserves_ret | apply preserves_raise]. }
  intros count. apply preserves_bind; [by apply preserves_slot_set|].
  intros _. apply preserves_ret.
Qed.

Lemma same_outside_refl keys w : same_outside keys w w.
Proof. intros ref k _. split; reflexivity. Qed.

Lemma same_outside_slot_closed (keys : nat -> string -> Prop) w0 ref k :
  keys ref k -> slot_closed (same_outside keys w0) ref k.
Proof.
  intros Hk.
  assert (Hne : forall ref' k', ~ keys ref' k' -> ~ (ref = ref' /\ k = k')).
  { intros ref' k' Hn [-> ->]. contradiction. }
  repeat split; intros; destruct (H ref0 k0 H0) as [Hd Ht]; slot_simpl;
    rewrite ?decide_False by (by apply Hne); assumption.
Qed.

Lemma preserves_call {A} P (m : M A) c w : preserves P m -> P w -> P (snd (call c m w)).
Proof.
  intros Hp H. unfold call. specialize (Hp c O w H).
  destruct (m c (O, w)) as [r [n' w']]. exact Hp.
Qed.

Lemma touches_only_of_closed {A} self k (m : M A) :
  (forall P, slot_closed P self k -> preserves P m) -> touches_only self k m.
Proof.
  intros Hm c w. apply preserves_call; [|apply same_outside_refl].
  apply Hm. by apply same_outside_slot_closed.
Qed.

Lemma map_seq_succ {B} (f g : nat -> B) a n :
  (forall i, f (S i) = g i) ->
  List.map f (List.seq (S a) n) = List.map g (List.seq a n).
Proof.
  intros H. rewrite <- seq_shift, List.map_map. apply List.map_ext. exact H.
Qed.

Lemma incr_run_live self k t clocks : forall w (v : Z) e,
  1 <= v ->
  data_at w self k = Some (VInt v) -> ttl_at w self k = Some e ->
  Forall (fun c => (time_monotonic c 0 <= e)%Q) clocks ->
  exists w',
    run_calls (InMemoryStore.incr self k (Some t)) clocks w =
      (Ok (List.map (fun i => v + Z.of_nat i) (List.seq 1 (List.length clocks))), w') /\
    data_at w' self k = Some (VInt (v + Z.of_nat (List.length clocks))) /\
    ttl_at w' self k = Some e.
Proof.
  induction clocks as [|c rest IH]; intros w v e Hv Hd Ht Hall.
  - exists w. simpl. split; [reflexivity|]. rewrite Z.add_0_r. auto.
  - inversion Hall as [|? ? Hc Hrest]; subst.
    assert (Hrun : call c (InMemoryStore.incr self k (Some t)) w
                   = (Ok (v + 1), with_data w self k (VInt (v + 1)))).
    { unfold call. rewrite (incr_live _ _ _ _ _ _ v e Hd ltac:(lia) Ht Hc). reflexivity. }
    destruct (IH (with_data w self k (VInt (v + 1))) (v + 1) e ltac:(lia)
                ltac:(by slot_simpl) ltac:(by slot_simpl) Hrest) as (w' & Hr & Hd' & Ht').
    exists w'. cbn [run_calls]. rewrite Hrun, Hr. split; [|split].
    + cbn [List.length List.seq List.map].
      rewrite (map_seq_succ (fun i => v + Z.of_nat i) (fun i => v + 1 + Z.of_nat i) 1)
        by (intros i; lia).
      replace (v + Z.of_nat 1) with (v + 1) by lia. reflexivity.
    + rewrite Hd'. do 2 f_equal. cbn [List.length]. lia.
    + exact Ht'.
Qed.

(** ** Namespaced keys and the slots of the strategies *)

Lemma md5_hexdigest_length data : String.length (hashlib.md5_hexdigest data) = 32%nat.
Proof.
  unfold hashlib.md5_hexdigest.
  destruct (hashlib.md5_chunks _ _ _) as [[[a b] c] d]. reflexivity.
Qed.

Lemma substring_length n : forall s,
  (n <= String.length s)%nat -> String.length (String.substring 0 n s) = n.
Proof.
  induction n as [|n IH]; intros [|x s] H; simpl in *; try reflexivity; try lia.
  rewrite IH; [reflexivity|lia].
Qed.

Lemma app_inj_length (a1 a2 b1 b2 : string) :
  String.length a1 = String.length a2 -> a1 +:+ b1 = a2 +:+ b2 -> a1 = a2 /\ b1 = b2.
Proof.
  revert a2. induction a1 as [|x a1 IH]; intros [|y a2] Hl H; simpl in *; try discriminate.
  - auto.
  - injection H as -> H. destruct (IH a2 ltac:(lia) H) as [-> ->]. auto.
Qed.

Lemma app_inj_r (a1 a2 b : string) : a1 +:+ b = a2 +:+ b -> a1 = a2.
Proof.
  intros H. apply (app_inj_length a1 a2 b b); [|exact H].
  apply (f_equal String.length) in H. rewrite !string_length_app in H. lia.
Qed.

Lemma short_hash_length key :
  String.length (String.substring 0 8 (hashlib.md5_hexdigest (hashlib.encode key))) = 8%nat.
Proof. apply substring_length. rewrite md5_hexdigest_length. lia. Qed.

Lemma string_app_assoc (a b c : string) : (a +:+ b) +:+ c = a +:+ (b +:+ c).
Proof.
  induction a as [|x a IH]; [reflexivity|].
  change (String x ((a +:+ b) +:+ c) = String x (a +:+ (b +:+ c))). by rewrite IH.
Qed.

Lemma no_colon_app a b : no_colon (a +:+ b) = no_colon a && no_colon b.
Proof. induction a as [|x a IH]; simpl; [reflexivity|]. rewrite IH. by rewrite andb_assoc. Qed.

Lemma pretty_N_char_no_colon x : Ascii.eqb (pretty_N_char x) ":" = false.
Proof. unfold pretty_N_char. by repeat case_match. Qed.

Lemma pretty_N_go_no_colon x : forall s,
  no_colon s = true -> no_colon (pretty_N_go x s) = true.
Proof.
  induction (N.lt_wf_0 x) as [x _ IH]; intros s Hs.
  assert (x = 0 \/ 0 < x)%N as [->|Hx] by lia; [by rewrite pretty_N_go_0|].
  rewrite pretty_N_go_step by done.
  apply IH; [by apply N.div_lt|]. simpl. by rewrite pretty_N_char_no_colon, Hs.
Qed.

Lemma pretty_N_no_colon (x : N) : no_colon (pretty x) = true.
Proof.
  unfold pretty, pretty_N. case_decide; [done|]. by apply pretty_N_go_no_colon.
Qed.

Lemma pretty_Z_no_colon (z : Z) : no_colon (pretty z) = true.
Proof.
  unfold pretty, pretty_Z. destruct z as [|p|p]; [done|apply (pretty_N_no_colon (Npos p))|].
  rewrite no_colon_app. simpl. apply (pretty_N_no_colon (Npos p)).
Qed.

(** Splitting at the last colon is unambiguous. *)
Lemma last_colon_split (a b x y : string) :
  no_colon x = true -> no_colon y = true ->
  a +:+ String ":" x = b +:+ String ":" y -> a = b /\ x = y.
Proof.
  intros Hx Hy. revert b. induction a as [|c a IH]; intros [|d b] H.
  - change (String ":" x = String ":" y) in H. injection H as ->. auto.
  - change (String ":" x = String d (b +:+ String ":" y)) in H.
    injection H as <- H. rewrite H, no_colon_app in Hx. simpl in Hx.
    rewrite andb_false_r in Hx. discriminate.
  - change (String c (a +:+ String ":" x) = String ":" y) in H.
    injection H as -> H. rewrite <- H, no_colon_app in Hy. simpl in Hy.
    rewrite andb_false_r in Hy. discriminate.
  - change (String c (a +:+ String ":" x) = String d (b +:+ String ":" y)) in H.
    injection H as -> H. destruct (IH b H) as [-> ->]. auto.
Qed.

(** Splitting at the first colon is unambiguous. *)
Lemma first_colon_split (a b x y : string) :
  no_colon a = true -> no_colon b = true ->
  a +:+ String ":" x = b +:+ String ":" y -> a = b /\ x = y.
Proof.
  revert b. induction a as [|c a IH]; intros [|d b] Ha Hb H.
  - change (String ":" x = String ":" y) in H. injection H as ->. auto.
  - change (String ":" x = String d (b +:+ String ":" y)) in H.
    injection H as <- H. simpl in Hb. discriminate.
  - change (String c (a +:+ String ":" x) = String ":" y) in H.
    injection H as -> H. simpl in Ha. discriminate.
  - change (String c (a +:+ String ":" x) = String d (b +:+ String ":" y)) in H.
    injection H as -> H. simpl in Ha, Hb.
    apply andb_prop in Ha as [_ Ha]. apply andb_prop in Hb as [Hd Hb].
    destruct (IH b Ha Hb H) as [-> ->]. auto.
Qed.

Lemma fw_key_split (K K' : string) (a b : Z) :
  K +:+ ":fw:" +:+ pretty a = K' +:+ ":fw:" +:+ pretty b -> K = K' /\ a = b.
Proof.
  intros H.
  change (K +:+ ":fw:" +:+ pretty a) with (K +:+ (":fw" +:+ String ":" (pretty a))) in H.
  change (K' +:+ ":fw:" +:+ pretty b) with (K' +:+ (":fw" +:+ String ":" (pretty b))) in H.
  rewrite <- !string_app_assoc in H.
  apply last_colon_split in H as [H1 H2]; try apply pretty_Z_no_colon.
  split; [by apply app_inj_r in H1 | by apply pretty_Z_inj in H2].
Qed.

(** A slot belongs to one strategy and one namespaced key. *)
Lemma own_slot_unique st1 st2 K1 K2 k :
  own_slot st1 K1 k -> own_slot st2 K2 k -> st1 = st2 /\ K1 = K2.
Proof.
  intros H1 H2.
  assert (Hfw : forall K (slot : Z) K' suf,
             suf <> EmptyString -> is_digit (last_char suf) = false ->
             K +:+ ":fw:" +:+ pretty slot = K' +:+ suf -> False).
  { intros K slot K' suf Hne Hd E. exact (fw_key_not_suffixed K slot K' suf Hne Hd E). }
  assert (Hsuf : forall suf1 suf2 K K',
             (String.length suf1 <= String.length suf2)%nat ->
             has_suffix suf1 suf2 = false -> K +:+ suf1 = K' +:+ suf2 -> False).
  { intros suf1 suf2 K K' Hl Hn E. exact (suffix_clash suf1 suf2 K K' Hl Hn E). }
  destruct st1, st2; simpl in H1, H2;
    repeat match goal with H : exists _ : Z, _ |- _ => destruct H as [? H] end;
    rewrite H1 in H2; clear H1.
  - apply fw_key_split in H2 as [-> _]. auto.
  - exfalso. by apply (Hfw _ _ _ ":swl" ltac:(discriminate) eq_refl H2).
  - exfalso. by apply (Hfw _ _ _ ":tb" ltac:(discriminate) eq_refl H2).
  - exfalso. by apply (Hfw _ _ _ ":lb" ltac:(discriminate) eq_refl H2).
  - exfalso. symmetry in H2. by apply (Hfw _ _ _ ":swl" ltac:(discriminate) eq_refl H2).
  - apply app_inj_r in H2 as ->. auto.
  - exfalso. symmetry in H2. by apply (Hsuf ":tb" ":swl" _ _ ltac:(simpl; lia) eq_refl H2).
  - exfalso. symmetry in H2. by apply (Hsuf ":lb" ":swl" _ _ ltac:(simpl; lia) eq_refl H2).
  - exfalso. symmetry in H2. by apply (Hfw _ _ _ ":tb" ltac:(discriminate) eq_refl H2).
  - exfalso. by apply (Hsuf ":tb" ":swl" _ _ ltac:(simpl; lia) eq_refl H2).
  - apply app_inj_r in H2 as ->. auto.
  - exfalso. by apply (Hsuf ":tb" ":lb" _ _ ltac:(simpl; lia) eq_refl H2).
  - exfalso. symmetry in H2. by apply (Hfw _ _ _ ":lb" ltac:(discriminate) eq_refl H2).
  - exfalso. by apply (Hsuf ":lb" ":swl" _ _ ltac:(simpl; lia) eq_refl H2).
  - exfalso. by apply (Hsuf ":lb" ":tb" _ _ ltac:(simpl; lia) eq_refl H2).
  - apply app_inj_r in H2 as ->. auto.
Qed.

Ltac frame_step :=
  first
    [ apply preserves_ret | apply preserves_raise
    | apply preserves_wall_now | apply preserves_monotonic_now
    | apply preserves_py_div
    | apply preserves_slot_get | apply preserves_slot_set
    | apply preserves_slot_incr | apply preserves_slot_evict
    | apply preserves_bind; [|intros]
    | match goal with
      | |- preserves _ (match ?x with _ => _ end) => destruct x
      end ].

Lemma preserves_slot_strategy_check P st store K limit window :
  (forall k, own_slot st K k -> slot_closed P store k) ->
  preserves P (Strategy.check st store K limit window).
Proof.
  intros Hc. destruct st; simpl in Hc; unfold Strategy.check.
  - unfold FixedWindow.check. repeat frame_step. apply Hc. eauto.
  - unfold SlidingWindowLog.check. repeat frame_step; by apply Hc.
  - unfold TokenBucket.check. repeat frame_step; by apply Hc.
  - unfold LeakyBucket.check. repeat frame_step; by apply Hc.
Qed.

Lemma preserves_slot_logger_warning P r : log_closed P -> preserves P (logger_warning r).
Proof. intros HP c n w H. simpl. by apply HP. Qed.

Lemma preserves_slot_rl_check P rl key :
  log_closed P ->
  (forall k, own_slot (RateLimiter._strategy rl) (RateLimiter._build_key rl key) k ->
     slot_closed P (RateLimiter._store rl) k) ->
  preserves P (RateLimiter.check rl key).
Proof.
  intros Hl Hc. unfold RateLimiter.check.
  apply preserves_bind; [by apply preserves_slot_strategy_check|]. intros r.
  apply preserves_bind; [|intros; apply preserves_ret].
  destruct (allowed r); [apply preserves_ret | by apply preserves_slot_logger_warning].
Qed.

Lemma preserves_slot_rl_enforce P rl key :
  log_closed P ->
  (forall k, own_slot (RateLimiter._strategy rl) (RateLimiter._build_key rl key) k ->
     slot_closed P (RateLimiter._store rl) k) ->
  preserves P (RateLimiter.enforce rl key).
Proof.
  intros Hl Hc. unfold RateLimiter.enforce.
  apply preserves_bind; [by apply preserves_slot_rl_check|]. intros r.
  destruct (allowed r); [apply preserves_ret | apply preserves_raise].
Qed.

Lemma preserves_slot_rl_reset P rl key :
  (forall st k, own_slot st (RateLimiter._build_key rl key) k ->
     slot_closed P (RateLimiter._store rl) k) ->
  preserves P (RateLimiter.reset rl key).
Proof.
  intros Hc. unfold RateLimiter.reset, RateLimiter.reset_slot, InMemoryStore.delete.
  repeat frame_step.
  all: first [ by apply (Hc SLIDING_WINDOW_LOG) | by apply (Hc TOKEN_BUCKET)
             | by apply (Hc LEAKY_BUCKET) | apply (Hc FIXED_WINDOW); simpl; eauto ].
Qed.

Lemma same_outside_log_closed keys w0 : log_closed (same_outside keys w0).
Proof. intros w r H ref k Hk. slot_simpl. by apply H. Qed.

Lemma same_state_of_outside rl rl2 key key2 w w' :
  same_outside (fun ref k => ref = RateLimiter._store rl /\
                             exists st, own_slot st (RateLimiter._build_key rl key) k) w w' ->
  RateLimiter._store rl2 <> RateLimiter._store rl \/
  RateLimiter._build_key rl2 key2 <> RateLimiter._build_key rl key ->
  same_state rl2 key2 w w'.
Proof.
  intros Hout Hne k Hk. apply Hout. intros [Hs [st Ho]].
  destruct (own_slot_unique _ _ _ _ _ Hk Ho) as [_ HK]. destruct Hne; congruence.
Qed.

Lemma rl_check_outside rl key c w :
  same_outside (fun ref k => ref = RateLimiter._store rl /\
                  own_slot (RateLimiter._strategy rl) (RateLimiter._build_key rl key) k)
    w (snd (call c (RateLimiter.check rl key) w)).
Proof.
  apply preserves_call; [|apply same_outside_refl].
  apply preserves_slot_rl_check; [apply same_outside_log_closed|].
  intros k Hk. by apply same_outside_slot_closed.
Qed.

Lemma rl_enforce_outside rl key c w :
  same_outside (fun ref k => ref = RateLimiter._store rl /\
                  own_slot (RateLimiter._strategy rl) (RateLimiter._build_key rl key) k)
    w (snd (call c (RateLimiter.enforce rl key) w)).
Proof.
  apply preserves_call; [|apply same_outside_refl].
  apply preserves_slot_rl_enforce; [apply same_outside_log_closed|].
  intros k Hk. by apply same_outside_slot_closed.
Qed.

Lemma rl_reset_outside rl key c w :
  same_outside (fun ref k => ref = RateLimiter._store rl /\
                  exists st, own_slot st (RateLimiter._build_key rl key) k)
    w (snd (call c (RateLimiter.reset rl key) w)).
Proof.
  apply preserves_call; [|apply same_outside_refl].
  apply preserves_slot_rl_reset.
  intros st k Hk. apply same_outside_slot_closed. eauto.
Qed.

Lemma same_outside_weaken (keys keys' : nat -> string -> Prop) w w' :
  (forall ref k, keys ref k -> keys' ref k) ->
  same_outside keys w w' -> same_outside keys' w w'.
Proof. intros Hsub H ref k Hk. apply H. intros Hin. apply Hk. by apply Hsub. Qed.

Lemma build_key_prefix rl1 rl2 k1 k2 :
  no_colon (RateLimiter.key_prefix rl1) = true ->
  no_colon (RateLimiter.key_prefix rl2) = true ->
  RateLimiter._build_key rl1 k1 = RateLimiter._build_key rl2 k2 ->
  RateLimiter.key_prefix rl1 = RateLimiter.key_prefix rl2.
Proof.
  intros H1 H2 E. unfold RateLimiter._build_key in E.
  by apply first_colon_split in E as [E _].
Qed.

Lemma build_key_inj (rl1 rl2 : RateLimiter.t) (k1 k2 : string) :
  String.length (RateLimiter.key_prefix rl1) = String.length (RateLimiter.key_prefix rl2) ->
  RateLimiter._build_key rl1 k1 = RateLimiter._build_key rl2 k2 ->
  RateLimiter.key_prefix rl1 = RateLimiter.key_prefix rl2 /\ k1 = k2.
Proof.
  intros Hl H. unfold RateLimiter._build_key in H.
  apply app_inj_length in H as [Hp H]; [|exact Hl].
  change (String ":" (String.substring 0 8 (hashlib.md5_hexdigest (hashlib.encode k1))
                      +:+ ":" +:+ k1) =
          String ":" (String.substring 0 8 (hashlib.md5_hexdigest (hashlib.encode k2))
                      +:+ ":" +:+ k2)) in H.
  injection H as H.
  apply app_inj_length in H as [_ H]; [|by rewrite !short_hash_length].
  change (String ":" k1 = String ":" k2) in H. injection H as H. auto.
Qed.

(** ** Truncation and numerals *)

Lemma py_int_zero_iff x : py_int x = 0 <-> (-1 < x /\ x < 1)%Q.
Proof.
  unfold py_int. destruct x as [n d]. simpl.
  rewrite Z.quot_small_iff by lia. unfold Qlt. simpl. lia.
Qed.

Lemma py_int_floor x : (0 <= x)%Q ->
  (inject_Z (py_int x) <= x)%Q /\ (x < inject_Z (py_int x) + 1)%Q.
Proof.
  intros H. split; [by apply py_int_le|].
  pose proof (py_int_lt_succ x) as Hs. rewrite inject_Z_plus in Hs. exact Hs.
Qed.

Lemma pretty_Z_zero (z : Z) : pretty z = "0" <-> z = 0.
Proof.
  split; [|by intros ->]. intros H. by apply (pretty_Z_inj z 0).
Qed.

Lemma headers_lookup r :
  headers r !! "X-RateLimit-Limit" = Some (pretty (limit r)) /\
  headers r !! "X-RateLimit-Remaining" = Some (pretty (Z.max 0 (remaining r))) /\
  headers r !! "X-RateLimit-Reset" = Some (pretty (py_int (reset_at r))) /\
  headers r !! "Retry-After" =
    Some (if allowed r then "0" else pretty (py_int (retry_after r))).
Proof.
  unfold headers. repeat split.
Qed.

(** ** The shape of the results *)


Lemma py_int_below_one x : (x < 1)%Q -> py_int x <= 0.
Proof.
  intros H. unfold py_int. destruct x as [n d]. unfold Qlt in H. simpl in *.
  assert (n < Zpos d) by lia.
  destruct (Z.le_gt_cases 0 n) as [Hn|Hn].
  - rewrite Z.quot_small by lia. lia.
  - pose proof (Z.quot_opp_l n (Zpos d) ltac:(lia)) as Ho.
    assert (0 <= (- n) ÷ Zpos d) by (apply Z.quot_pos; lia). lia.
Qed.

Lemma warnings_slot_closed L ref k : slot_closed (fun w => warnings w = L) ref k.
Proof. repeat split; intros; assumption. Qed.

Lemma strategy_check_warnings st ref K lim window c n w :
  warnings (snd (snd (Strategy.check st ref K lim window c (n, w)))) = warnings w.
Proof.
  apply (preserves_slot_strategy_check (fun w' => warnings w' = warnings w));
    [|reflexivity].
  intros k _. apply warnings_slot_closed.
Qed.

Lemma build_key_longer rl key : RateLimiter._build_key rl key <> key.
Proof.
  intros E. apply (f_equal String.length) in E. unfold RateLimiter._build_key in E.
  rewrite !string_length_app in E. cbn [String.length] in E. lia.
Qed.

(** ** Trimming the log *)

Lemma trim_length_le cutoff log :
  (List.length (SlidingWindowLog.trim cutoff log) <= List.length log)%nat.
Proof.
  induction log as [|t l IH]; simpl; [lia|].
  destruct (Qle_bool t cutoff); simpl; lia.
Qed.

(** ** The first requests of a window *)














(** ** Tiers: check against enforce *)

Lemma check_each_cons rl rest key c s :
  TieredRateLimiter.check_each (rl :: rest) key c s =
    match RateLimiter.check rl key c s with
    | (Ok r, s1) =>
        match TieredRateLimiter.check_each rest key c s1 with
        | (Ok rs, s2) => (Ok (r :: rs), s2)
        | (Raise e, s2) => (Raise e, s2)
        end
    | (Raise e, s1) => (Raise e, s1)
    end.
Proof.
  cbn [TieredRateLimiter.check_each]. unfold bind.
  destruct (RateLimiter.check rl key c s) as [[r|e] s1]; [|reflexivity].
  destruct (TieredRateLimiter.check_each rest key c s1) as [[rs|e] s2]; reflexivity.
Qed.

Lemma enforce_loop_check_each ls key c : forall acc s out s',
  TieredRateLimiter.enforce_loop ls key acc c s = (Ok out, s') <->
  exists rs,
    TieredRateLimiter.check_each ls key c s = (Ok rs, s') /\
    Forall (fun r => allowed r = true) rs /\ out = (acc ++ rs)%list.
Proof.
  induction ls as [|rl rest IH]; intros acc s out s'.
  - cbn [TieredRateLimiter.enforce_loop TieredRateLimiter.check_each]. unfold ret. split.
    + intros H. injection H as <- <-. exists []. rewrite app_nil_r. auto.
    + intros (rs & H & _ & ->). injection H as <- <-. by rewrite app_nil_r.
  - rewrite enforce_loop_cons, rl_enforce_run, check_each_cons.
    destruct (RateLimiter.check rl key c s) as [[r|e] s1].
    + destruct (allowed r) eqn:Ea.
      * rewrite IH. split.
        -- intros (rs & H & Hall & ->). exists (r :: rs). rewrite H.
           split; [reflexivity|]. split; [by constructor|]. by rewrite <- app_assoc.
        -- intros (rs & H & Hall & ->).
           destruct (TieredRateLimiter.check_each rest key c s1) as [[rs'|e] s2];
             [|discriminate].
           injection H as <- <-. inversion Hall; subst.
           exists rs'. split; [reflexivity|]. split; [assumption|]. by rewrite <- app_assoc.
      * split; [discriminate|]. intros (rs & H & Hall & _).
        destruct (TieredRateLimiter.check_each rest key c s1) as [[rs'|e] s2];
          [|discriminate].
        injection H as <- <-. inversion Hall; subst. congruence.
    + split; [discriminate|]. intros (rs & H & _). discriminate.
Qed.

(** ** Guarded calls *)







(** ** The log of the sliding window *)

Lemma trim_sorted cutoff log :
  StronglySorted Qle log -> StronglySorted Qle (SlidingWindowLog.trim cutoff log).
Proof.
  induction 1 as [|t l Hs IH Hall]; simpl; [constructor|].
  destruct (Qle_bool t cutoff); [exact IH|by constructor].
Qed.

Lemma trim_forall (P : Q -> Prop) cutoff log :
  Forall P log -> Forall P (SlidingWindowLog.trim cutoff log).
Proof.
  induction 1 as [|t l Ht Hl IH]; simpl; [constructor|].
  destruct (Qle_bool t cutoff); [exact IH|by constructor].
Qed.

Lemma sorted_snoc log now :
  StronglySorted Qle log -> Forall (fun t => (t <= now)%Q) log ->
  StronglySorted Qle (log ++ [now]).
Proof.
  induction 1 as [|t l Hs IH Hall]; intros Hle; simpl.
  - constructor; constructor.
  - inversion Hle; subst. constructor; [by apply IH|].
    apply Forall_app. split; [exact Hall|]. constructor; [assumption|constructor].
Qed.

Lemma swl_next_ok lim window now log :
  log_ok lim now log -> log_ok lim now (swl_next lim window now log).
Proof.
  intros (Hs & Hlen & Hle). unfold swl_next, swl_allowed.
  pose proof (trim_sorted (now - window) log Hs) as Hs'.
  pose proof (trim_forall _ (now - window) log Hle) as Hle'.
  pose proof (trim_length_le (now - window) log) as Hlen'.
  destruct (_ <? _) eqn:E.
  - apply Z.ltb_lt in E. split; [by apply sorted_snoc|]. split.
    + rewrite List.length_app. cbn [List.length]. lia.
    + apply Forall_app. split; [exact Hle'|]. constructor; [lra|constructor].
  - split; [exact Hs'|]. split; [lia|exact Hle'].
Qed.

Lemma log_ok_nil lim now : 0 < lim -> log_ok lim now [].
Proof. intros Hl. split; [constructor|]. split; [simpl; lia|constructor]. Qed.

Lemma swl_call_ok store K lim window c w :
  0 < lim ->
  (data_at w store (K +:+ ":swl") = None \/
   exists log, data_at w store (K +:+ ":swl") = Some (VDeque log) /\
               log_ok lim (time_time c 0) log) ->
  exists r w' log',
    call c (SlidingWindowLog.check store K lim window) w = (Ok r, w') /\
    data_at w' store (K +:+ ":swl") = Some (VDeque log') /\
    log_ok lim (time_time c 0) log'.
Proof.
  intros Hl Hslot.
  pose proof (swl_check_run store K lim window c O w) as Hrun. cbv zeta in Hrun.
  set (sk := K +:+ ":swl") in *.
  assert (Hs : data_at (snd (settle w store sk c 1)) store sk = None \/
               exists log, data_at (snd (settle w store sk c 1)) store sk = Some (VDeque log) /\
                           log_ok lim (time_time c 0) log).
  { destruct (settle_data w store sk c 1) as [E|E]; [by left|by rewrite E]. }
  destruct (settle w store sk c 1) as [n1 w1]. simpl in Hs.
  assert (Hlog : log_ok lim (time_time c 0) (as_log (data_at w1 store sk))).
  { destruct Hs as [-> | (log & -> & Hok)]; [by apply log_ok_nil|exact Hok]. }
  assert (Hty : deque_slot (data_at w1 store sk)).
  { destruct Hs as [-> | (log & -> & _)]; exact I. }
  specialize (Hrun Hty).
  pose proof (swl_next_ok lim window _ _ Hlog) as Hnext.
  destruct (swl_allowed lim window (time_time c 0) (as_log (data_at w1 store sk))) eqn:Ea.
  - eexists _, _, _. unfold call. rewrite Hrun. split; [reflexivity|].
    split; [by slot_simpl|exact Hnext].
  - destruct (swl_denied_nonempty _ _ _ _ Hl Ea) as (t0 & rest & E1 & _).
    rewrite E1 in Hrun, Hnext.
    eexists _, _, _. unfold call. rewrite Hrun. split; [reflexivity|].
    split; [by slot_simpl|exact Hnext].
Qed.

Lemma swl_run_ok store K lim window clocks :
  0 < lim -> wall_ordered clocks ->
  forall w,
    (data_at w store (K +:+ ":swl") = None \/
     exists log, data_at w store (K +:+ ":swl") = Some (VDeque log) /\
                 StronglySorted Qle log /\ Z.of_nat (List.length log) <= lim /\
                 Forall (fun c => Forall (fun t => (t <= time_time c 0)%Q) log) clocks) ->
    exists rs w',
      run_calls (SlidingWindowLog.check store K lim window) clocks w = (Ok rs, w') /\
      List.length rs = List.length clocks /\
      (clocks <> [] ->
       exists log', data_at w' store (K +:+ ":swl") = Some (VDeque log') /\
                    StronglySorted Qle log' /\ Z.of_nat (List.length log') <= lim).
Proof.
  intros Hl Hord. induction Hord as [|c rest Hrest IH Hfol]; intros w Hslot.
  - exists [], w. repeat split. intros H. contradiction.
  - assert (Hpre : data_at w store (K +:+ ":swl") = None \/
       exists log, data_at w store (K +:+ ":swl") = Some (VDeque log) /\
                   log_ok lim (time_time c 0) log).
    { destruct Hslot as [Hd | (log & Hd & Hs & Hlen & Hall)]; [by left|right].
      exists log. apply Forall_cons in Hall. split; [done|]. repeat split; tauto. }
    destruct (swl_call_ok store K lim window c w Hl Hpre)
      as (r & w1 & log1 & Hcall & Hd1 & (Hs1 & Hlen1 & Hle1)).
    destruct (IH w1) as (rs & w' & Hrun & Hlen' & Hfin).
    { right. exists log1. split; [done|]. split; [done|]. split; [done|].
      eapply Forall_impl; [exact Hfol|]. simpl. intros c' Hc'.
      eapply Forall_impl; [exact Hle1|]. simpl. intros t Ht. lra. }
    exists (r :: rs), w'. split; [simpl; by rewrite Hcall, Hrun|].
    split; [simpl; by rewrite Hlen'|]. intros _.
    destruct rest as [|c2 rest'].
    + simpl in Hrun. injection Hrun as _ <-. eauto.
    + apply Hfin. discriminate.
Qed.

(** ** What a check depends on *)

Lemma determined_ret {A} ref keys (a : A) : determined_by ref keys (ret a).
Proof. intros c n w1 w2 H. auto. Qed.

Lemma determined_raise {A} ref keys e : determined_by ref keys (@raise A e).
Proof. intros c n w1 w2 H. auto. Qed.

Lemma determined_bind {A B} ref keys (m : M A) (k : A -> M B) :
  determined_by ref keys m -> (forall a, determined_by ref keys (k a)) ->
  determined_by ref keys (bind m k).
Proof.
  intros Hm Hk c n w1 w2 H. unfold bind.
  destruct (Hm c n w1 w2 H) as (Hr & Hn & Hw).
  destruct (m c (n, w1)) as [r1 [n1 w1']], (m c (n, w2)) as [r2 [n2 w2']].
  simpl in Hr, Hn, Hw. subst r2 n2.
  destruct r1 as [a|e]; [by apply Hk|auto].
Qed.

Lemma determined_wall_now ref keys : determined_by ref keys wall_now.
Proof. intros c n w1 w2 H. auto. Qed.

Lemma determined_monotonic_now ref keys : determined_by ref keys monotonic_now.
Proof. intros c n w1 w2 H. auto. Qed.

Lemma determined_py_div ref keys a b : determined_by ref keys (py_div a b).
Proof. intros c n w1 w2 H. unfold py_div. destruct (Qeq_bool b 0); auto. Qed.

Lemma determined_logger_warning ref keys r : determined_by ref keys (logger_warning r).
Proof.
  intros c n w1 w2 H. simpl. split; [reflexivity|]. split; [reflexivity|].
  intros k Hk. slot_simpl. by apply H.
Qed.

Lemma agree_evicted ref keys k w1 w2 :
  agree_on ref keys w1 w2 -> agree_on ref keys (evicted w1 ref k) (evicted w2 ref k).
Proof. intros H k' Hk'. slot_simpl. destruct (H k' Hk'). case_decide; auto. Qed.

Lemma agree_with_data ref keys k v w1 w2 :
  agree_on ref keys w1 w2 ->
  agree_on ref keys (with_data w1 ref k v) (with_data w2 ref k v).
Proof. intros H k' Hk'. slot_simpl. destruct (H k' Hk'). case_decide; auto. Qed.

Lemma agree_with_ttl ref keys k e w1 w2 :
  agree_on ref keys w1 w2 ->
  agree_on ref keys (with_ttl w1 ref k e) (with_ttl w2 ref k e).
Proof. intros H k' Hk'. slot_simpl. destruct (H k' Hk'). case_decide; auto. Qed.

Lemma determined_get ref (keys : string -> Prop) k :
  keys k -> determined_by ref keys (InMemoryStore.get ref k).
Proof.
  intros Hk c n w1 w2 H. rewrite !get_run. destruct (H k Hk) as [Hd Ht].
  rewrite Hd, Ht. destruct (ttl_at w2 ref k) as [e|]; [|auto].
  destruct (Qlt_bool e (time_monotonic c n)); simpl; auto using agree_evicted.
Qed.

Lemma determined_set ref (keys : string -> Prop) k v ttl :
  determined_by ref keys (InMemoryStore.set ref k v ttl).
Proof.
  intros c n w1 w2 H. rewrite !set_run.
  destruct ttl; simpl; auto using agree_with_data, agree_with_ttl.
Qed.

Lemma determined_evict ref (keys : string -> Prop) k :
  determined_by ref keys (InMemoryStore._evict ref k).
Proof. intros c n w1 w2 H. rewrite !evict_run. simpl. auto using agree_evicted. Qed.

Lemma determined_incr ref (keys : string -> Prop) k ttl :
  keys k -> determined_by ref keys (InMemoryStore.incr ref k ttl).
Proof.
  intros Hk c n w1 w2 H. rewrite !incr_run. unfold settle.
  destruct (H k Hk) as [Hd Ht]. rewrite Ht.
  assert (Hgen : forall n' w1' w2',
    agree_on ref keys w1' w2' ->
    let out w := match data_at w ref k with
                 | None => InMemoryStore.set ref k (VInt 1) ttl ;;; ret 1
                 | Some (VInt v) =>
                     InMemoryStore.set ref k (VInt (v + 1))
                       (if v + 1 =? 1 then ttl else None) ;;; ret (v + 1)
                 | Some _ => raise TypeError
                 end c (n', w) in
    fst (out w1') = fst (out w2') /\
    fst (snd (out w1')) = fst (snd (out w2')) /\
    agree_on ref keys (snd (snd (out w1'))) (snd (snd (out w2')))).
  { intros n' w1' w2' H'. cbv zeta. destruct (H' k Hk) as [Hd' _]. rewrite Hd'.
    destruct (data_at w2' ref k) as [[v|l|s|s]|]; try (simpl; by auto).
    - apply (determined_bind ref keys);
        [apply determined_set|intros; apply determined_ret|exact H'].
    - apply (determined_bind ref keys);
        [apply determined_set|intros; apply determined_ret|exact H']. }
  destruct (ttl_at w2 ref k) as [e|]; [destruct (Qlt_bool e (time_monotonic c n))|].
  - apply Hgen. by apply agree_evicted.
  - by apply Hgen.
  - by apply Hgen.
Qed.

Ltac determined_step :=
  first
    [ apply determined_ret | apply determined_raise
    | apply determined_wall_now | apply determined_monotonic_now
    | apply determined_py_div
    | apply determined_set | apply determined_evict
    | apply determined_get; reflexivity
    | apply determined_incr; simpl; eauto
    | apply determined_bind; [|intros]
    | match goal with
      | |- determined_by _ _ (match ?x with _ => _ end) => destruct x
      end ].

Lemma determined_strategy_check st store K lim window :
  determined_by store (own_slot st K) (Strategy.check st store K lim window).
Proof.
  destruct st; unfold Strategy.check.
  - unfold FixedWindow.check. repeat determined_step.
  - unfold SlidingWindowLog.check. repeat determined_step.
  - unfold TokenBucket.check. repeat determined_step.
  - unfold LeakyBucket.check. repeat determined_step.
Qed.

Lemma determined_rl_check rl k :
  determined_by (RateLimiter._store rl)
    (own_slot (RateLimiter._strategy rl) (RateLimiter._build_key rl k))
    (RateLimiter.check rl k).
Proof.
  unfold RateLimiter.check.
  apply determined_bind; [apply determined_strategy_check|]. intros r.
  apply determined_bind; [|intros; apply determined_ret].
  destruct (allowed r); [apply determined_ret|apply determined_logger_warning].
Qed.


(** ** What the checks can raise *)

Lemma raises_only_ret {A} P (a : A) : raises_only P (ret a).
Proof. intros c s e s' H. discriminate. Qed.

Lemma raises_only_raise {A} (P : Exn -> Prop) e : P e -> raises_only P (@raise A e).
Proof. intros He c s e' s' H. injection H as <- _. exact He. Qed.

Lemma raises_only_bind {A B} P (m : M A) (k : A -> M B) :
  raises_only P m -> (forall a, raises_only P (k a)) -> raises_only P (bind m k).
Proof.
  intros Hm Hk c s e s' H. unfold bind in H.
  destruct (m c s) as [[a|e0] s0] eqn:E.
  - exact (Hk a c s0 e s' H).
  - injection H as <- _. exact (Hm c s e0 s0 E).
Qed.

Lemma raises_only_wall_now P : raises_only P wall_now.
Proof. intros c [n w] e s' H. discriminate. Qed.

Lemma raises_only_monotonic_now P : raises_only P monotonic_now.
Proof. intros c [n w] e s' H. discriminate. Qed.

Lemma raises_only_py_div (P : Exn -> Prop) a b :
  P ZeroDivisionError -> raises_only P (py_div a b).
Proof.
  intros HP c s e s' H. unfold py_div in H.
  destruct (Qeq_bool b 0); [|discriminate]. injection H as <- _. exact HP.
Qed.

Lemma raises_only_logger_warning P r : raises_only P (logger_warning r).
Proof. intros c [n w] e s' H. discriminate. Qed.

Lemma raises_only_get P ref k : raises_only P (InMemoryStore.get ref k).
Proof.
  intros c [n w] e s' H. rewrite get_run in H.
  destruct (ttl_at w ref k); [destruct (Qlt_bool _ _)|]; discriminate.
Qed.

Lemma raises_only_set P ref k v ttl : raises_only P (InMemoryStore.set ref k v ttl).
Proof. intros c [n w] e s' H. rewrite set_run in H. destruct ttl; discriminate. Qed.

Lemma raises_only_incr (P : Exn -> Prop) ref k ttl :
  P TypeError -> raises_only P (InMemoryStore.incr ref k ttl).
Proof.
  intros HP c [n w] e s' H. rewrite incr_run in H.
  destruct (settle w ref k c n) as [n1 w1].
  destruct (data_at w1 ref k) as [[v|l|b|b]|];
    try (injection H as <- _; exact HP).
  - unfold bind in H. rewrite set_run in H.
    destruct (if v + 1 =? 1 then ttl else None); discriminate.
  - unfold bind in H. rewrite set_run in H. destruct ttl; discriminate.
Qed.

Ltac raises_step :=
  first
    [ apply raises_only_ret
    | apply raises_only_raise; exact I
    | apply raises_only_wall_now | apply raises_only_monotonic_now
    | apply raises_only_py_div; exact I
    | apply raises_only_get | apply raises_only_set
    | apply raises_only_incr; exact I
    | apply raises_only_bind; [|intros]
    | match goal with
      | |- raises_only _ (match ?x with _ => _ end) => destruct x
      | |- raises_only _ (if ?x then _ else _) => destruct x
      end ].

Lemma raises_only_strategy_check st store K lim window :
  raises_only strategy_error (Strategy.check st store K lim window).
Proof.
  destruct st; unfold Strategy.check.
  - unfold FixedWindow.check. repeat raises_step.
  - unfold SlidingWindowLog.check. repeat raises_step.
  - unfold TokenBucket.check. repeat raises_step.
  - unfold LeakyBucket.check. repeat raises_step.
Qed.

Lemma raises_only_rl_check rl k :
  raises_only strategy_error (RateLimiter.check rl k).
Proof.
  unfold RateLimiter.check.
  apply raises_only_bind; [apply raises_only_strategy_check|]. intros r.
  apply raises_only_bind; [|intros; apply raises_only_ret].
  destruct (allowed r); [apply raises_only_ret|apply raises_only_logger_warning].
Qed.

(** [check] reports a denial as a result: it never raises
    [RateLimitExceeded]. *)
Lemma rl_check_no_rle rl key c s k ra l st s' :
  RateLimiter.check rl key c s <> (Raise (RateLimitExceeded k ra l st), s').
Proof.
  intros H. exact (raises_only_rl_check rl key c s _ s' H).
Qed.

Lemma call_run {A} (m : M A) c w :
  call c m w = (fst (m c (O, w)), snd (snd (m c (O, w)))).
Proof. unfold call. destruct (m c (O, w)) as [r [n w']]. reflexivity. Qed.

(** ** What the checks can return *)

Lemma returns_only_ret {A} (P : A -> Prop) (a : A) : P a -> returns_only P (ret a).
Proof. intros Ha c s a' s' H. injection H as <- _. exact Ha. Qed.

Lemma returns_only_bind {A B} (Q : A -> Prop) (P : B -> Prop) (m : M A) (k : A -> M B) :
  returns_only Q m -> (forall a, Q a -> returns_only P (k a)) ->
  returns_only P (bind m k).
Proof.
  intros Hm Hk c s b s' H. unfold bind in H.
  destruct (m c s) as [[a|e] s0] eqn:E; [|discriminate].
  exact (Hk a (Hm c s a s0 E) c s0 b s' H).
Qed.

Lemma returns_only_any {A} (m : M A) : returns_only (fun _ => True) m.
Proof. intros c s a s' _. exact I. Qed.

(** A step whose result does not matter for the postcondition. *)
Lemma returns_only_then {A B} (P : B -> Prop) (m : M A) (k : A -> M B) :
  (forall a, returns_only P (k a)) -> returns_only P (bind m k).
Proof.
  intros Hk. apply (returns_only_bind (fun _ => True)); [apply returns_only_any|].
  intros a _. apply Hk.
Qed.

Lemma fw_check_shape store K lim window :
  returns_only (result_shape FIXED_WINDOW K lim) (FixedWindow.check store K lim window).
Proof.
  unfold FixedWindow.check.
  apply returns_only_then; intros now.
  apply returns_only_then; intros q.
  apply returns_only_then; intros count.
  apply returns_only_ret. unfold result_shape. cbn [key limit strategy allowed
    retry_after remaining]. repeat split.
  - intros ->. reflexivity.
  - apply Z.leb_gt in H. lia.
  - apply Z.leb_gt in H. lia.
Qed.

Lemma swl_check_shape store K lim window :
  returns_only (result_shape SLIDING_WINDOW_LOG K lim)
    (SlidingWindowLog.check store K lim window).
Proof.
  unfold SlidingWindowLog.check.
  apply returns_only_then; intros now.
  apply returns_only_then; intros v.
  apply returns_only_then; intros log. cbv zeta.
  set (kept := SlidingWindowLog.trim (now - window)%Q log).
  apply returns_only_then; intros _.
  apply (returns_only_bind
           (fun ra => (Z.of_nat (List.length kept) <? lim) = true -> ra = 0%Q)).
  - destruct (Z.of_nat (List.length kept) <? lim).
    + by apply returns_only_ret.
    + intros c s a s' _. discriminate.
  - intros ra Hra. apply returns_only_ret. unfold result_shape.
    cbn [key limit strategy allowed retry_after remaining].
    repeat split; [exact Hra| |].
    + rewrite H. apply Z.ltb_ge in H. lia.
    + rewrite H. apply Z.ltb_ge in H. lia.
Qed.

Lemma tb_check_shape store K lim window :
  returns_only (result_shape TOKEN_BUCKET K lim) (TokenBucket.check store K lim window).
Proof.
  unfold TokenBucket.check.
  apply returns_only_then; intros now.
  apply returns_only_then; intros rate.
  apply returns_only_then; intros v.
  apply returns_only_then; intros state. cbv zeta.
  set (tokens1 := py_min (py_float lim) (tokens state + (now - last_refill state) * rate)).
  apply returns_only_then; intros _.
  apply (returns_only_bind (fun ra => Qle_bool 1 tokens1 = true -> ra = 0%Q)).
  - destruct (Qle_bool 1 tokens1).
    + by apply returns_only_ret.
    + intros c s a s' _. discriminate.
  - intros ra Hra.
    apply returns_only_then; intros wall.
    apply returns_only_then; intros until_full.
    apply returns_only_ret. unfold result_shape.
    cbn [key limit strategy allowed retry_after remaining].
    repeat split; [exact Hra| |congruence].
    rewrite H. apply py_int_below_one.
    apply Qlt_bool_true. unfold Qlt_bool. by rewrite H.
Qed.

Lemma lb_check_shape store K lim window :
  returns_only (result_shape LEAKY_BUCKET K lim) (LeakyBucket.check store K lim window).
Proof.
  unfold LeakyBucket.check.
  apply returns_only_then; intros now.
  apply returns_only_then; intros rate.
  apply returns_only_then; intros v.
  apply returns_only_then; intros state. cbv zeta.
  set (queue1 := Z.max 0 (queue_size state - py_int ((now - last_leak state) * rate))).
  apply returns_only_then; intros _.
  apply (returns_only_bind (fun ra => (queue1 <? lim) = true -> ra = 0%Q)).
  - destruct (queue1 <? lim).
    + by apply returns_only_ret.
    + intros c s a s' _. discriminate.
  - intros ra Hra.
    apply returns_only_then; intros wall.
    apply returns_only_then; intros drain.
    apply returns_only_ret. unfold result_shape.
    cbn [key limit strategy allowed retry_after remaining].
    repeat split; [exact Hra| |].
    + rewrite H. apply Z.ltb_ge in H. lia.
    + rewrite H. apply Z.ltb_ge in H. lia.
Qed.

Lemma strategy_check_shape st store K lim window :
  returns_only (result_shape st K lim) (Strategy.check st store K lim window).
Proof.
  destruct st; simpl.
  - apply fw_check_shape.
  - apply swl_check_shape.
  - apply tb_check_shape.
  - apply lb_check_shape.
Qed.

(** What [RateLimiter.check] returns is the strategy's result for the
    namespaced key. *)
Lemma rl_check_shape rl k c s r s' :
  RateLimiter.check rl k c s = (Ok r, s') ->
  result_shape (RateLimiter._strategy rl) (RateLimiter._build_key rl k)
    (RateLimiter.limit rl) r.
Proof.
  destruct s as [n w]. rewrite rl_check_run.
  destruct (Strategy.check _ _ _ _ _ c (n, w)) as [[r0|e] [n' w']] eqn:E; [|discriminate].
  intros H. injection H as <- _.
  exact (strategy_check_shape _ _ _ _ _ c (n, w) r0 (n', w') E).
Qed.

Lemma check_each_shape ls k c : forall s rs s',
  TieredRateLimiter.check_each ls k c s = (Ok rs, s') ->
  Forall2 (fun rl r => result_shape (RateLimiter._strategy rl)
                         (RateLimiter._build_key rl k) (RateLimiter.limit rl) r) ls rs.
Proof.
  induction ls as [|rl rest IH]; intros s rs s' H.
  - injection H as <- _. constructor.
  - rewrite check_each_cons in H.
    destruct (RateLimiter.check rl k c s) as [[r|e] s1] eqn:E1; [|discriminate].
    destruct (TieredRateLimiter.check_each rest k c s1) as [[rs1|e] s2] eqn:E2;
      [|discriminate].
    injection H as <- _. constructor; [by eapply rl_check_shape|by eapply IH].
Qed.

Lemma check_each_app ls1 ls2 k c : forall s,
  TieredRateLimiter.check_each (ls1 ++ ls2) k c s =
    match TieredRateLimiter.check_each ls1 k c s with
    | (Ok rs1, s1) =>
        match TieredRateLimiter.check_each ls2 k c s1 with
        | (Ok rs2, s2) => (Ok (rs1 ++ rs2)%list, s2)
        | (Raise e, s2) => (Raise e, s2)
        end
    | (Raise e, s1) => (Raise e, s1)
    end.
Proof.
  induction ls1 as [|rl rest IH]; intros s.
  - cbn [app].
    change (TieredRateLimiter.check_each [] k c s) with (Ok (@nil RateLimitResult), s).
    cbv beta iota.
    destruct (TieredRateLimiter.check_each ls2 k c s) as [[rs2|e] s2]; reflexivity.
  - rewrite <- List.app_comm_cons, !check_each_cons.
    destruct (RateLimiter.check rl k c s) as [[r|e] s1]; [|reflexivity].
    rewrite IH.
    destruct (TieredRateLimiter.check_each rest k c s1) as [[rs1|e] s2]; [|reflexivity].
    destruct (TieredRateLimiter.check_each ls2 k c s2) as [[rs2|e] s3]; reflexivity.
Qed.

(** ** Runs by their outcomes *)




(* ================================================================== *)
(** * The statements of the specification *)
(* ================================================================== *)

(** C9 (amended). [InMemoryStore.incr] returns the incremented count and
    stores it.  The time to live is applied whenever the new count is 1:
    when the key was absent, and also when it held the integer 0; every
    other increment of a live key leaves every stored expiry instant as it
    was.  A [get] or [incr] on a key whose expiry instant has passed evicts
    the key and goes on as on a store without it. *)
Theorem C9_incr_sets_ttl_when_count_becomes_one :
  (forall w self k ttl c n v,
      data_at w self k = Some (VInt v) -> v <> 0 ->
      live_at w self k (time_monotonic c n) ->
      exists n' w',
        InMemoryStore.incr self k ttl c (n, w) = (Ok (v + 1), (n', w')) /\
        data_at w' self k = Some (VInt (v + 1)) /\
        (forall k', ttl_at w' self k' = ttl_at w self k')) /\
  (forall w self k t c n,
      data_at w self k = Some (VInt 0) ->
      live_at w self k (time_monotonic c n) ->
      exists n' w',
        InMemoryStore.incr self k (Some t) c (n, w) = (Ok 1, (S n', w')) /\
        (n <= n')%nat /\
        data_at w' self k = Some (VInt 1) /\
        ttl_at w' self k = Some (time_monotonic c n' + t)%Q /\
        (forall k', k' <> k -> ttl_at w' self k' = ttl_at w self k')) /\
  (forall w self k t c n,
      data_at w self k = None -> ttl_at w self k = None ->
      exists w',
        InMemoryStore.incr self k (Some t) c (n, w) = (Ok 1, (S n, w')) /\
        data_at w' self k = Some (VInt 1) /\
        ttl_at w' self k = Some (time_monotonic c n + t)%Q) /\
  (forall w self k c n,
      expired_at w self k (time_monotonic c n) ->
      InMemoryStore.get self k c (n, w) = (Ok None, (S n, evicted w self k))) /\
  (forall w self k ttl c n,
      expired_at w self k (time_monotonic c n) ->
      InMemoryStore.incr self k ttl c (n, w) =
        InMemoryStore.incr self k ttl c (S n, evicted w self k) /\
      data_at (evicted w self k) self k = None /\
      ttl_at (evicted w self k) self k = None).
Proof.
  split; [|split; [|split; [|split]]].
  - intros w self k ttl c n v Hd Hv Hlive.
    rewrite incr_run. unfold settle, live_at in *.
    assert (Hne : (v + 1 =? 1) = false) by (apply Z.eqb_neq; lia).
    destruct (ttl_at w self k) as [e|] eqn:Et.
    + apply Qlt_bool_false in Hlive. rewrite Hlive, Hd, Hne.
      exists (S n), (with_data w self k (VInt (v + 1))). split; [reflexivity|].
      split; [rewrite data_at_with_data; by rewrite decide_True|].
      intros k'. apply ttl_at_with_data.
    + rewrite Hd, Hne.
      exists n, (with_data w self k (VInt (v + 1))). split; [reflexivity|].
      split; [rewrite data_at_with_data; by rewrite decide_True|].
      intros k'. apply ttl_at_with_data.
  - intros w self k t c n Hd Hlive.
    rewrite incr_run. unfold settle, live_at in *.
    destruct (ttl_at w self k) as [e|] eqn:Et.
    + apply Qlt_bool_false in Hlive. rewrite Hlive, Hd.
      exists (S n), (with_ttl (with_data w self k (VInt 1)) self k
                       (time_monotonic c (S n) + t)%Q).
      split; [reflexivity|]. split; [lia|].
      split; [by slot_simpl|]. split; [by slot_simpl|].
      intros k' Hk. slot_simpl. rewrite decide_False by (intros [_ ?]; congruence).
      reflexivity.
    + rewrite Hd.
      exists n, (with_ttl (with_data w self k (VInt 1)) self k
                   (time_monotonic c n + t)%Q).
      split; [reflexivity|]. split; [lia|].
      split; [by slot_simpl|]. split; [by slot_simpl|].
      intros k' Hk. slot_simpl. rewrite decide_False by (intros [_ ?]; congruence).
      reflexivity.
  - intros w self k t c n Hd Ht.
    rewrite incr_run. unfold settle. rewrite Ht, Hd.
    exists (with_ttl (with_data w self k (VInt 1)) self k (time_monotonic c n + t)%Q).
    split; [reflexivity|].
    split.
    + rewrite data_at_with_ttl, data_at_with_data. by rewrite decide_True.
    + rewrite ttl_at_with_ttl. by rewrite decide_True.
  - intros w self k c n (e & He & Hlt).
    rewrite get_run, He. apply Qlt_bool_true in Hlt. by rewrite Hlt.
  - intros w self k ttl c n (e & He & Hlt). apply Qlt_bool_true in Hlt.
    split; [|split].
    + rewrite !incr_run. unfold settle. rewrite He, Hlt.
      rewrite ttl_at_evicted. by rewrite decide_True.
    + rewrite data_at_evicted. by rewrite decide_True.
    + rewrite ttl_at_evicted. by rewrite decide_True.
Qed.


(** C7. A fresh [FixedWindow] limiter with limit 2 and window 60, any key:
    two checks at t = 0 are allowed with remaining 1 and 0, a third at
    t = 10 is denied with [retry_after = reset_at - now = 50], and a check
    at t = 61 is allowed with remaining 1. *)
Theorem C7_fixed_window_scenario (key : string) (w : World) :
  exists rl w0 r1 w1 r2 w2 r3 w3 r4 w4,
    call (at_time 0) (RateLimiter.__init__ 2 60 FIXED_WINDOW None "rl" false) w
      = (Ok rl, w0) /\
    call (at_time 0) (RateLimiter.check rl key) w0 = (Ok r1, w1) /\
    allowed r1 = true /\ remaining r1 = 1 /\
    call (at_time 0) (RateLimiter.check rl key) w1 = (Ok r2, w2) /\
    allowed r2 = true /\ remaining r2 = 0 /\
    call (at_time 10) (RateLimiter.check rl key) w2 = (Ok r3, w3) /\
    allowed r3 = false /\ (retry_after r3 == 50)%Q /\
    (reset_at r3 - 10 == 50)%Q /\
    call (at_time 61) (RateLimiter.check rl key) w3 = (Ok r4, w4) /\
    allowed r4 = true /\ remaining r4 = 1.
Proof.
  destruct (alloc_store (at_time 0) (O, w)) as [[ref|e] [n0 w0]] eqn:Ealloc;
    [|discriminate Ealloc].
  assert (n0 = O) by (unfold alloc_store in Ealloc; congruence). subst n0.
  pose proof (fun k => data_at_alloc w k _ _ _ _ Ealloc) as Hd0.
  pose proof (fun k => ttl_at_alloc w k _ _ _ _ Ealloc) as Ht0.
  set (rl := RateLimiter.mk 2 60 false "rl" ref FIXED_WINDOW).
  exists rl, w0.
  assert (Hinit : call (at_time 0)
            (RateLimiter.__init__ 2 60 FIXED_WINDOW None "rl" false) w = (Ok rl, w0)).
  { unfold call, RateLimiter.__init__, bind, InMemoryStore.__init__.
    rewrite Ealloc. reflexivity. }
  set (K := RateLimiter._build_key rl key).
  assert (Hw : ~ (60 == 0)%Q) by discriminate.
  assert (Hne : K +:+ ":fw:0" <> K +:+ ":fw:1").
  { intros H. apply (fw_key_inj K 0 1) in H. discriminate. }
  set (w1 := with_ttl (with_data w0 ref (K +:+ ":fw:0") (VInt 1)) ref (K +:+ ":fw:0") (0 + 60)%Q).
  set (w2 := with_data w1 ref (K +:+ ":fw:0") (VInt 2)).
  eexists _, w1, _, w2.
  do 4 eexists.
  split; [exact Hinit|].
  split.
  { unfold call, RateLimiter.check, bind at 1 2. simpl Strategy.check.
    fold K. rewrite fw_check_run by exact Hw.
    cbv zeta. change (py_int (time_time (at_time 0) 0 / 60)) with 0.
    change (pretty 0) with "0"%string.
    rewrite incr_fresh by auto. reflexivity. }
  split; [reflexivity|]. split; [reflexivity|].
  split.
  { unfold call, RateLimiter.check, bind at 1 2. simpl Strategy.check.
    fold K. rewrite fw_check_run by exact Hw.
    cbv zeta. change (py_int (time_time (at_time 0) 0 / 60)) with 0.
    change (pretty 0) with "0"%string.
    rewrite (incr_live _ _ _ _ _ _ 1 (0 + 60)%Q);
      [reflexivity | unfold w1; by slot_simpl | discriminate
      | unfold w1; by slot_simpl | discriminate]. }
  split; [reflexivity|]. split; [reflexivity|].
  split.
  { unfold call, RateLimiter.check, bind at 1 2. simpl Strategy.check.
    fold K. rewrite fw_check_run by exact Hw.
    cbv zeta. change (py_int (time_time (at_time 10) 0 / 60)) with 0.
    change (pretty 0) with "0"%string.
    rewrite (incr_live _ _ _ _ _ _ 2 (0 + 60)%Q);
      [reflexivity | unfold w2, w1; by slot_simpl | discriminate
      | unfold w2, w1; by slot_simpl | discriminate]. }
  split; [reflexivity|]. split; [reflexivity|]. split; [reflexivity|].
  split.
  { unfold call, RateLimiter.check, bind at 1 2. simpl Strategy.check.
    fold K. rewrite fw_check_run by exact Hw.
    cbv zeta. change (py_int (time_time (at_time 61) 0 / 60)) with 1.
    change (pretty 1) with "1"%string.
    rewrite incr_fresh; [reflexivity| |].
    - unfold w2, w1. slot_simpl.
      rewrite !decide_False by (intros [_ ?]; contradiction). apply Hd0.
    - unfold w2, w1. slot_simpl.
      rewrite !decide_False by (intros [_ ?]; contradiction). apply Ht0. }
  split; reflexivity.
Qed.


(** C2 (amended). The constructor validates nothing: for every limit and
    window, [limit <= 0] and [window <= 0] included, and every strategy, it
    returns a limiter holding exactly the values given; they reach the
    strategy at check time, where [window = 0] makes the fixed-window,
    token-bucket and leaky-bucket checks raise [ZeroDivisionError]. *)
Theorem C2_constructor_accepts_any_limit_and_window :
  (forall limit window strategy store key_prefix raise_on_limit c w,
      exists rl w',
        call c (RateLimiter.__init__ limit window strategy store key_prefix
                  raise_on_limit) w = (Ok rl, w') /\
        RateLimiter.limit rl = limit /\
        RateLimiter.window rl = window /\
        RateLimiter._strategy rl = strategy) /\
  (forall rl key c w,
      (RateLimiter.window rl == 0)%Q ->
      RateLimiter._strategy rl <> SLIDING_WINDOW_LOG ->
      call c (RateLimiter.check rl key) w = (Raise ZeroDivisionError, w)).
Proof.
  split.
  - intros. unfold call. rewrite init_run. destruct store; eauto 10.
  - intros rl key c w Hw Hs. unfold call. by rewrite check_window_zero.
Qed.

(** C10 (amended). [raise_on_limit] is never consulted: two limiters that
    differ in nothing else give the same outcome (the same result or the
    same error) and the same final state for every key and every state.
    In particular [check] does not raise [RateLimitExceeded] when the flag
    is [True], whatever the docstring says: a denial is returned as a
    result; what the strategy raises ([ZeroDivisionError] when the window
    is 0) is raised by both limiters alike. *)
Theorem C10_raise_on_limit_is_ignored
    (limit : Z) (window : Q) (prefix : string) (store : nat) (st : StrategyType)
    (flag1 flag2 : bool) (key : string) (c : Clock) (w : World) :
  let rl1 := RateLimiter.mk limit window flag1 prefix store st in
  let rl2 := RateLimiter.mk limit window flag2 prefix store st in
  call c (RateLimiter.check rl1 key) w = call c (RateLimiter.check rl2 key) w /\
  (forall k ra l s w',
      call c (RateLimiter.check rl1 key) w <> (Raise (RateLimitExceeded k ra l s), w')).
Proof.
  intros rl1 rl2. split; [reflexivity|].
  intros k ra l s w'. rewrite call_run.
  pose proof (rl_check_no_rle rl1 key c (O, w) k ra l s) as Hno.
  destruct (RateLimiter.check rl1 key c (O, w)) as [[r|e] [n' w1]]; cbn [fst snd].
  - discriminate.
  - intros H. injection H as -> <-. by eapply Hno.
Qed.


(** C4.  The bounds fail on a state that was just created.  Limit 1,
    window 1/128 s, a key with no stored state, and a monotonic clock that
    moves by 1/64 s between the read that opens the check and the read
    that stamps the new state: the token bucket stores [tokens = -1]
    (and reports [remaining = -1]), the leaky bucket stores
    [queue_size = 2], above its limit of 1.  The elapsed time of the first
    check is negative, because the new state is stamped after [now] was
    read. *)
Theorem C4_fresh_state_out_of_bounds :
  (exists r w' s,
      call stalled_clock (TokenBucket.check O "k" 1 (1 # 128)) empty_world = (Ok r, w') /\
      data_at w' O "k:tb" = Some (VBucket s) /\
      (tokens s == -1)%Q /\ allowed r = false /\ remaining r = -1) /\
  (exists r w' s,
      call stalled_clock (LeakyBucket.check O "k" 1 (1 # 128)) empty_world = (Ok r, w') /\
      data_at w' O "k:lb" = Some (VLeaky s) /\
      queue_size s = 2 /\ allowed r = false).
Proof.
  split.
  - eexists _, _, _. split; [vm_compute; reflexivity|].
    split; [reflexivity|]. split; [reflexivity|]. split; reflexivity.
  - eexists _, _, _. split; [vm_compute; reflexivity|].
    split; [reflexivity|]. split; reflexivity.
Qed.


(** C8 (the code at the failing input).  A token-bucket limiter with
    limit 1 and window 60, key ["k"], nothing stored: [reset] and then
    [check], with the monotonic clock one microsecond further at each
    read.  The fresh bucket stamps [last_refill] after [now] was read, the
    refill sees a negative elapsed time, and the request is denied. *)
Theorem C8_token_bucket_denies_after_reset :
  let rl := RateLimiter.mk 1 60 false "rl" O TOKEN_BUCKET in
  exists w1 r w2,
    call (ticking 0 0 usec) (RateLimiter.reset rl "k") empty_world = (Ok tt, w1) /\
    call (ticking 0 0 usec) (RateLimiter.check rl "k") w1 = (Ok r, w2) /\
    allowed r = false /\ remaining r = 0.
Proof.
  cbv zeta. eexists _, _, _.
  split; [vm_compute; reflexivity|].
  split; [vm_compute; reflexivity|].
  split; reflexivity.
Qed.

(** C6 (amended).  [TieredRateLimiter.enforce] runs [RateLimiter.enforce]
    on its tiers in list order; when the tiers before [rl] admit and [rl]
    denies, it raises [rl]'s [RateLimitExceeded] and stops in the state
    [rl]'s own check left, whatever tiers follow: they are not evaluated
    and nothing is charged to them.  For tiers (limit 3, window 5, token
    bucket) and (limit 6, window 10, fixed window), each on a store of its
    own, take seven enforce calls on one key with a monotonic clock that
    never runs backwards, stands still during the first call (so that the
    new bucket starts full) and advances by less than one second over the
    seven calls: calls 1 to 3 return, calls 4 to 7 raise, and the error
    names the token-bucket tier and its limit 3.  (Calls spread out in
    time are admitted as the bucket refills: made 2 s apart, all seven
    return.) *)
Theorem C6_tiered_enforce_short_circuits :
  (forall ls1 rl ls2 key c s rs s1 r s2,
      TieredRateLimiter.enforce_loop ls1 key [] c s = (Ok rs, s1) ->
      RateLimiter.check rl key c s1 = (Ok r, s2) ->
      allowed r = false ->
      TieredRateLimiter.enforce (TieredRateLimiter.mk (ls1 ++ rl :: ls2)) key c s =
        (Raise (RateLimitExceeded key (retry_after r) (RateLimiter.limit rl)
                  (strategy r)), s2)) /\
  (forall key w c0 c1 c2 c3 c4 c5 c6 c7 b,
      clocks_ordered [c1; c2; c3; c4; c5; c6; c7] ->
      stands_still c1 ->
      mono_span_from b 1 [c1; c2; c3; c4; c5; c6; c7] ->
      exists rl1 rl2 tiers wa wb w0,
        call c0 (RateLimiter.__init__ 3 5 TOKEN_BUCKET None "rl" false) w = (Ok rl1, wa) /\
        call c0 (RateLimiter.__init__ 6 10 FIXED_WINDOW None "rl" false) wa = (Ok rl2, wb) /\
        call c0 (TieredRateLimiter.__init__ [rl1; rl2]) wb = (Ok tiers, w0) /\
        exists a1 a2 a3 ra4 ra5 ra6 ra7 w',
          run_outcomes (TieredRateLimiter.enforce tiers key)
            [c1; c2; c3; c4; c5; c6; c7] w0 =
            ([Ok a1; Ok a2; Ok a3;
              Raise (RateLimitExceeded key ra4 3 "token_bucket");
              Raise (RateLimitExceeded key ra5 3 "token_bucket");
              Raise (RateLimitExceeded key ra6 3 "token_bucket");
              Raise (RateLimitExceeded key ra7 3 "token_bucket")], w')).
Proof.
  split; [exact enforce_short_circuit|].
  intros key w c0 c1 c2 c3 c4 c5 c6 c7 b Hord Hstill Hspan.
  apply (demo_run key w c0 c1 c2 c3 c4 c5 c6 c7 b Hord).
  - by apply stands_still_steady.
  - eapply mono_span_from_wider; [|exact Hspan]. discriminate.
Qed.

(* ================================================================== *)
(** * Examples: the theorems at concrete inputs *)
(* ================================================================== *)

(** hashlib.md5 against the digests of CPython's [hashlib]. *)
Example md5_empty :
  hashlib.md5_hexdigest (hashlib.encode "") = "d41d8cd98f00b204e9800998ecf8427e"%string.
Proof. vm_compute. reflexivity. Qed.

Example md5_abc :
  hashlib.md5_hexdigest (hashlib.encode "abc") = "900150983cd24fb0d6963f7d28e17f72"%string.
Proof. vm_compute. reflexivity. Qed.

Example md5_two_blocks :
  hashlib.md5_hexdigest (hashlib.encode
    "The quick brown fox jumps over the lazy dog and then some more text to exceed one block size.")
  = "a789aa34279c12fbc8e7fc08579cc56f"%string.
Proof. vm_compute. reflexivity. Qed.

Lemma follows_at_time t1 t2 : (t1 <= t2)%Q -> follows (at_time t1) (at_time t2).
Proof. intros H i j. exact H. Qed.







(** C2 as stated fails: constructing a limiter with limit 0 and window 0
    succeeds, and the zero window surfaces at check time. *)
Lemma C2_counterexample :
  exists rl w',
    call (at_time 0) (RateLimiter.__init__ 0 0 FIXED_WINDOW None "rl" false) empty_world
      = (Ok rl, w') /\
    RateLimiter.limit rl = 0 /\ RateLimiter.window rl = 0%Q /\
    call (at_time 0) (RateLimiter.check rl "k") w' = (Raise ZeroDivisionError, w').
Proof.
  eexists _, _. split; [reflexivity|]. split; [reflexivity|]. split; [reflexivity|].
  reflexivity.
Qed.

Lemma C2_witness :
  (RateLimiter.window (RateLimiter.mk 5 0 false "rl" O TOKEN_BUCKET) == 0)%Q /\
  RateLimiter._strategy (RateLimiter.mk 5 0 false "rl" O TOKEN_BUCKET)
    <> SLIDING_WINDOW_LOG /\
  call (at_time 0) (RateLimiter.check (RateLimiter.mk 5 0 false "rl" O TOKEN_BUCKET) "k")
    empty_world = (Raise ZeroDivisionError, empty_world).
Proof.
  assert (H1 : (RateLimiter.window (RateLimiter.mk 5 0 false "rl" O TOKEN_BUCKET) == 0)%Q)
    by reflexivity.
  assert (H2 : RateLimiter._strategy (RateLimiter.mk 5 0 false "rl" O TOKEN_BUCKET)
               <> SLIDING_WINDOW_LOG) by discriminate.
  split; [exact H1|]. split; [exact H2|].
  exact (proj2 C2_constructor_accepts_any_limit_and_window _ "k" (at_time 0)
           empty_world H1 H2).
Defined.




Lemma demo_clocks_ordered : clocks_ordered demo_clocks.
Proof. repeat constructor; apply follows_at_time; lra. Qed.

Lemma demo_clocks_span : mono_span_from 0 1 demo_clocks.
Proof. repeat constructor; simpl; lra. Qed.

Lemma stands_still_at_time t : stands_still (at_time t).
Proof. intros i. reflexivity. Qed.

Lemma spent_world_denies :
  exists r s2,
    RateLimiter.check strict_limiter "k" (at_time 1) (O, spent_world) = (Ok r, s2) /\
    allowed r = false.
Proof. eexists _, _. split; [vm_compute; reflexivity|reflexivity]. Qed.

(** C6 as stated fails in its scenario: made two seconds apart, all seven
    calls return, the fourth included. *)
Lemma C6_counterexample :
  exists rl1 rl2 tiers wa wb w0 a1 a2 a3 a4 a5 a6 a7 w',
    call (at_time 0) (RateLimiter.__init__ 3 5 TOKEN_BUCKET None "rl" false) empty_world
      = (Ok rl1, wa) /\
    call (at_time 0) (RateLimiter.__init__ 6 10 FIXED_WINDOW None "rl" false) wa
      = (Ok rl2, wb) /\
    call (at_time 0) (TieredRateLimiter.__init__ [rl1; rl2]) wb = (Ok tiers, w0) /\
    run_outcomes (TieredRateLimiter.enforce tiers "api_user") spaced_clocks w0 =
      ([Ok a1; Ok a2; Ok a3; Ok a4; Ok a5; Ok a6; Ok a7], w').
Proof.
  do 14 eexists.
  split; [reflexivity|]. split; [reflexivity|]. split; [reflexivity|].
  vm_compute. reflexivity.
Qed.

Lemma C6_witness :
  (exists e s2,
      TieredRateLimiter.enforce
        (TieredRateLimiter.mk
           ([] ++ strict_limiter :: [RateLimiter.mk 5 60 false "rl" 1%nat TOKEN_BUCKET]))
        "k" (at_time 1) (O, spent_world)
      = (Raise e, s2) /\
      fst (RateLimiter.check strict_limiter "k" (at_time 1) (O, spent_world))
      <> Raise e /\
      snd (RateLimiter.check strict_limiter "k" (at_time 1) (O, spent_world)) = s2) /\
  clocks_ordered demo_clocks /\ stands_still (at_time 0) /\
  mono_span_from 0 1 demo_clocks /\
  exists tiers w0 a1 a2 a3 ra4 ra5 ra6 ra7 w',
    run_outcomes (TieredRateLimiter.enforce tiers "api_user") demo_clocks w0 =
      ([Ok a1; Ok a2; Ok a3;
        Raise (RateLimitExceeded "api_user" ra4 3 "token_bucket");
        Raise (RateLimitExceeded "api_user" ra5 3 "token_bucket");
        Raise (RateLimitExceeded "api_user" ra6 3 "token_bucket");
        Raise (RateLimitExceeded "api_user" ra7 3 "token_bucket")], w').
Proof.
  split.
  - destruct spent_world_denies as (r & s2 & Hc & Ha).
    exists (RateLimitExceeded "k" (retry_after r) 1 (strategy r)), s2.
    split.
    + exact (proj1 C6_tiered_enforce_short_circuits [] strict_limiter
               [RateLimiter.mk 5 60 false "rl" 1%nat TOKEN_BUCKET] "k" (at_time 1)
               (O, spent_world) [] (O, spent_world) r s2 eq_refl Hc Ha).
    + rewrite Hc. split; [discriminate|reflexivity].
  - split; [exact demo_clocks_ordered|]. split; [apply stands_still_at_time|].
    split; [exact demo_clocks_span|].
    destruct (proj2 C6_tiered_enforce_short_circuits "api_user" empty_world (at_time 0)
                _ _ _ _ _ _ _ 0%Q demo_clocks_ordered (stands_still_at_time 0)
                demo_clocks_span)
      as (rl1 & rl2 & tiers & wa & wb & w0 & _ & _ & _ & Hrun).
    exists tiers, w0. exact Hrun.
Defined.

(** C9 as stated fails: an increment of an existing, unexpired key moves
    its expiry instant when the key holds 0 (from 60 to 15 here). *)
Lemma C9_counterexample :
  data_at zero_world O "c" = Some (VInt 0) /\
  ttl_at zero_world O "c" = Some 60%Q /\
  live_at zero_world O "c" (time_monotonic (at_time 0) 0) /\
  exists s',
    InMemoryStore.incr O "c" (Some 15%Q) (at_time 0) (O, zero_world) = (Ok 1, s') /\
    ttl_at (snd s') O "c" = Some (0 + 15)%Q /\
    ttl_at (snd s') O "c" <> ttl_at zero_world O "c".
Proof.
  split; [reflexivity|]. split; [reflexivity|]. split; [vm_compute; discriminate|].
  eexists. split; [reflexivity|]. split; [reflexivity|discriminate].
Qed.

Lemma C9_witness :
  (exists n' w',
      InMemoryStore.incr O "c" (Some 5%Q) (at_time 10) (O, counter_world)
        = (Ok (1 + 1), (n', w')) /\
      ttl_at w' O "c" = Some 60%Q) /\
  (exists n' w',
      InMemoryStore.incr O "c" (Some 15%Q) (at_time 0) (O, zero_world)
        = (Ok 1, (S n', w')) /\
      ttl_at w' O "c" = Some (time_monotonic (at_time 0) n' + 15)%Q) /\
  InMemoryStore.get O "c" (at_time 61) (O, counter_world)
    = (Ok None, (1%nat, evicted counter_world O "c")).
Proof.
  assert (Hd : data_at counter_world O "c" = Some (VInt 1)) by reflexivity.
  assert (Hv : 1 <> 0) by lia.
  assert (Hlive : live_at counter_world O "c" (time_monotonic (at_time 10) 0)).
  { vm_compute. discriminate. }
  assert (Hd0 : data_at zero_world O "c" = Some (VInt 0)) by reflexivity.
  assert (Hlive0 : live_at zero_world O "c" (time_monotonic (at_time 0) 0)).
  { vm_compute. discriminate. }
  assert (Hexp : expired_at counter_world O "c" (time_monotonic (at_time 61) 0)).
  { exists 60%Q. split; reflexivity. }
  destruct C9_incr_sets_ttl_when_count_becomes_one
    as (Hlive_incr & Hzero & _ & Hget & _).
  split; [|split].
  - destruct (Hlive_incr counter_world O "c"%string (Some 5%Q) (at_time 10) O 1
                Hd Hv Hlive) as (n' & w' & Hrun & _ & Httl).
    exists n', w'. split; [exact Hrun|]. rewrite Httl. reflexivity.
  - destruct (Hzero zero_world O "c"%string 15%Q (at_time 0) O Hd0 Hlive0)
      as (n' & w' & Hrun & _ & _ & Httl & _).
    exists n', w'. split; [exact Hrun|exact Httl].
  - exact (Hget counter_world O "c"%string (at_time 61) O Hexp).
Defined.

(** C10 as stated fails in its last clause: with a window of 0, [check]
    raises in both limiters, whatever their [raise_on_limit]. *)
Lemma C10_counterexample :
  call (at_time 0)
    (RateLimiter.check (RateLimiter.mk 1 0 true "rl" O FIXED_WINDOW) "k") empty_world
    = (Raise ZeroDivisionError, empty_world) /\
  call (at_time 0)
    (RateLimiter.check (RateLimiter.mk 1 0 false "rl" O FIXED_WINDOW) "k") empty_world
    = (Raise ZeroDivisionError, empty_world).
Proof. split; reflexivity. Qed.
(* ------------------------------------------------------------------ *)
(** * Further properties of the module *)
(* ------------------------------------------------------------------ *)


(** X2.  [set] without a time to live writes the value and leaves every expiry
    instant as it was: the instant an earlier write gave the key now
    applies to the new value, which the first [get] after it discards. *)
Theorem X2_store_set_without_ttl_keeps_expiry (self : nat) (k : string) (v : Value)
    (c1 c2 : Clock) (w : World) (e : Q) :
  ttl_at w self k = Some e ->
  exists w1,
    call c1 (InMemoryStore.set self k v None) w = (Ok tt, w1) /\
    data_at w1 self k = Some v /\
    (forall k', ttl_at w1 self k' = ttl_at w self k') /\
    ((e < time_monotonic c2 0)%Q ->
     exists w2,
       call c2 (InMemoryStore.get self k) w1 = (Ok None, w2) /\
       data_at w2 self k = None).
Proof.
  intros He. unfold call. rewrite set_run. eexists. split; [reflexivity|].
  split; [by slot_simpl|]. split; [intros k'; by slot_simpl|].
  intros H. rewrite get_run. slot_simpl. rewrite He.
  apply Qlt_bool_true in H. rewrite H. eexists. split; [reflexivity|]. by slot_simpl.
Qed.

(** X3.  [delete] never raises, whether the key is stored or not; afterwards
    the key has neither value nor expiry instant, [get] answers [None]
    without touching the store, and [incr] starts again at 1 with a time to
    live of its own. *)
Theorem X3_store_delete_forgets (self : nat) (k : string) (c : Clock) (w : World) :
  exists w1,
    call c (InMemoryStore.delete self k) w = (Ok tt, w1) /\
    data_at w1 self k = None /\ ttl_at w1 self k = None /\
    (forall c2, call c2 (InMemoryStore.get self k) w1 = (Ok None, w1)) /\
    (forall c2 t, exists w2,
        call c2 (InMemoryStore.incr self k (Some t)) w1 = (Ok 1, w2) /\
        data_at w2 self k = Some (VInt 1) /\
        ttl_at w2 self k = Some (time_monotonic c2 0 + t)%Q).
Proof.
  unfold call, InMemoryStore.delete. rewrite evict_run.
  assert (Hd : data_at (evicted w self k) self k = None) by by slot_simpl.
  assert (Ht : ttl_at (evicted w self k) self k = None) by by slot_simpl.
  eexists. split; [reflexivity|]. split; [exact Hd|]. split; [exact Ht|]. split.
  - intros c2. rewrite get_run, Ht, Hd. reflexivity.
  - intros c2 t. rewrite (incr_fresh _ _ _ _ _ _ Hd Ht). eexists. split; [reflexivity|].
    slot_simpl. split; reflexivity.
Qed.

(** X4.  None of [get], [set], [delete] and [incr] on a key changes the value
    or the expiry instant of any other key, or anything in another store,
    whether it returns or raises. *)
Theorem X4_store_ops_touch_one_key (self : nat) (k : string) (v : Value) (ttl : option Q) :
  touches_only self k (InMemoryStore.get self k) /\
  touches_only self k (InMemoryStore.set self k v ttl) /\
  touches_only self k (InMemoryStore.delete self k) /\
  touches_only self k (InMemoryStore.incr self k ttl).
Proof.
  split; [|split; [|split]]; apply touches_only_of_closed; intros P HP.
  - by apply preserves_slot_get.
  - by apply preserves_slot_set.
  - by apply preserves_slot_evict.
  - by apply preserves_slot_incr.
Qed.

(** X5.  Successive [incr] calls on a key that was absent, none made after the
    expiry instant the first one sets, return 1, 2, 3, ...; the instant
    stays where the first call put it (the window does not slide). *)
Theorem X5_store_incr_counts (self : nat) (k : string) (t : Q) (c0 : Clock)
    (clocks : list Clock) (w : World) :
  data_at w self k = None -> ttl_at w self k = None ->
  Forall (fun c => (time_monotonic c 0 <= time_monotonic c0 0 + t)%Q) clocks ->
  exists w',
    run_calls (InMemoryStore.incr self k (Some t)) (c0 :: clocks) w =
      (Ok (List.map Z.of_nat (List.seq 1 (S (List.length clocks)))), w') /\
    data_at w' self k = Some (VInt (Z.of_nat (S (List.length clocks)))) /\
    ttl_at w' self k = Some (time_monotonic c0 0 + t)%Q.
Proof.
  intros Hd Ht Hall.
  set (w1 := with_ttl (with_data w self k (VInt 1)) self k (time_monotonic c0 0 + t)%Q).
  assert (Hrun : call c0 (InMemoryStore.incr self k (Some t)) w = (Ok 1, w1)).
  { unfold call. rewrite (incr_fresh _ _ _ _ _ _ Hd Ht). reflexivity. }
  destruct (incr_run_live self k t clocks w1 1 (time_monotonic c0 0 + t)%Q ltac:(lia)
              ltac:(unfold w1; by slot_simpl) ltac:(unfold w1; by slot_simpl) Hall)
    as (w' & Hr & Hd' & Ht').
  exists w'. cbn [run_calls]. rewrite Hrun, Hr. split; [|split].
  - cbn [List.seq List.map].
    rewrite (map_seq_succ Z.of_nat (fun i => 1 + Z.of_nat i) 1) by (intros i; lia).
    reflexivity.
  - rewrite Hd'. do 2 f_equal. lia.
  - exact Ht'.
Qed.

(** X6.  [incr] on a key that holds something other than an integer, and has
    not expired, raises [TypeError] and leaves the store as it was. *)
Theorem X6_store_incr_type_error (self : nat) (k : string) (ttl : option Q)
    (c : Clock) (w : World) (v : Value) :
  data_at w self k = Some v -> (forall n, v <> VInt n) ->
  live_at w self k (time_monotonic c 0) ->
  call c (InMemoryStore.incr self k ttl) w = (Raise TypeError, w).
Proof.
  intros Hd Hv Hlive. unfold call. rewrite incr_run.
  pose proof (settle_live w self k c O Hlive) as Hs.
  destruct (settle w self k c O) as [n1 w1]. simpl in Hs. subst w1.
  rewrite Hd. destruct v; try reflexivity. exfalso. by eapply Hv.
Qed.


(** X7.  The [Retry-After] header is the whole number of seconds below
    [retry_after]: ["0"] for an allowed result, and for a denied one the
    numeral of [int(retry_after)], so that the header reads ["0"] exactly
    when the result is allowed or less than a second is left to wait. *)
Theorem X7_headers_retry_after_rounds_down (r : RateLimitResult) :
  (allowed r = true -> headers r !! "Retry-After" = Some "0") /\
  (allowed r = false ->
   exists n : Z,
     headers r !! "Retry-After" = Some (pretty n) /\
     ((0 <= retry_after r)%Q ->
      (inject_Z n <= retry_after r)%Q /\ (retry_after r < inject_Z n + 1)%Q)) /\
  (headers r !! "Retry-After" = Some "0" <->
   allowed r = true \/ (-1 < retry_after r /\ retry_after r < 1)%Q).
Proof.
  destruct (headers_lookup r) as (_ & _ & _ & H). rewrite H. clear H.
  split; [by intros ->|]. split.
  - intros ->. exists (py_int (retry_after r)). split; [reflexivity|]. apply py_int_floor.
  - destruct (allowed r).
    + split; auto.
    + split.
      * intros E. right. apply py_int_zero_iff, pretty_Z_zero. congruence.
      * intros [?|E]; [discriminate|]. apply py_int_zero_iff, pretty_Z_zero in E.
        by rewrite E.
Qed.

(** X8.  The headers are the four standard fields and nothing else; they carry
    the limit, the remaining quota cut off at zero and the reset time in
    whole seconds, so that these can be read back from them; the key and
    the strategy are not sent. *)
Theorem X8_headers_carry_limit_remaining_reset (r1 r2 : RateLimitResult) :
  dom (headers r1) =
    ({[ "X-RateLimit-Limit"; "X-RateLimit-Remaining"; "X-RateLimit-Reset";
        "Retry-After" ]} : gset string) /\
  (headers r1 = headers r2 ->
   limit r1 = limit r2 /\
   Z.max 0 (remaining r1) = Z.max 0 (remaining r2) /\
   py_int (reset_at r1) = py_int (reset_at r2)) /\
  (limit r1 = limit r2 -> remaining r1 = remaining r2 ->
   reset_at r1 = reset_at r2 -> allowed r1 = allowed r2 ->
   retry_after r1 = retry_after r2 -> headers r1 = headers r2).
Proof.
  split; [|split].
  - unfold headers. rewrite !dom_insert_L, dom_singleton_L. set_solver.
  - intros E.
    destruct (headers_lookup r1) as (H1 & H2 & H3 & _).
    destruct (headers_lookup r2) as (G1 & G2 & G3 & _).
    rewrite E in H1, H2, H3. rewrite G1 in H1. rewrite G2 in H2. rewrite G3 in H3.
    injection H1 as H1. injection H2 as H2. injection H3 as H3.
    apply pretty_Z_inj in H1, H2, H3. auto.
  - intros E1 E2 E3 E4 E5. unfold headers. by rewrite E1, E2, E3, E4, E5.
Qed.




(** X13.  The log of the sliding window stays as [check] expects it: on a key
    with no log, after any run of checks (at least one) made with a wall
    clock that does not run backwards from one call to the next, and
    whatever the window, the stored log is ascending and has at most
    [limit] entries; every check returns. *)
Theorem X13_swl_log_stays_sorted_and_bounded (store : nat) (K : string) (lim : Z)
    (window : Q) (clocks : list Clock) (w : World) :
  0 < lim -> wall_ordered clocks -> clocks <> [] ->
  data_at w store (K +:+ ":swl") = None ->
  exists rs w' log,
    run_calls (SlidingWindowLog.check store K lim window) clocks w = (Ok rs, w') /\
    List.length rs = List.length clocks /\
    data_at w' store (K +:+ ":swl") = Some (VDeque log) /\
    StronglySorted Qle log /\ Z.of_nat (List.length log) <= lim.
Proof.
  intros Hl Hord Hne Hd.
  destruct (swl_run_ok store K lim window clocks Hl Hord w (or_introl Hd))
    as (rs & w' & Hrun & Hlen & Hfin).
  destruct (Hfin Hne) as (log & Hd' & Hs & Hlen').
  exists rs, w', log. auto.
Qed.





(** X18.  Two limiters whose prefixes have the same length (the same prefix,
    say) never give two different caller keys the same namespaced key. *)
Theorem X18_build_key_injective (rl1 rl2 : RateLimiter.t) (k1 k2 : string) :
  String.length (RateLimiter.key_prefix rl1) = String.length (RateLimiter.key_prefix rl2) ->
  RateLimiter._build_key rl1 k1 = RateLimiter._build_key rl2 k2 ->
  RateLimiter.key_prefix rl1 = RateLimiter.key_prefix rl2 /\ k1 = k2.
Proof.
  intros Hl H. unfold RateLimiter._build_key in H.
  apply app_inj_length in H as [Hp H]; [|exact Hl].
  change (String ":" (String.substring 0 8 (hashlib.md5_hexdigest (hashlib.encode k1))
                      +:+ ":" +:+ k1) =
          String ":" (String.substring 0 8 (hashlib.md5_hexdigest (hashlib.encode k2))
                      +:+ ":" +:+ k2)) in H.
  injection H as H.
  apply app_inj_length in H as [_ H]; [|by rewrite !short_hash_length].
  change (String ":" k1 = String ":" k2) in H. injection H as H. auto.
Qed.

(** X19.  The namespacing is not proof against a prefix that contains a colon:
    for every limiter and key there are another key and a longer prefix
    that give the same namespaced key. *)
Theorem X19_build_key_prefix_collision (rl : RateLimiter.t) (key : string) :
  let short_hash k := String.substring 0 8 (hashlib.md5_hexdigest (hashlib.encode k)) in
  let key' := short_hash key +:+ ":" +:+ key in
  let rl' := RateLimiter.mk (RateLimiter.limit rl) (RateLimiter.window rl)
               (RateLimiter.raise_on_limit rl)
               (RateLimiter.key_prefix rl +:+ ":" +:+ short_hash key')
               (RateLimiter._store rl) (RateLimiter._strategy rl) in
  RateLimiter._build_key rl' key = RateLimiter._build_key rl key' /\ key' <> key.
Proof.
  intros short_hash key' rl'. split.
  - unfold RateLimiter._build_key, rl'. cbn [RateLimiter.key_prefix].
    fold (short_hash key) (short_hash key'). fold key'.
    rewrite !string_app_assoc. reflexivity.
  - intros E. apply (f_equal String.length) in E. unfold key' in E.
    rewrite !string_length_app in E. cbn [String.length] in E. lia.
Qed.

(** X20.  Whatever the strategy, the configuration and the state, a result
    that [check] returns either allows the request, with
    [retry_after = 0], or denies it and reports no quota left: [remaining]
    is 0, and for the token bucket never positive. *)
Theorem X20_denied_results_report_no_quota (rl : RateLimiter.t) (k : string)
    (c : Clock) (w : World) (r : RateLimitResult) (w' : World) :
  call c (RateLimiter.check rl k) w = (Ok r, w') ->
  (allowed r = true -> retry_after r = 0%Q) /\
  (allowed r = false ->
   remaining r <= 0 /\ (RateLimiter._strategy rl <> TOKEN_BUCKET -> remaining r = 0)).
Proof.
  rewrite call_run. intros H.
  destruct (RateLimiter.check rl k c (O, w)) as [[r0|e] [n' w1]] eqn:E; [|discriminate].
  injection H as <- <-.
  destruct (rl_check_shape rl k c (O, w) r0 (n', w1) E) as (_ & _ & _ & Ha & Hd).
  auto.
Qed.

(** X21.  A result that [check] returns carries the namespaced key
    ([prefix:hash:key]), never the caller's own, with the limiter's limit
    and the name of its strategy; a denial sends exactly one record to the
    log, with the caller's key, and an admission sends none.  When [check]
    raises, nothing is logged. *)
Theorem X21_check_reports_namespaced_key (rl : RateLimiter.t) (k : string)
    (c : Clock) (w : World) :
  (forall r w',
      call c (RateLimiter.check rl k) w = (Ok r, w') ->
      key r = RateLimiter._build_key rl k /\
      key r <> k /\
      limit r = RateLimiter.limit rl /\
      strategy r = Strategy.name (RateLimiter._strategy rl) /\
      warnings w' =
        (warnings w ++
         if allowed r then [] else [mkLog k (strategy r) (retry_after r)])%list) /\
  (forall e w',
      call c (RateLimiter.check rl k) w = (Raise e, w') -> warnings w' = warnings w).
Proof.
  pose proof (strategy_check_warnings (RateLimiter._strategy rl) (RateLimiter._store rl)
                (RateLimiter._build_key rl k) (RateLimiter.limit rl)
                (RateLimiter.window rl) c O w) as Hwarn.
  pose proof (rl_check_shape rl k c (O, w)) as Hshape.
  rewrite call_run. rewrite rl_check_run in Hshape |- *.
  destruct (Strategy.check _ _ _ _ _ c (O, w)) as [[r0|e0] [n' w1]]; simpl in Hwarn.
  - split; [|discriminate]. intros r w' H. injection H as <- <-.
    destruct (Hshape r0 _ eq_refl) as (Hk & Hlim & Hs & _).
    rewrite Hk. split; [reflexivity|]. split; [apply build_key_longer|].
    split; [exact Hlim|]. split; [exact Hs|].
    destruct (allowed r0); simpl; rewrite Hwarn; [by rewrite app_nil_r|reflexivity].
  - split; [discriminate|]. intros e w' H. injection H as _ <-. exact Hwarn.
Qed.


(** X22.  [check] and [enforce] change nothing but the slots of the
    limiter's own strategy under its namespaced key: the state any limiter
    keeps in another store, under another strategy or under another
    namespaced key is left as it was, whether the call returns or raises. *)
Theorem X22_check_touches_own_state_only (rl rl2 : RateLimiter.t) (key key2 : string)
    (c : Clock) (w : World) :
  RateLimiter._store rl2 <> RateLimiter._store rl \/
  RateLimiter._strategy rl2 <> RateLimiter._strategy rl \/
  RateLimiter._build_key rl2 key2 <> RateLimiter._build_key rl key ->
  same_state rl2 key2 w (snd (call c (RateLimiter.check rl key) w)) /\
  same_state rl2 key2 w (snd (call c (RateLimiter.enforce rl key) w)).
Proof.
  intros Hne.
  assert (Hout : forall k,
             own_slot (RateLimiter._strategy rl2) (RateLimiter._build_key rl2 key2) k ->
             ~ (RateLimiter._store rl2 = RateLimiter._store rl /\
                own_slot (RateLimiter._strategy rl) (RateLimiter._build_key rl key) k)).
  { intros k Hk [Hs Ho]. destruct (own_slot_unique _ _ _ _ _ Hk Ho) as [Hst HK].
    destruct Hne as [?|[?|?]]; congruence. }
  split; intros k Hk.
  - apply (rl_check_outside rl key c w). by apply Hout.
  - apply (rl_enforce_outside rl key c w). by apply Hout.
Qed.

(** X23.  The outcome of [check] depends on nothing but the state the limiter
    keeps for the key: from two heaps that agree on it the result is the
    same and the two states agree again afterwards.  So a check by any
    limiter on another store, with another strategy or under another
    namespaced key, made in between, does not change the outcome. *)
Theorem X23_check_outcome_depends_on_own_state (rl rl2 : RateLimiter.t) (k k2 : string)
    (c c2 : Clock) (w w2 : World) :
  (same_state rl k w w2 ->
   fst (call c (RateLimiter.check rl k) w) = fst (call c (RateLimiter.check rl k) w2) /\
   same_state rl k (snd (call c (RateLimiter.check rl k) w))
     (snd (call c (RateLimiter.check rl k) w2))) /\
  (RateLimiter._store rl2 <> RateLimiter._store rl \/
   RateLimiter._strategy rl2 <> RateLimiter._strategy rl \/
   RateLimiter._build_key rl2 k2 <> RateLimiter._build_key rl k ->
   fst (call c (RateLimiter.check rl k) (snd (call c2 (RateLimiter.check rl2 k2) w)))
   = fst (call c (RateLimiter.check rl k) w)).
Proof.
  assert (Hdet : forall wa wb,
    same_state rl k wa wb ->
    fst (call c (RateLimiter.check rl k) wa) = fst (call c (RateLimiter.check rl k) wb) /\
    same_state rl k (snd (call c (RateLimiter.check rl k) wa))
      (snd (call c (RateLimiter.check rl k) wb))).
  { intros wa wb H.
    assert (Hag : agree_on (RateLimiter._store rl)
                    (own_slot (RateLimiter._strategy rl) (RateLimiter._build_key rl k)) wa wb).
    { intros k' Hk'. destruct (H k' Hk') as [-> ->]. auto. }
    destruct (determined_rl_check rl k c O wa wb Hag) as (Hr & _ & Hw).
    unfold call.
    destruct (RateLimiter.check rl k c (O, wa)) as [ra [na wa']],
             (RateLimiter.check rl k c (O, wb)) as [rb [nb wb']].
    simpl in *. split; [exact Hr|].
    intros k' Hk'. destruct (Hw k' Hk') as [-> ->]. auto. }
  split; [apply Hdet|].
  intros Hne. symmetry. apply Hdet.
  intros k' Hk'.
  apply (rl_check_outside rl2 k2 c2 w). intros [Hs Ho].
  destruct (own_slot_unique _ _ _ _ _ Hk' Ho) as [Hst HK].
  destruct Hne as [?|[?|?]]; congruence.
Qed.


(** X24.  Under one prefix the caller's keys are independent: [check], [enforce]
    and [reset] on a key leave the state kept for every other key as it
    was, whatever the strategies of the limiters involved. *)
Theorem X24_distinct_keys_are_independent (rl rl2 : RateLimiter.t) (key key2 : string)
    (c : Clock) (w : World) :
  RateLimiter.key_prefix rl2 = RateLimiter.key_prefix rl ->
  key2 <> key ->
  same_state rl2 key2 w (snd (call c (RateLimiter.check rl key) w)) /\
  same_state rl2 key2 w (snd (call c (RateLimiter.enforce rl key) w)) /\
  same_state rl2 key2 w (snd (call c (RateLimiter.reset rl key) w)).
Proof.
  intros Hp Hk.
  assert (HK : RateLimiter._build_key rl2 key2 <> RateLimiter._build_key rl key).
  { intros E. apply build_key_inj in E as [_ E]; [contradiction|by rewrite Hp]. }
  split; [|split]; apply (same_state_of_outside rl rl2 key key2); try (right; exact HK).
  - eapply same_outside_weaken; [|apply rl_check_outside]. simpl. intros ref k [? ?]. eauto.
  - eapply same_outside_weaken; [|apply rl_enforce_outside]. simpl. intros ref k [? ?]. eauto.
  - apply rl_reset_outside.
Qed.

(** X25.  Limiters with different prefixes, neither containing a colon, can
    share a store: [check], [enforce] and [reset] of the one leave the state
    of the other as it was, for all keys and strategies. *)
Theorem X25_distinct_prefixes_are_independent (rl rl2 : RateLimiter.t) (key key2 : string)
    (c : Clock) (w : World) :
  no_colon (RateLimiter.key_prefix rl) = true ->
  no_colon (RateLimiter.key_prefix rl2) = true ->
  RateLimiter.key_prefix rl2 <> RateLimiter.key_prefix rl ->
  same_state rl2 key2 w (snd (call c (RateLimiter.check rl key) w)) /\
  same_state rl2 key2 w (snd (call c (RateLimiter.enforce rl key) w)) /\
  same_state rl2 key2 w (snd (call c (RateLimiter.reset rl key) w)).
Proof.
  intros H1 H2 Hp.
  assert (HK : RateLimiter._build_key rl2 key2 <> RateLimiter._build_key rl key).
  { intros E. by apply build_key_prefix in E. }
  split; [|split]; apply (same_state_of_outside rl rl2 key key2); try (right; exact HK).
  - eapply same_outside_weaken; [|apply rl_check_outside]. simpl. intros ref k [? ?]. eauto.
  - eapply same_outside_weaken; [|apply rl_enforce_outside]. simpl. intros ref k [? ?]. eauto.
  - apply rl_reset_outside.
Qed.





(** X29.  [TieredRateLimiter()] with no limiter raises [ValueError], and
    with at least one it keeps the limiters as given.  When [check]
    returns, it returns exactly one result per tier, in the order of the
    tiers, each carrying its own tier's namespaced key, limit and strategy
    name, whether it allows or denies.  When a tier's check raises after
    the tiers before it returned, [check] raises the same error, against
    its docstring, and the tiers after it are not asked. *)
Theorem X29_tiered_check_one_result_per_tier (ls : list RateLimiter.t) (k : string)
    (c0 c : Clock) (w : World) :
  (ls = [] -> call c0 (TieredRateLimiter.__init__ ls) w = (Raise ValueError, w)) /\
  (ls <> [] ->
   call c0 (TieredRateLimiter.__init__ ls) w = (Ok (TieredRateLimiter.mk ls), w)) /\
  (forall rs w',
      call c (TieredRateLimiter.check (TieredRateLimiter.mk ls) k) w = (Ok rs, w') ->
      Forall2 (fun rl r => key r = RateLimiter._build_key rl k /\
                           limit r = RateLimiter.limit rl /\
                           strategy r = Strategy.name (RateLimiter._strategy rl)) ls rs) /\
  (forall ls1 rl ls2 rs1 s1 e s2,
      ls = (ls1 ++ rl :: ls2)%list ->
      TieredRateLimiter.check_each ls1 k c (O, w) = (Ok rs1, s1) ->
      RateLimiter.check rl k c s1 = (Raise e, s2) ->
      call c (TieredRateLimiter.check (TieredRateLimiter.mk ls) k) w = (Raise e, snd s2)).
Proof.
  split; [intros ->; reflexivity|].
  split; [intros Hne; destruct ls; [contradiction|reflexivity]|].
  split.
  - intros rs w'. rewrite call_run.
    unfold TieredRateLimiter.check. cbn [TieredRateLimiter.limiters].
    destruct (TieredRateLimiter.check_each ls k c (O, w)) as [[rs0|e] [n' w1]] eqn:E;
      [|discriminate].
    intros H. injection H as <- <-.
    eapply Forall2_impl; [exact (check_each_shape ls k c _ _ _ E)|].
    intros rl r (Hk & Hl & Hs & _). auto.
  - intros ls1 rl ls2 rs1 s1 e s2 -> H1 H2. rewrite call_run.
    unfold TieredRateLimiter.check. cbn [TieredRateLimiter.limiters].
    rewrite check_each_app, H1, check_each_cons, H2. reflexivity.
Qed.


(** X30.  [enforce] returns exactly when [check] returns a list in which every
    tier allows, and then it returns that list and stops in the same state;
    when [check] reports a denial, or raises, [enforce] does not return. *)
Theorem X30_tiered_enforce_returns_what_check_allows (tiers : TieredRateLimiter.t)
    (k : string) (c : Clock) (w : World) (rs : list RateLimitResult) (w' : World) :
  call c (TieredRateLimiter.enforce tiers k) w = (Ok rs, w') <->
  call c (TieredRateLimiter.check tiers k) w = (Ok rs, w') /\
  Forall (fun r => allowed r = true) rs.
Proof.
  unfold call, TieredRateLimiter.enforce, TieredRateLimiter.check.
  pose proof (enforce_loop_check_each (TieredRateLimiter.limiters tiers) k c [] (O, w)) as H.
  destruct (TieredRateLimiter.enforce_loop _ k [] c (O, w)) as [[out|e] [n1 w1]] eqn:E1;
    destruct (TieredRateLimiter.check_each _ k c (O, w)) as [[out2|e2] [n2 w2]] eqn:E2.
  - destruct (H out (n1, w1)) as [(rs0 & Hc & Hall & ->) _]; [reflexivity|].
    injection Hc as <- <- <-. cbn [app]. split.
    + intros Heq. injection Heq as <- <-. auto.
    + intros [Heq _]. exact Heq.
  - destruct (H out (n1, w1)) as [(rs0 & Hc & _) _]; [reflexivity|]. discriminate.
  - split; [discriminate|]. intros [Heq Hall]. injection Heq as <- <-.
    destruct (H out2 (n2, w2)) as [_ Hback].
    specialize (Hback (ex_intro _ out2 (conj eq_refl (conj Hall eq_refl)))). discriminate.
  - split; [discriminate|]. intros [Heq _]. discriminate.
Qed.

(** ** The further properties at concrete inputs *)


Lemma X2_witness :
  ttl_at counter_world O "c" = Some 60%Q /\
  exists w1,
    call (at_time 0) (InMemoryStore.set O "c" (VInt 9) None) counter_world = (Ok tt, w1) /\
    data_at w1 O "c" = Some (VInt 9) /\
    (60 < time_monotonic (at_time 61) 0)%Q /\
    exists w2, call (at_time 61) (InMemoryStore.get O "c") w1 = (Ok None, w2).
Proof.
  assert (Ht : ttl_at counter_world O "c" = Some 60%Q) by reflexivity.
  assert (Hlate : (60 < time_monotonic (at_time 61) 0)%Q) by (simpl; lra).
  split; [exact Ht|].
  destruct (X2_store_set_without_ttl_keeps_expiry O "c"%string (VInt 9) (at_time 0)
              (at_time 61) counter_world 60%Q Ht) as (w1 & H1 & H2 & _ & H4).
  exists w1. split; [exact H1|]. split; [exact H2|]. split; [exact Hlate|].
  destruct (H4 Hlate) as (w2 & Hg & _). exists w2. exact Hg.
Defined.

Lemma X5_witness :
  data_at empty_world O "c" = None /\ ttl_at empty_world O "c" = None /\
  Forall (fun c => (time_monotonic c 0 <= time_monotonic (at_time 0) 0 + 5)%Q)
    [at_time 1; at_time 2] /\
  exists w',
    run_calls (InMemoryStore.incr O "c" (Some 5%Q)) [at_time 0; at_time 1; at_time 2]
      empty_world = (Ok [1; 2; 3], w') /\
    ttl_at w' O "c" = Some (0 + 5)%Q.
Proof.
  assert (Hd : data_at empty_world O "c" = None) by reflexivity.
  assert (Ht : ttl_at empty_world O "c" = None) by reflexivity.
  assert (Hall : Forall (fun c => (time_monotonic c 0 <= time_monotonic (at_time 0) 0 + 5)%Q)
                   [at_time 1; at_time 2]) by (repeat constructor; simpl; lra).
  split; [exact Hd|]. split; [exact Ht|]. split; [exact Hall|].
  destruct (X5_store_incr_counts O "c"%string 5%Q (at_time 0) [at_time 1; at_time 2]
              empty_world Hd Ht Hall) as (w' & H1 & _ & H3).
  exists w'. split; [exact H1|exact H3].
Defined.

Lemma X6_witness :
  data_at logged_world O "k:swl" = Some (VDeque [1; 2]%Q) /\
  live_at logged_world O "k:swl" (time_monotonic (at_time 0) 0) /\
  call (at_time 0) (InMemoryStore.incr O "k:swl" (Some 5%Q)) logged_world
    = (Raise TypeError, logged_world).
Proof.
  assert (Hd : data_at logged_world O "k:swl" = Some (VDeque [1; 2]%Q)) by reflexivity.
  assert (Hv : forall n, VDeque [1; 2]%Q <> VInt n) by (intros n; discriminate).
  assert (Hlive : live_at logged_world O "k:swl" (time_monotonic (at_time 0) 0))
    by (vm_compute; discriminate).
  split; [exact Hd|]. split; [exact Hlive|].
  exact (X6_store_incr_type_error O "k:swl"%string (Some 5%Q) (at_time 0) logged_world
           (VDeque [1; 2]%Q) Hd Hv Hlive).
Defined.

Lemma X7_witness :
  exists n : Z,
    headers (mkResult false "k" 0 2 60 (7 # 2) "fixed_window") !! "Retry-After"
      = Some (pretty n) /\
    (inject_Z n <= 7 # 2)%Q /\ (7 # 2 < inject_Z n + 1)%Q.
Proof.
  destruct (X7_headers_retry_after_rounds_down
              (mkResult false "k" 0 2 60 (7 # 2) "fixed_window")) as (_ & H & _).
  destruct (H eq_refl) as (n & Hn & Hb).
  assert (Hpos : (0 <= retry_after (mkResult false "k" 0 2 60 (7 # 2) "fixed_window"))%Q)
    by (simpl; lra).
  exists n. split; [exact Hn|]. exact (Hb Hpos).
Defined.






Lemma X13_witness :
  0 < 2 /\ wall_ordered burst_clocks /\ burst_clocks <> [] /\
  exists rs w' log,
    run_calls (SlidingWindowLog.check O "k" 2 2) burst_clocks empty_world = (Ok rs, w') /\
    List.length rs = List.length burst_clocks /\
    data_at w' O "k:swl" = Some (VDeque log) /\
    StronglySorted Qle log /\ Z.of_nat (List.length log) <= 2.
Proof.
  assert (Hl : 0 < 2) by lia.
  assert (Hord : wall_ordered burst_clocks) by (repeat constructor; simpl; lra).
  assert (Hne : burst_clocks <> []) by discriminate.
  split; [exact Hl|]. split; [exact Hord|]. split; [exact Hne|].
  exact (X13_swl_log_stays_sorted_and_bounded O "k"%string 2 2 burst_clocks empty_world
           Hl Hord Hne eq_refl).
Defined.



Lemma X18_witness :
  let rl2 := RateLimiter.mk 5 1 false "rl" O TOKEN_BUCKET in
  String.length (RateLimiter.key_prefix strict_limiter)
    = String.length (RateLimiter.key_prefix rl2) /\
  RateLimiter._build_key strict_limiter "k" = RateLimiter._build_key rl2 "k" /\
  RateLimiter.key_prefix strict_limiter = RateLimiter.key_prefix rl2 /\
  ("k" : string) = "k".
Proof.
  intros rl2.
  assert (Hlen : String.length (RateLimiter.key_prefix strict_limiter)
                 = String.length (RateLimiter.key_prefix rl2)) by reflexivity.
  assert (HK : RateLimiter._build_key strict_limiter "k" = RateLimiter._build_key rl2 "k")
    by reflexivity.
  split; [exact Hlen|]. split; [exact HK|].
  exact (X18_build_key_injective strict_limiter rl2 "k"%string "k"%string Hlen HK).
Defined.

Lemma X20_witness :
  exists r w',
    call (at_time 1) (RateLimiter.check strict_limiter "k") spent_world = (Ok r, w') /\
    allowed r = false /\ remaining r = 0.
Proof.
  assert (H : exists r w',
    call (at_time 1) (RateLimiter.check strict_limiter "k") spent_world = (Ok r, w') /\
    allowed r = false).
  { eexists _, _. split; [vm_compute; reflexivity|reflexivity]. }
  destruct H as (r & w' & H & Ha).
  exists r, w'. split; [exact H|]. split; [exact Ha|].
  destruct (X20_denied_results_report_no_quota strict_limiter "k"%string (at_time 1)
              spent_world r w' H) as [_ Hd].
  apply (Hd Ha). discriminate.
Defined.

Lemma X21_witness :
  exists r w',
    call (at_time 1) (RateLimiter.check strict_limiter "k") spent_world = (Ok r, w') /\
    key r = "rl:8ce4b16b:k"%string /\
    warnings w' = [mkLog "k" "fixed_window" (retry_after r)].
Proof.
  assert (H : exists r w',
    call (at_time 1) (RateLimiter.check strict_limiter "k") spent_world = (Ok r, w') /\
    allowed r = false /\ strategy r = "fixed_window"%string).
  { eexists _, _. split; [vm_compute; reflexivity|]. split; reflexivity. }
  destruct H as (r & w' & H & Ha & Hs).
  exists r, w'. split; [exact H|].
  destruct (proj1 (X21_check_reports_namespaced_key strict_limiter "k"%string (at_time 1)
                     spent_world) r w' H) as (Hk & _ & _ & _ & Hw).
  split; [rewrite Hk; vm_compute; reflexivity|].
  rewrite Hw, Ha, Hs. reflexivity.
Defined.

Lemma X22_witness :
  let rl2 := RateLimiter.mk 5 1 false "rl" O TOKEN_BUCKET in
  (RateLimiter._store rl2 <> RateLimiter._store strict_limiter \/
   RateLimiter._strategy rl2 <> RateLimiter._strategy strict_limiter \/
   RateLimiter._build_key rl2 "k" <> RateLimiter._build_key strict_limiter "k") /\
  same_state rl2 "k" empty_world
    (snd (call (at_time 0) (RateLimiter.check strict_limiter "k") empty_world)).
Proof.
  intros rl2.
  assert (Hne : RateLimiter._store rl2 <> RateLimiter._store strict_limiter \/
                RateLimiter._strategy rl2 <> RateLimiter._strategy strict_limiter \/
                RateLimiter._build_key rl2 "k" <> RateLimiter._build_key strict_limiter "k")
    by (right; left; discriminate).
  split; [exact Hne|].
  exact (proj1 (X22_check_touches_own_state_only strict_limiter rl2 "k"%string "k"%string
                  (at_time 0) empty_world Hne)).
Defined.

Lemma X23_witness :
  let rl2 := RateLimiter.mk 5 1 false "rl" O TOKEN_BUCKET in
  (RateLimiter._store rl2 <> RateLimiter._store strict_limiter \/
   RateLimiter._strategy rl2 <> RateLimiter._strategy strict_limiter \/
   RateLimiter._build_key rl2 "k" <> RateLimiter._build_key strict_limiter "k") /\
  fst (call (at_time 1) (RateLimiter.check strict_limiter "k")
         (snd (call (at_time 0) (RateLimiter.check rl2 "k") empty_world)))
  = fst (call (at_time 1) (RateLimiter.check strict_limiter "k") empty_world).
Proof.
  intros rl2.
  assert (Hne : RateLimiter._store rl2 <> RateLimiter._store strict_limiter \/
                RateLimiter._strategy rl2 <> RateLimiter._strategy strict_limiter \/
                RateLimiter._build_key rl2 "k" <> RateLimiter._build_key strict_limiter "k")
    by (right; left; discriminate).
  split; [exact Hne|].
  exact (proj2 (X23_check_outcome_depends_on_own_state strict_limiter rl2 "k"%string
                  "k"%string (at_time 1) (at_time 0) empty_world empty_world) Hne).
Defined.

Lemma X24_witness :
  RateLimiter.key_prefix strict_limiter = RateLimiter.key_prefix strict_limiter /\
  ("bob" : string) <> "alice" /\
  same_state strict_limiter "bob" empty_world
    (snd (call (at_time 0) (RateLimiter.check strict_limiter "alice") empty_world)) /\
  same_state strict_limiter "bob" spent_world
    (snd (call (at_time 0) (RateLimiter.reset strict_limiter "alice") spent_world)).
Proof.
  assert (Hne : ("bob" : string) <> "alice") by discriminate.
  split; [reflexivity|]. split; [exact Hne|]. split.
  - exact (proj1 (X24_distinct_keys_are_independent strict_limiter strict_limiter
                    "alice"%string "bob"%string (at_time 0) empty_world eq_refl Hne)).
  - exact (proj2 (proj2 (X24_distinct_keys_are_independent strict_limiter strict_limiter
                    "alice"%string "bob"%string (at_time 0) spent_world eq_refl Hne))).
Defined.

Lemma X25_witness :
  let rl2 := RateLimiter.mk 5 1 false "ip" O FIXED_WINDOW in
  no_colon (RateLimiter.key_prefix strict_limiter) = true /\
  no_colon (RateLimiter.key_prefix rl2) = true /\
  RateLimiter.key_prefix rl2 <> RateLimiter.key_prefix strict_limiter /\
  same_state rl2 "k" empty_world
    (snd (call (at_time 0) (RateLimiter.check strict_limiter "k") empty_world)).
Proof.
  intros rl2.
  assert (Hne : RateLimiter.key_prefix rl2 <> RateLimiter.key_prefix strict_limiter)
    by discriminate.
  split; [reflexivity|]. split; [reflexivity|]. split; [exact Hne|].
  exact (proj1 (X25_distinct_prefixes_are_independent strict_limiter rl2 "k"%string
                  "k"%string (at_time 0) empty_world eq_refl eq_refl Hne)).
Defined.



Lemma X29_witness :
  let ls := [RateLimiter.mk 3 5 false "rl" O TOKEN_BUCKET;
             RateLimiter.mk 6 0 false "rl" 1%nat FIXED_WINDOW;
             RateLimiter.mk 9 9 false "rl" 2%nat LEAKY_BUCKET] in
  exists s1 : nat * World,
    call (at_time 0) (TieredRateLimiter.check (TieredRateLimiter.mk ls) "k") empty_world
      = (Raise ZeroDivisionError, snd s1) /\
    data_at (snd s1) 2%nat (RateLimiter._build_key (RateLimiter.mk 9 9 false "rl" 2%nat
                              LEAKY_BUCKET) "k" +:+ ":lb") = None.
Proof.
  intros ls.
  assert (H1 : exists rs1 (s1 : nat * World),
    TieredRateLimiter.check_each [RateLimiter.mk 3 5 false "rl" O TOKEN_BUCKET] "k"
      (at_time 0) (O, empty_world) = (Ok rs1, s1) /\
    RateLimiter.check (RateLimiter.mk 6 0 false "rl" 1%nat FIXED_WINDOW) "k" (at_time 0) s1
      = (Raise ZeroDivisionError, (S (fst s1), snd s1)) /\
    data_at (snd s1) 2%nat (RateLimiter._build_key (RateLimiter.mk 9 9 false "rl" 2%nat
                              LEAKY_BUCKET) "k" +:+ ":lb") = None).
  { eexists _, _. split; [vm_compute; reflexivity|]. split; reflexivity. }
  destruct H1 as (rs1 & s1 & H1 & H2 & H3).
  exists s1. split; [|exact H3].
  exact (proj2 (proj2 (proj2 (X29_tiered_check_one_result_per_tier ls "k"%string
           (at_time 0) (at_time 0) empty_world)))
           [RateLimiter.mk 3 5 false "rl" O TOKEN_BUCKET]
           (RateLimiter.mk 6 0 false "rl" 1%nat FIXED_WINDOW)
           [RateLimiter.mk 9 9 false "rl" 2%nat LEAKY_BUCKET]
           rs1 s1 ZeroDivisionError _ eq_refl H1 H2).
Defined.
